(** * Thread-to-FSM compiler of veriloggen: a shallow embedding

    The development follows [veriloggen/thread/thread.py]: the Python
    syntax tree the compiler consumes ([ast]), the values it computes with
    at compile time ([vtypes]), the FSM and the hardware module it emits
    into, the scope frame list, and then [CompileVisitor] itself, written
    in a state-and-exception monad.  Statement and expression visits are
    mutually recursive through function inlining, which need not terminate,
    so the visitor is indexed by a recursion budget. *)

From stdpp Require Import base strings gmap list pretty.
From Stdlib Require Import ZArith Lia.

Set Warnings "-register-all".
Open Scope string_scope.
Open Scope list_scope.

(** ** The Python syntax tree (module [ast] of the host language) *)

Module ast.

Inductive operator :=
| Add | Sub | Mult | MatMult | Div | Mod | Pow
| LShift | RShift | BitOr | BitXor | BitAnd | FloorDiv.

Inductive boolop := And | Or.

Inductive unaryop := Invert | Not | UAdd | USub.

Inductive cmpop := Eq | NotEq | Lt | LtE | Gt | GtE | Is | IsNot | In | NotIn.

Inductive expr_context := Load | Store.

(** [node.n] of a [Num] is an [int] or some other number (a float). *)
Inductive num :=
| NInt (n : Z)
| NFloat (repr : string).

(** Expressions.  A call carries the identifier of its callee: calls whose
    callee is an attribute are lowered through reflection on host objects
    ([_call_Attribute]) and are not part of this fragment. *)
Inductive expr :=
| Num (n : num)
| Str (s : string)
| NameConstant (value : option bool)
| Name (id : string) (ctx : expr_context)
| Attribute (value : expr) (attr : string)
| UnaryOp (op : unaryop) (operand : expr)
| BinOp (left : expr) (op : operator) (right : expr)
| BoolOp (op : boolop) (values : list expr)
| Compare (left : expr) (ops : list cmpop) (comparators : list expr)
| IfExp (test body orelse : expr)
| Tuple (elts : list expr)
| List (elts : list expr)
| Call (func : string) (args : list expr) (keywords : list (string * expr)).

(** Statements.  A [FunctionDef] is kept as its name, the names of its
    parameters, the default values of the last parameters and its body. *)
Inductive stmt :=
| FunctionDef (name : string) (args : list string) (defaults : list expr)
              (body : list stmt)
| Import
| ImportFrom
| ClassDef
| Assign (targets : list expr) (value : expr)
| AugAssign (target : expr) (op : operator) (value : expr)
| If (test : expr) (body orelse : list stmt)
| While (test : expr) (body : list stmt)
| For (target iter : expr) (body : list stmt)
| Expr (value : expr)
| Pass
| Break
| Continue
| Return (value : option expr)
| Nonlocal (names : list string)
| Global (names : list string)
| Print (values : list expr).

Record funcdef := mk_funcdef {
  fd_name : string;
  fd_args : list string;
  fd_defaults : list expr;
  fd_body : list stmt }.

End ast.

(** ** Compile-time values (module [vtypes] and the host objects around it) *)

Module vtypes.

(** The operator constructors of the IR. *)
Inductive op :=
| Plus | Minus | Times | Divide | IntDivide | Mod | Power
| And | Or | Xor | Sll | Srl
| Land | Lor
| Eq | NotEq | LessThan | LessEq | GreaterThan | GreaterEq
| Uplus | Uminus | Unot | Ulnot.

#[global] Instance op_eq_dec : EqDecision op.
Proof. solve_decision. Defined.

(** What a visit can return: an IR node, or one of the host values the
    compiler handles beside them ([None], a tuple, some other object). *)
Inductive value :=
| PyNone
| PyTuple (elts : list value)
| PyObject (id : string)
| Int (n : Z)
| Constant (repr : string)
| Str (s : string)
| Reg (name : string) (width : Z) (initval : Z)
| Unary (o : op) (v : value)
| Binary (o : op) (l r : value)
| Cond (c t f : value)
| SystemTask (name : string) (args : list value).

(** Statements attached to an FSM state. *)
Inductive statement :=
| Subst (var val : value)
| SingleStatement (val : value).

Definition is_None (v : value) : bool :=
  match v with PyNone => true | _ => false end.

Definition is_Str (v : value) : bool :=
  match v with Str _ => true | _ => false end.

Definition is_tuple (v : value) : bool :=
  match v with PyTuple _ => true | _ => false end.

Definition is_Variable (v : value) : bool :=
  match v with Reg _ _ _ => true | _ => false end.

(** Modelled from the spec: [vtypes.numerical_types] (the IR module is not
    among the sources).  The spec sets the numerical nodes, "anything
    combinable with RTL arithmetic operators", apart from string literals;
    tuples, [None] and other host objects are not IR nodes at all. *)
Definition is_numerical (v : value) : bool :=
  match v with
  | Int _ | Constant _ | Reg _ _ _ | Unary _ _ | Binary _ _ _ | Cond _ _ _ => true
  | _ => false
  end.

(** Modelled from the spec: [inc()] of a register, "an increment of that
    counter", as the assignment of the register plus one to itself. *)
Definition inc (count : value) : statement :=
  Subst count (Binary Plus count (Int 1)).

End vtypes.

Import vtypes.

(** Python exceptions the compiler can end with. *)
Inductive exn :=
| TypeError (msg : string)
| ValueError (msg : string)
| NameError (msg : string)
| IndexError (msg : string)
| AttributeError (msg : string).

(** The outcome of a computation: a value, an exception, or the recursion
    budget of the model used up (which is no behaviour of the program). *)
Inductive result (A : Type) :=
| Ok (a : A)
| Raise (e : exn)
| OutOfFuel.
Arguments Ok {A} a.
Arguments Raise {A} e.
Arguments OutOfFuel {A}.

(** ** Operator table ([getVeriloggenOp] of operator.py) *)

(** Modelled from the spec: [getVeriloggenOp] (operator.py is not among the
    sources), the closed mapping of section 4.2; an operator kind outside
    the table has no constructor ([None]). *)
Definition getVeriloggenOp_operator (o : ast.operator) : option op :=
  match o with
  | ast.Add => Some Plus
  | ast.Sub => Some Minus
  | ast.Mult => Some Times
  | ast.Div => Some Divide
  | ast.FloorDiv => Some IntDivide
  | ast.Mod => Some Mod
  | ast.Pow => Some Power
  | ast.BitAnd => Some And
  | ast.BitOr => Some Or
  | ast.BitXor => Some Xor
  | ast.LShift => Some Sll
  | ast.RShift => Some Srl
  | ast.MatMult => None
  end.

Definition getVeriloggenOp_boolop (o : ast.boolop) : option op :=
  match o with
  | ast.And => Some Land
  | ast.Or => Some Lor
  end.

Definition getVeriloggenOp_unaryop (o : ast.unaryop) : option op :=
  match o with
  | ast.UAdd => Some Uplus
  | ast.USub => Some Uminus
  | ast.Invert => Some Unot
  | ast.Not => Some Ulnot
  end.

Definition getVeriloggenOp_cmpop (o : ast.cmpop) : option op :=
  match o with
  | ast.Eq | ast.Is => Some Eq
  | ast.NotEq | ast.IsNot => Some NotEq
  | ast.Lt => Some LessThan
  | ast.LtE => Some LessEq
  | ast.Gt => Some GreaterThan
  | ast.GtE => Some GreaterEq
  | ast.In | ast.NotIn => None
  end.

(** ** The hardware module and the FSM the compiler programs *)

(** Modelled from the spec: the module primitive of section 6.3 ([Reg],
    [TmpReg]); it records the registers declared so far and numbers its
    own temporaries. *)
Record Module := mk_Module {
  m_regs : list value;
  m_tmp : nat }.

Definition Module_Reg (name : string) (width initval : Z) (m : Module)
  : value * Module :=
  let r := Reg name width initval in
  (r, {| m_regs := m_regs m ++ [r]; m_tmp := m_tmp m |}).

Definition Module_TmpReg (width initval : Z) (m : Module) : value * Module :=
  let r := Reg ("_tmp_" +:+ pretty (m_tmp m)) width initval in
  (r, {| m_regs := m_regs m ++ [r]; m_tmp := S (m_tmp m) |}).

(** A transition [(src, dst, guard?, else_dst?)]. *)
Record transition := mk_transition {
  t_src : nat;
  t_dst : nat;
  t_cond : option value;
  t_else : option nat }.

(** Modelled from the spec: the FSM primitive of sections 4.3 and 6.2
    (fsm.py is not among the sources): the current state, the transitions
    recorded by [goto_from] and the statements attached to states by
    [_add_statement], both in the order they were emitted. *)
Record FSM := mk_FSM {
  fsm_m : Module;
  current : nat;
  jumps : list transition;
  bodies : list (nat * list statement * option value) }.

Definition FSM_inc (f : FSM) : FSM :=
  {| fsm_m := fsm_m f; current := S (current f);
     jumps := jumps f; bodies := bodies f |}.

Definition FSM_goto_from (src dst : nat) (cond : option value)
    (else_dst : option nat) (f : FSM) : FSM :=
  {| fsm_m := fsm_m f; current := current f;
     jumps := jumps f ++ [mk_transition src dst cond else_dst];
     bodies := bodies f |}.

Definition FSM_add_statement (stmts : list statement) (cond : option value)
    (f : FSM) : FSM :=
  {| fsm_m := fsm_m f; current := current f; jumps := jumps f;
     bodies := bodies f ++ [(current f, stmts, cond)] |}.

(** [fsm.If(cond).goto_next()]: a guarded transition to the next state,
    which becomes current. *)
Definition FSM_If_goto_next (cond : value) (f : FSM) : FSM :=
  FSM_inc (FSM_goto_from (current f) (S (current f)) (Some cond) None f).

Definition FSM_set_m (m : Module) (f : FSM) : FSM :=
  {| fsm_m := m; current := current f; jumps := jumps f; bodies := bodies f |}.

(** ** Scope frames (scope.py) *)

(** Modelled from the spec: [ScopeFrame] and [ScopeFrameList] (scope.py is
    not among the sources).  Section 3 gives a frame its variable bindings,
    its nonlocal and global name sets, its lists of unresolved break,
    continue and return states (a return paired with the returned value)
    and an optional return variable; the frame list is an ordered sequence
    whose topmost frame is current, [push] appends a frame, [pop] removes
    the top one, and ["call"] marks a function boundary.  A patch is
    registered in the current frame, which is the frame [skip()] tests.
    [CompileVisitor] pops the frame of a loop body before it drains the
    patches, and section 3 wants them "attached to the frame that owns the
    enclosing loop or function call" by then: a popped frame hands its
    pending patches to the frame below, where [getUnresolved*] finds them
    and [clear*] removes them. *)
Record ScopeFrame := mk_ScopeFrame {
  ftype : option string;
  variables : gmap string value;
  nonlocals : gset string;
  globals : gset string;
  unresolved_break : list nat;
  unresolved_continue : list nat;
  unresolved_return : list (nat * value);
  inner_break : list nat;
  inner_continue : list nat;
  inner_return : list (nat * value);
  returnvariable : value }.

Definition new_frame (ftype : option string) : ScopeFrame :=
  {| ftype := ftype; variables := ∅; nonlocals := ∅; globals := ∅;
     unresolved_break := []; unresolved_continue := []; unresolved_return := [];
     inner_break := []; inner_continue := []; inner_return := [];
     returnvariable := PyNone |}.

(** A bind record [(state, variable_name, value, guard)]. *)
Definition bind_record : Type := nat * option string * value * option value.

Record ScopeFrameList := mk_ScopeFrameList {
  frames : list ScopeFrame;
  functions : gmap string ast.funcdef;
  binds : list bind_record }.

Definition ScopeFrameList_init : ScopeFrameList :=
  {| frames := [new_frame None]; functions := ∅; binds := [] |}.

Definition set_frames (fs : list ScopeFrame) (s : ScopeFrameList) : ScopeFrameList :=
  {| frames := fs; functions := functions s; binds := binds s |}.

(** Apply [f] to the current frame. *)
Definition on_current (f : ScopeFrame → ScopeFrame) (s : ScopeFrameList)
  : ScopeFrameList :=
  match frames s with
  | [] => s
  | fr :: rest => set_frames (f fr :: rest) s
  end.

Definition is_call (fr : ScopeFrame) : bool :=
  match ftype fr with
  | Some t => String.eqb t "call"
  | None => false
  end.

(** Apply [f] to the innermost frame marked ["call"]. *)
Fixpoint on_call_frame (f : ScopeFrame → ScopeFrame) (fs : list ScopeFrame)
  : list ScopeFrame :=
  match fs with
  | [] => []
  | fr :: rest => if is_call fr then f fr :: rest else fr :: on_call_frame f rest
  end.

Definition pushScopeFrame (ftype : option string) (s : ScopeFrameList)
  : ScopeFrameList :=
  set_frames (new_frame ftype :: frames s) s.

Definition take_over (top below : ScopeFrame) : ScopeFrame :=
  {| ftype := ftype below; variables := variables below;
     nonlocals := nonlocals below; globals := globals below;
     unresolved_break := unresolved_break below;
     unresolved_continue := unresolved_continue below;
     unresolved_return := unresolved_return below;
     inner_break := inner_break below ++ unresolved_break top ++ inner_break top;
     inner_continue :=
       inner_continue below ++ unresolved_continue top ++ inner_continue top;
     inner_return := inner_return below ++ unresolved_return top ++ inner_return top;
     returnvariable := returnvariable below |}.

Definition popScopeFrame (s : ScopeFrameList) : ScopeFrameList :=
  match frames s with
  | [] => s
  | [top] => set_frames [] s
  | top :: below :: rest => set_frames (take_over top below :: rest) s
  end.

Definition addFunction (fd : ast.funcdef) (s : ScopeFrameList) : ScopeFrameList :=
  {| frames := frames s; functions := <[ast.fd_name fd := fd]> (functions s);
     binds := binds s |}.

Definition searchFunction (name : string) (s : ScopeFrameList)
  : option ast.funcdef :=
  functions s !! name.

(** Walks the frames from the current one outwards; [PyNone] when no frame
    binds the name. *)
Fixpoint search_frames (name : string) (fs : list ScopeFrame) : value :=
  match fs with
  | [] => PyNone
  | fr :: rest =>
      match variables fr !! name with
      | Some v => v
      | None => search_frames name rest
      end
  end.

Definition searchVariable (name : string) (store : bool) (s : ScopeFrameList)
  : value :=
  search_frames name (frames s).

Definition bind_in (name : string) (v : value) (fr : ScopeFrame) : ScopeFrame :=
  {| ftype := ftype fr; variables := <[name := v]> (variables fr);
     nonlocals := nonlocals fr; globals := globals fr;
     unresolved_break := unresolved_break fr;
     unresolved_continue := unresolved_continue fr;
     unresolved_return := unresolved_return fr;
     inner_break := inner_break fr; inner_continue := inner_continue fr;
     inner_return := inner_return fr;
     returnvariable := returnvariable fr |}.

Fixpoint bind_outermost (name : string) (v : value) (fs : list ScopeFrame)
  : list ScopeFrame :=
  match fs with
  | [] => []
  | [fr] => [bind_in name v fr]
  | fr :: rest => fr :: bind_outermost name v rest
  end.

(** The frame a store to [name] goes to, seen from the frames [fs]: the
    outermost frame under a [global] declaration, the nearest frame
    enclosing the declaring one under a [nonlocal] declaration. *)
Fixpoint bind_declared (name : string) (v : value) (fs : list ScopeFrame)
  : option (list ScopeFrame) :=
  match fs with
  | [] => None
  | fr :: rest =>
      if decide (name ∈ globals fr) then Some (fr :: bind_outermost name v rest)
      else if decide (name ∈ nonlocals fr) then
        Some (fr :: match rest with
                    | [] => []
                    | up :: rest' => bind_in name v up :: rest'
                    end)
      else (fr ::.) <$> bind_declared name v rest
  end.

Definition addVariable (name : string) (v : value) (s : ScopeFrameList)
  : ScopeFrameList :=
  match bind_declared name v (frames s) with
  | Some fs => set_frames fs s
  | None => on_current (bind_in name v) s
  end.

Definition addNonlocal (name : string) : ScopeFrameList → ScopeFrameList :=
  on_current (fun fr =>
    {| ftype := ftype fr; variables := variables fr;
       nonlocals := {[name]} ∪ nonlocals fr; globals := globals fr;
       unresolved_break := unresolved_break fr;
       unresolved_continue := unresolved_continue fr;
       unresolved_return := unresolved_return fr;
       inner_break := inner_break fr; inner_continue := inner_continue fr;
       inner_return := inner_return fr;
       returnvariable := returnvariable fr |}).

Definition addGlobal (name : string) : ScopeFrameList → ScopeFrameList :=
  on_current (fun fr =>
    {| ftype := ftype fr; variables := variables fr;
       nonlocals := nonlocals fr; globals := {[name]} ∪ globals fr;
       unresolved_break := unresolved_break fr;
       unresolved_continue := unresolved_continue fr;
       unresolved_return := unresolved_return fr;
       inner_break := inner_break fr; inner_continue := inner_continue fr;
       inner_return := inner_return fr;
       returnvariable := returnvariable fr |}).

Definition addBind (state : nat) (dst : option string) (v : value)
    (cond : option value) (s : ScopeFrameList) : ScopeFrameList :=
  {| frames := frames s; functions := functions s;
     binds := binds s ++ [(state, dst, v, cond)] |}.

Definition set_patches (b c : list nat) (r : list (nat * value))
    (ib ic : list nat) (ir : list (nat * value)) (fr : ScopeFrame) : ScopeFrame :=
  {| ftype := ftype fr; variables := variables fr;
     nonlocals := nonlocals fr; globals := globals fr;
     unresolved_break := b; unresolved_continue := c; unresolved_return := r;
     inner_break := ib; inner_continue := ic; inner_return := ir;
     returnvariable := returnvariable fr |}.

Definition scope_addBreak (count : nat) : ScopeFrameList → ScopeFrameList :=
  on_current (fun fr =>
    set_patches (unresolved_break fr ++ [count]) (unresolved_continue fr)
      (unresolved_return fr) (inner_break fr) (inner_continue fr)
      (inner_return fr) fr).

Definition scope_addContinue (count : nat) : ScopeFrameList → ScopeFrameList :=
  on_current (fun fr =>
    set_patches (unresolved_break fr) (unresolved_continue fr ++ [count])
      (unresolved_return fr) (inner_break fr) (inner_continue fr)
      (inner_return fr) fr).

Definition scope_addReturn (count : nat) (v : value)
  : ScopeFrameList → ScopeFrameList :=
  on_current (fun fr =>
    set_patches (unresolved_break fr) (unresolved_continue fr)
      (unresolved_return fr ++ [(count, v)]) (inner_break fr)
      (inner_continue fr) (inner_return fr) fr).

Definition nonempty {A} (l : list A) : bool :=
  match l with [] => false | _ => true end.

Definition scope_hasBreak (s : ScopeFrameList) : bool :=
  match frames s with
  | [] => false
  | fr :: _ => nonempty (unresolved_break fr)
  end.

Definition scope_hasContinue (s : ScopeFrameList) : bool :=
  match frames s with
  | [] => false
  | fr :: _ => nonempty (unresolved_continue fr)
  end.

Definition scope_hasReturn (s : ScopeFrameList) : bool :=
  match frames s with
  | [] => false
  | fr :: _ => nonempty (unresolved_return fr)
  end.

Definition scope_getUnresolvedBreak (s : ScopeFrameList) : list nat :=
  match frames s with
  | [] => []
  | fr :: _ => unresolved_break fr ++ inner_break fr
  end.

Definition scope_getUnresolvedContinue (s : ScopeFrameList) : list nat :=
  match frames s with
  | [] => []
  | fr :: _ => unresolved_continue fr ++ inner_continue fr
  end.

Definition scope_getUnresolvedReturn (s : ScopeFrameList) : list (nat * value) :=
  match frames s with
  | [] => []
  | fr :: _ => unresolved_return fr ++ inner_return fr
  end.

Definition scope_clearBreak : ScopeFrameList → ScopeFrameList :=
  on_current (fun fr =>
    set_patches [] (unresolved_continue fr) (unresolved_return fr)
      [] (inner_continue fr) (inner_return fr) fr).

Definition scope_clearContinue : ScopeFrameList → ScopeFrameList :=
  on_current (fun fr =>
    set_patches (unresolved_break fr) [] (unresolved_return fr)
      (inner_break fr) [] (inner_return fr) fr).

Definition scope_clearReturn : ScopeFrameList → ScopeFrameList :=
  on_current (fun fr =>
    set_patches (unresolved_break fr) (unresolved_continue fr) []
      (inner_break fr) (inner_continue fr) [] fr).

Definition set_returnvariable (v : value) (fr : ScopeFrame) : ScopeFrame :=
  {| ftype := ftype fr; variables := variables fr;
     nonlocals := nonlocals fr; globals := globals fr;
     unresolved_break := unresolved_break fr;
     unresolved_continue := unresolved_continue fr;
     unresolved_return := unresolved_return fr;
     inner_break := inner_break fr; inner_continue := inner_continue fr;
     inner_return := inner_return fr;
     returnvariable := v |}.

(** The return variable belongs to the current call frame: the innermost
    frame marked ["call"]. *)
Definition scope_setReturnVariable (v : value) (s : ScopeFrameList)
  : ScopeFrameList :=
  set_frames (on_call_frame (set_returnvariable v) (frames s)) s.

Fixpoint call_frame (fs : list ScopeFrame) : option ScopeFrame :=
  match fs with
  | [] => None
  | fr :: rest => if is_call fr then Some fr else call_frame rest
  end.

Definition scope_getReturnVariable (s : ScopeFrameList) : value :=
  match call_frame (frames s) with
  | Some fr => returnvariable fr
  | None => PyNone
  end.

Definition scope_clearReturnVariable (s : ScopeFrameList) : ScopeFrameList :=
  set_frames (on_call_frame (set_returnvariable PyNone) (frames s)) s.

(** ** The compiler state and its monad *)

(** What a [CompileVisitor] mutates while it runs: the FSM (and through it
    the module), the scope frame list, the loop descriptors, and the
    process-wide counter [_tmp_count] behind [_tmp_name]. *)
Record CompileVisitor := mk_CompileVisitor {
  fsm : FSM;
  scope : ScopeFrameList;
  loop_info : list (nat * nat * (value * value));
  _tmp_count : nat }.

Definition M (A : Type) : Type := CompileVisitor → result (A * CompileVisitor).

Definition ret {A} (a : A) : M A := fun st => Ok (a, st).

Definition bind {A B} (m : M A) (k : A → M B) : M B :=
  fun st =>
    match m st with
    | Ok (a, st') => k a st'
    | Raise e => Raise e
    | OutOfFuel => OutOfFuel
    end.

Definition raise {A} (e : exn) : M A := fun _ => Raise e.

Declare Scope visitor_scope.
Delimit Scope visitor_scope with visitor.
Notation "'let!' x := m 'in' k" := (bind m (fun x => k))
  (at level 10, x name, m at level 100, k at level 200,
   format "'let!'  x  :=  m  'in' '//' k") : visitor_scope.
Notation "m >> k" := (bind m (fun _ => k))
  (at level 100, right associativity) : visitor_scope.
Open Scope visitor_scope.

Fixpoint mapM {A B} (f : A → M B) (l : list A) : M (list B) :=
  match l with
  | [] => ret []
  | a :: l' => let! b := f a in let! bs := mapM f l' in ret (b :: bs)
  end.

Fixpoint forM {A} (l : list A) (f : A → M unit) : M unit :=
  match l with
  | [] => ret tt
  | a :: l' => f a >> forM l' f
  end.

Definition on_fsm (f : FSM → FSM) : M unit :=
  fun st => Ok (tt, {| fsm := f (fsm st); scope := scope st;
                       loop_info := loop_info st; _tmp_count := _tmp_count st |}).

Definition on_scope (f : ScopeFrameList → ScopeFrameList) : M unit :=
  fun st => Ok (tt, {| fsm := fsm st; scope := f (scope st);
                       loop_info := loop_info st; _tmp_count := _tmp_count st |}).

Definition ask_scope {A} (f : ScopeFrameList → A) : M A :=
  fun st => Ok (f (scope st), st).

(** [_tmp_name]: the prefix joined to the counter, which is incremented. *)
Definition _tmp_name (prefix : string) : M string :=
  fun st =>
    Ok (prefix +:+ "_" +:+ pretty (_tmp_count st),
        {| fsm := fsm st; scope := scope st; loop_info := loop_info st;
           _tmp_count := S (_tmp_count st) |}).

(** *** The FSM façade of the visitor *)

Definition getFsmCount : M nat := fun st => Ok (current (fsm st), st).

Definition incFsmCount : M unit := on_fsm FSM_inc.

(** [setFsm(src=None, dst=None, cond=None, else_dst=None)]; a guard that is
    [None] is kept as [PyNone]. *)
Definition setFsm (src dst : option nat) (cond : value) (else_dst : option nat)
  : M unit :=
  fun st =>
    let src := default (current (fsm st)) src in
    let dst := default (S src) dst in
    on_fsm (FSM_goto_from src dst
              (if is_None cond then None else Some cond) else_dst) st.

Definition setFsmLoop (begin end_ : nat) (iter_node step_node : value) : M unit :=
  fun st =>
    Ok (tt, {| fsm := fsm st; scope := scope st;
               loop_info :=
                 filter (fun e => e.1 ≠ (begin, end_)) (loop_info st)
                 ++ [((begin, end_), (iter_node, step_node))];
               _tmp_count := _tmp_count st |}).

(** *** Scope and patch lists *)

Definition pushScope (ftype : option string) : M unit :=
  on_scope (pushScopeFrame ftype).
Definition popScope : M unit := on_scope popScopeFrame.

Definition addBreak : M unit :=
  let! count := getFsmCount in on_scope (scope_addBreak count).
Definition addContinue : M unit :=
  let! count := getFsmCount in on_scope (scope_addContinue count).
Definition addReturn (v : value) : M unit :=
  let! count := getFsmCount in on_scope (scope_addReturn count v).

Definition hasBreak : M bool := ask_scope scope_hasBreak.
Definition hasContinue : M bool := ask_scope scope_hasContinue.
Definition hasReturn : M bool := ask_scope scope_hasReturn.

Definition getUnresolvedBreak : M (list nat) := ask_scope scope_getUnresolvedBreak.
Definition getUnresolvedContinue : M (list nat) :=
  ask_scope scope_getUnresolvedContinue.
Definition getUnresolvedReturn : M (list (nat * value)) :=
  ask_scope scope_getUnresolvedReturn.

Definition setReturnVariable (v : value) : M unit :=
  on_scope (scope_setReturnVariable v).
Definition getReturnVariable : M value := ask_scope scope_getReturnVariable.

Definition clearBreak : M unit := on_scope scope_clearBreak.
Definition clearContinue : M unit := on_scope scope_clearContinue.
Definition clearReturn : M unit := on_scope scope_clearReturn.
Definition clearReturnVariable : M unit := on_scope scope_clearReturnVariable.

(** [skip()]: [hasBreak() or hasContinue() or hasReturn()]. *)
Definition skip : M bool :=
  let! b := hasBreak in
  if b then ret true else
  let! c := hasContinue in
  if c then ret true else hasReturn.

(** ** The visitors *)

(** An entry of [local_objects]: a value, or a host function, which the
    compiler reaches through its syntax tree. *)
Inductive host_object :=
| HValue (v : value)
| HFunction (fd : ast.funcdef).

(** An intrinsic receives the evaluated arguments, the keyword arguments
    and the FSM, which it may program, and returns a value. *)
Definition intrinsic : Type :=
  list value → list (string * value) → FSM → result (value * FSM).

(** What [TargetVisitor] returns: a name, a list of targets, or [None] for
    a node it has no method for. *)
Inductive raw_target :=
| RawNone
| RawName (id : string)
| RawList (elts : list raw_target).

Fixpoint TargetVisitor_visit (e : ast.expr) : raw_target :=
  match e with
  | ast.Name id _ => RawName id
  | ast.Tuple elts | ast.List elts => RawList (map TargetVisitor_visit elts)
  | _ => RawNone
  end.

(** [x if isinstance(x, (tuple, list)) else (x,)] on either side. *)
Definition raw_as_tuple (raw : raw_target) : list raw_target :=
  match raw with RawList l => l | _ => [raw] end.

Definition as_tuple (v : value) : list value :=
  match v with PyTuple l => l | _ => [v] end.

(** [l[0]]. *)
Definition first {A} (l : list A) : M A :=
  match l with
  | a :: _ => ret a
  | [] => raise (IndexError "index out of range")
  end.

(** [isinstance(node.iter, ast.Call) and isinstance(node.iter.func, ast.Name)
    and node.iter.func.id == 'range']. *)
Definition is_range_call (iter : ast.expr) : bool :=
  match iter with
  | ast.Call func _ _ => String.eqb func "range"
  | _ => false
  end.

(** The chain of a comparison: the first operator applied to the left
    operand and the first comparator, each later one to two neighbouring
    comparators.  The comparator is indexed before the operator is called. *)
Fixpoint compare_chain (prev : value) (ops : list (option op))
    (comparators : list value) : M (list value) :=
  match ops with
  | [] => ret []
  | o :: ops' =>
      match comparators with
      | [] => raise (IndexError "list index out of range")
      | c :: comparators' =>
          match o with
          | None => raise (TypeError "'NoneType' object is not callable")
          | Some o =>
              let! rest := compare_chain c ops' comparators' in
              ret (Binary o prev c :: rest)
          end
      end
  end.

(** The fields of a [CompileVisitor] that stay as they are during a run:
    the name of the thread, the data width, the captured local objects, the
    intrinsic registry, and [getattr] on a value for the attributes the
    compiler cannot see. *)
Record Config := mk_Config {
  thread_name : string;
  datawidth : Z;
  local_objects : gmap string host_object;
  intrinsic_functions : gmap string intrinsic;
  host_getattr : value → string → option value }.

Section CompileVisitor.

Variable self : Config.

Definition makeVariable (name : string) : M value :=
  let! signame := _tmp_name ("_thread" +:+ "_" +:+ thread_name self +:+ "_" +:+ name) in
  fun st =>
    let '(r, m) := Module_Reg signame (datawidth self) 0 (fsm_m (fsm st)) in
    Ok (r, {| fsm := FSM_set_m m (fsm st); scope := scope st;
              loop_info := loop_info st; _tmp_count := _tmp_count st |}).

Definition getVariable (name : string) (store : bool) : M value :=
  let! var := ask_scope (searchVariable name store) in
  if is_None var then
    if negb store then
      match local_objects self !! name with
      | Some (HValue v) => ret v
      | Some (HFunction fd) => ret (PyObject (ast.fd_name fd))
      | None => raise (NameError ("name '" +:+ name +:+ "' is not defined"))
      end
    else
      let! var := makeVariable name in
      on_scope (addVariable name var) >>
      ask_scope (searchVariable name false)
  else ret var.

Definition getTmpVariable : M value :=
  let! name := _tmp_name "tmp" in
  getVariable name true.

Definition getFunction (name : string) : M ast.funcdef :=
  let! func := ask_scope (searchFunction name) in
  match func with
  | Some fd => ret fd
  | None =>
      match local_objects self !! name with
      | Some (HFunction fd) => ret fd
      | _ => raise (NameError ("function '" +:+ name +:+ "' is not defined"))
      end
  end.

(** [var.name if var is not None else None]. *)
Definition var_name (var : value) : M (option string) :=
  match var with
  | PyNone => ret None
  | Reg name _ _ => ret (Some name)
  | _ => raise (AttributeError "object has no attribute 'name'")
  end.

Definition setBind (var val cond : value) : M unit :=
  let cond := if is_None var then PyNone else cond in
  let subst := if is_None var then SingleStatement val else Subst var val in
  on_fsm (FSM_add_statement [subst] (if is_None cond then None else Some cond)) >>
  let! state := getFsmCount in
  let! vname := var_name var in
  on_scope (addBind state vname val (if is_None cond then None else Some cond)).

Definition setArgBind (name : string) (val : value) : M unit :=
  if negb (is_numerical val) then on_scope (addVariable name val)
  else
    let! left := getVariable name true in
    setBind left val PyNone.

Definition setAssignBind (dst : raw_target) (var val : value) : M unit :=
  if negb (is_numerical val) then
    match (if is_None var then RawNone else dst) with
    | RawNone =>
        raise (TypeError "object binding without destination is not supported")
    | RawName name => on_scope (addVariable name val)
    | RawList _ => raise (TypeError "unhashable type: 'list'")
    end
  else setBind var val PyNone.

(** [_assign].  The recursion is on the right-hand side: it happens only
    under a tuple, on its elements. *)
Fixpoint _assign (right : value) (raw_left : raw_target) (left : value)
    {struct right} : M unit :=
  let raw_dsts := raw_as_tuple raw_left in
  let dsts := as_tuple left in
  match right with
  | PyTuple rs =>
      if (length dsts =? 1)%nat then
        let! raw := first raw_dsts in
        let! dst := first dsts in
        setAssignBind raw dst right
      else if (length dsts <? length rs)%nat then
        raise (ValueError ("too many values to unpack (expected "
                           +:+ pretty (length rs) +:+ ")"))
      else if (length rs <? length dsts)%nat then
        raise (ValueError ("not enough values to unpack (expected "
                           +:+ pretty (length dsts) +:+ ", got "
                           +:+ pretty (length rs) +:+ ")"))
      else
        (fix each (rs : list value) (raws : list raw_target) (ds : list value)
             {struct rs} : M unit :=
           match rs, raws, ds with
           | r :: rs', raw_l :: raws', l :: ds' =>
               _assign r raw_l l >> each rs' raws' ds'
           | _, _, _ => ret tt
           end) rs raw_dsts dsts
  | _ =>
      if (1 <? length dsts)%nat then
        (* the message is formatted with [len(right)], which a value that is
           no tuple does not have *)
        raise (TypeError "object has no len()")
      else
        let! raw := first raw_dsts in
        let! dst := first dsts in
        setAssignBind raw dst right
  end.

(** One argument of [print]: the values it adds to the argument list and
    the pieces it adds to the format string. *)
Definition print_value (v : value) : list value * list string :=
  match v with
  | Str s => ([], [s; " "])
  | _ => ([v], ["%d"; " "])
  end.

Definition print_arg (visit : ast.expr → M value) (arg : ast.expr)
  : M (list value * list string) :=
  match arg with
  | ast.BinOp (ast.Str form) ast.Mod arg_right =>
      (* [_print_binop_mod] *)
      let! values :=
        match arg_right with
        | ast.Tuple elts | ast.List elts => mapM visit elts
        | _ => let! v := visit arg_right in ret [v]
        end in
      ret (values, [form; " "])
  | ast.Tuple elts =>
      let! vs := mapM visit elts in
      ret (concat (map (fun v => (print_value v).1) vs),
           concat (map (fun v => (print_value v).2) vs))
  | _ =>
      let! v := visit arg in ret (print_value v)
  end.

(** The body shared by [_call_Name_print] and [visit_Print]. *)
Definition print_display (visit : ast.expr → M value) (args : list ast.expr)
  : M value :=
  let! parts := mapM (print_arg visit) args in
  let argvalues := concat (map fst parts) in
  let formatstring_list := removelast (concat (map snd parts)) in
  let right :=
    SystemTask "display" (Str (String.concat EmptyString formatstring_list) :: argvalues) in
  setBind PyNone right PyNone >>
  setFsm None None PyNone None >>
  incFsmCount >>
  ret right.

Definition apply_op (o : option op) (l r : value) : M value :=
  match o with
  | Some o => ret (Binary o l r)
  | None => raise (TypeError "'NoneType' object is not callable")
  end.

Definition _string_operation_plus (left right : value) : M value :=
  match left, right with
  | Str l, Str r => ret (Str (l +:+ r))
  | _, _ => raise (TypeError "'+' operation requires two string arguments")
  end.

(** The part of [visit_BinOp] after the operands are lowered. *)
Definition BinOp_result (left : value) (o : ast.operator) (right : value)
  : M value :=
  match getVeriloggenOp_operator o with
  | None => raise (TypeError "Unsupported BinOp")
  | Some op =>
      if is_Str left || is_Str right then
        if decide (op = Plus) then _string_operation_plus left right
        else raise (TypeError "Can not generate a corresponding node")
      else ret (Binary op left right)
  end.

(** *** The methods of [CompileVisitor]

    Each method is written over the two visits it calls back into,
    [visit] for expressions and [visit_stmt] for statements; the knot is
    tied below. *)

Section Methods.

Variable visit : ast.expr → M value.
Variable visit_stmt : ast.stmt → M unit.

Definition visit_Assign (targets : list ast.expr) (value : ast.expr) : M unit :=
  let! sk := skip in
  if sk then ret tt else
  let! right := visit value in
  let! lefts := mapM visit targets in
  let raw_lefts := map TargetVisitor_visit targets in
  forM (zip raw_lefts lefts) (fun p => _assign right p.1 p.2) >>
  setFsm None None PyNone None >>
  incFsmCount.

Definition visit_AugAssign (target : ast.expr) (o : ast.operator)
    (value : ast.expr) : M unit :=
  let! sk := skip in
  if sk then ret tt else
  let! right := visit value in
  let! left := visit target in
  match getVeriloggenOp_operator o with
  | None => raise (TypeError "Unsupported BinOp")
  | Some op =>
      let rslt := Binary op left right in
      setBind left rslt PyNone >>
      setFsm None None PyNone None >>
      incFsmCount
  end.

Definition visit_If (test : ast.expr) (body orelse : list ast.stmt) : M unit :=
  let! sk := skip in
  if sk then ret tt else
  let! test := visit test in
  let! cur_count := getFsmCount in
  incFsmCount >>
  let! true_count := getFsmCount in
  pushScope None >>
  forM body visit_stmt >>
  popScope >>
  let! mid_count := getFsmCount in
  if (length orelse =? 0)%nat then
    setFsm (Some cur_count) (Some true_count) test (Some mid_count)
  else
    incFsmCount >>
    let! false_count := getFsmCount in
    pushScope None >>
    forM orelse visit_stmt >>
    popScope >>
    let! end_count := getFsmCount in
    setFsm (Some cur_count) (Some true_count) test (Some false_count) >>
    setFsm (Some mid_count) (Some end_count) PyNone None.

Definition visit_While (test : ast.expr) (body : list ast.stmt) : M unit :=
  let! sk := skip in
  if sk then ret tt else
  (* loop condition *)
  let! test := visit test in
  let! begin_count := getFsmCount in
  incFsmCount >>
  let! body_begin_count := getFsmCount in
  pushScope None >>
  forM body visit_stmt >>
  popScope >>
  let! body_end_count := getFsmCount in
  incFsmCount >>
  let! loop_exit_count := getFsmCount in
  setFsm (Some begin_count) (Some body_begin_count) test (Some loop_exit_count) >>
  setFsm (Some body_end_count) (Some begin_count) PyNone None >>
  let! unresolved_break := getUnresolvedBreak in
  forM unresolved_break
       (fun b => setFsm (Some b) (Some loop_exit_count) PyNone None) >>
  let! unresolved_continue := getUnresolvedContinue in
  forM unresolved_continue
       (fun c => setFsm (Some c) (Some begin_count) PyNone None) >>
  clearBreak >>
  clearContinue >>
  setFsmLoop begin_count body_end_count PyNone PyNone.

(** The three nodes of a [range] call: one argument is the end, two are
    begin and end, a third is the step; arguments after the third are not
    looked at. *)
Definition range_nodes (args : list ast.expr) : M (value * value * value) :=
  match args with
  | [] => raise (TypeError EmptyString)
  | [a0] =>
      let! end_node := visit a0 in
      ret (Int 0, end_node, Int 1)
  | [a0; a1] =>
      let! begin_node := visit a0 in
      let! end_node := visit a1 in
      ret (begin_node, end_node, Int 1)
  | a0 :: a1 :: a2 :: _ =>
      let! begin_node := visit a0 in
      let! end_node := visit a1 in
      let! step_node := visit a2 in
      ret (begin_node, end_node, step_node)
  end.

Definition visit_For (target iter : ast.expr) (body : list ast.stmt) : M unit :=
  let! sk := skip in
  if sk then ret tt else
  match iter with
  | ast.Call func args _ =>
      if String.eqb func "range" then
        (* typical for-loop *)
        let! nodes := range_nodes args in
        let '(begin_node, end_node, step_node) := nodes in
        let! iter_node := visit target in
        let cond_node := Binary LessThan iter_node end_node in
        let update_node := Binary Plus iter_node step_node in
        pushScope None >>
        (* initialize *)
        setBind iter_node begin_node PyNone >>
        setFsm None None PyNone None >>
        incFsmCount >>
        (* condition check *)
        let! check_count := getFsmCount in
        incFsmCount >>
        let! body_begin_count := getFsmCount in
        forM body visit_stmt >>
        popScope >>
        let! body_end_count := getFsmCount in
        (* update *)
        setBind iter_node update_node PyNone >>
        incFsmCount >>
        let! loop_exit_count := getFsmCount in
        setFsm (Some body_end_count) (Some check_count) PyNone None >>
        setFsm (Some check_count) (Some body_begin_count) cond_node
               (Some loop_exit_count) >>
        let! unresolved_break := getUnresolvedBreak in
        forM unresolved_break
             (fun b => setFsm (Some b) (Some loop_exit_count) PyNone None) >>
        let! unresolved_continue := getUnresolvedContinue in
        forM unresolved_continue
             (fun c => setFsm (Some c) (Some body_end_count) PyNone None) >>
        clearBreak >>
        clearContinue >>
        setFsmLoop check_count body_end_count iter_node step_node
      else ret tt
  | _ => ret tt
  end.

Definition _call_Name_print (args : list ast.expr) : M value :=
  print_display visit args.

Definition _call_Name_int (args : list ast.expr) : M value :=
  if (1 <? length args)%nat then raise (TypeError "Too much arguments for 'int()'")
  else
    let! argvalues := mapM visit args in
    first argvalues.

Definition _call_Name_intrinsic_function (func : intrinsic)
    (args : list ast.expr) (keywords : list (string * ast.expr)) : M value :=
  let! args := mapM visit args in
  let! kwargs := mapM (fun key => let! v := visit key.2 in ret (key.1, v)) keywords in
  fun st =>
    match func args kwargs (fsm st) with
    | Ok (v, f) => Ok (v, {| fsm := f; scope := scope st;
                             loop_info := loop_info st;
                             _tmp_count := _tmp_count st |})
    | Raise e => Raise e
    | OutOfFuel => OutOfFuel
    end.

(** [generic_visit] of a function definition visits the default values of
    its parameters and then its body; [ast.arg] nodes have no method. *)
Definition _visit_next_function (tree : ast.funcdef) : M value :=
  forM (ast.fd_defaults tree) (fun d => visit d >> ret tt) >>
  forM (ast.fd_body tree) visit_stmt >>
  let! retvar := getReturnVariable in
  if negb (is_None retvar) then ret retvar else ret (Int 0).

(** [tree.args.args[pos]] for each positional argument. *)
Fixpoint bind_positional (params : list string) (pos : nat) (args : list value)
  : M unit :=
  match args with
  | [] => ret tt
  | a :: args' =>
      match params !! pos with
      | None => raise (IndexError "list index out of range")
      | Some argname => setArgBind argname a >> bind_positional params (S pos) args'
      end
  end.

Definition bind_default (p : string * ast.expr) : M unit :=
  let! var := ask_scope (searchVariable p.1 true) in
  (* not defined yet *)
  if is_None var then
    let! right := visit p.2 in
    setArgBind p.1 right
  else ret tt.

(** The patching and the clean-up at the end of an inlined call. *)
Definition close_call : M unit :=
  (* fsm jump by return statement *)
  let! end_count := getFsmCount in
  let! unresolved_return := getUnresolvedReturn in
  forM unresolved_return
       (fun r => setFsm (Some r.1) (Some end_count) PyNone None) >>
  (* clean-up jump conditions *)
  clearBreak >>
  clearContinue >>
  clearReturn >>
  clearReturnVariable >>
  (* return to the previous scope frame *)
  popScope.

Definition _call_Name_function (args : list ast.expr)
    (keywords : list (string * ast.expr)) (name : string) : M value :=
  let! tree := getFunction name in
  (* prepare the argument values *)
  let! argvalues := mapM visit args in
  let! kwvalues := mapM (fun key => visit key.2) keywords in
  (* stack a new scope frame *)
  pushScope (Some "call") >>
  bind_positional (ast.fd_args tree) 0 argvalues >>
  forM (zip (map fst keywords) kwvalues) (fun p => setArgBind p.1 p.2) >>
  (* default values of kwargs *)
  let kwargs_size := length (ast.fd_defaults tree) in
  (if (0 <? kwargs_size)%nat then
     forM (zip (drop (length (ast.fd_args tree) - kwargs_size) (ast.fd_args tree))
               (ast.fd_defaults tree))
          bind_default
   else ret tt) >>
  setFsm None None PyNone None >>
  incFsmCount >>
  (* visit the function definition *)
  let! r := _visit_next_function tree in
  close_call >>
  ret r.

Definition _call_Name (func : string) (args : list ast.expr)
    (keywords : list (string * ast.expr)) : M value :=
  (* system task *)
  if String.eqb func "print" then _call_Name_print args
  else if String.eqb func "int" then _call_Name_int args
  else
    match intrinsic_functions self !! func with
    | Some f => _call_Name_intrinsic_function f args keywords
    | None => _call_Name_function args keywords func
    end.

Definition visit_Call (func : string) (args : list ast.expr)
    (keywords : list (string * ast.expr)) : M value :=
  let! sk := skip in
  if sk then ret PyNone else _call_Name func args keywords.

Definition visit_Break : M unit := addBreak >> incFsmCount.

Definition visit_Continue : M unit := addContinue >> incFsmCount.

Definition visit_Return (value : option ast.expr) : M unit :=
  match value with
  | None => addReturn PyNone >> incFsmCount
  | Some value =>
      let! retvar := getReturnVariable in
      if negb (is_None retvar) then
        let! right := visit value in
        setBind retvar right PyNone >>
        addReturn right >>
        incFsmCount
      else
        let! tmp := getTmpVariable in
        setReturnVariable tmp >>
        let! right := visit value in
        setBind tmp right PyNone >>
        addReturn right >>
        incFsmCount
  end.

Definition visit_Num (n : ast.num) : M value :=
  match n with
  | ast.NInt n => ret (Int n)
  | ast.NFloat r => ret (Constant r)
  end.

Definition visit_UnaryOp (o : ast.unaryop) (operand : ast.expr) : M value :=
  let! v := visit operand in
  match getVeriloggenOp_unaryop o with
  | Some op => ret (Unary op v)
  | None => raise (TypeError "'NoneType' object is not callable")
  end.

Definition visit_BoolOp (o : ast.boolop) (values : list ast.expr) : M value :=
  match getVeriloggenOp_boolop o with
  | None => raise (TypeError "Unsupported BinOp")
  | Some op =>
      let! v0 := first values in
      let! rslt := visit v0 in
      (fix fold (rslt : value) (vs : list ast.expr) : M value :=
         match vs with
         | [] => ret rslt
         | v :: vs' => let! r := visit v in fold (Binary op rslt r) vs'
         end) rslt (tail values)
  end.

Definition visit_BinOp (l : ast.expr) (o : ast.operator) (r : ast.expr) : M value :=
  let! left := visit l in
  let! right := visit r in
  BinOp_result left o right.

Definition visit_Compare (l : ast.expr) (ops : list ast.cmpop)
    (comparators : list ast.expr) : M value :=
  let! left := visit l in
  let! comparators := mapM visit comparators in
  let! rslts := compare_chain left (map getVeriloggenOp_cmpop ops) comparators in
  match rslts with
  | [] => ret PyNone
  | r :: rs => ret (fold_left (Binary Land) rs r)
  end.

Definition visit_NameConstant (v : option bool) : M value :=
  match v with
  | Some true => ret (Int 1)
  | Some false => ret (Int 0)
  | None => ret (Int 0)
  end.

Definition visit_Name (id : string) (ctx : ast.expr_context) : M value :=
  if String.eqb id "True" then ret (Int 1)
  else if String.eqb id "False" then ret (Int 0)
  else if String.eqb id "None" then ret (Int 0)
  else
    let store := match ctx with ast.Store => true | ast.Load => false end in
    getVariable id store.

Definition visit_Print (values : list ast.expr) : M unit :=
  print_display visit values >> ret tt.

Definition visit_Attribute (obj : ast.expr) (attr : string) : M value :=
  let! v := visit obj in
  if is_Variable v && String.eqb attr "value" then ret v
  else
    match host_getattr self v attr with
    | Some obj => ret obj
    | None => raise (AttributeError attr)
    end.

End Methods.

(** *** Dispatch

    [visit] of [ast.NodeVisitor], split by the kind of node; a budget of
    zero is the model's own outcome, not one of the program. *)
Fixpoint visit (fuel : nat) (node : ast.expr) {struct fuel} : M value :=
  match fuel with
  | O => fun _ => OutOfFuel
  | S n =>
      match node with
      | ast.Num n' => visit_Num n'
      | ast.Str s => ret (Str s)
      | ast.NameConstant v => visit_NameConstant v
      | ast.Name id ctx => visit_Name id ctx
      | ast.Attribute value attr => visit_Attribute (visit n) value attr
      | ast.UnaryOp o operand => visit_UnaryOp (visit n) o operand
      | ast.BinOp l o r => visit_BinOp (visit n) l o r
      | ast.BoolOp o values => visit_BoolOp (visit n) o values
      | ast.Compare l ops comparators => visit_Compare (visit n) l ops comparators
      | ast.IfExp test body orelse =>
          let! test := visit n test in
          let! body := visit n body in
          let! orelse := visit n orelse in
          ret (Cond test body orelse)
      | ast.Tuple elts | ast.List elts =>
          let! vs := mapM (visit n) elts in ret (PyTuple vs)
      | ast.Call func args keywords =>
          visit_Call (visit n) (visit_stmt n) func args keywords
      end
  end
with visit_stmt (fuel : nat) (node : ast.stmt) {struct fuel} : M unit :=
  match fuel with
  | O => fun _ => OutOfFuel
  | S n =>
      match node with
      | ast.Import | ast.ImportFrom | ast.ClassDef =>
          raise (TypeError "node is not supported.")
      | ast.FunctionDef name args defaults body =>
          on_scope (addFunction (ast.mk_funcdef name args defaults body))
      | ast.Assign targets value => visit_Assign (visit n) targets value
      | ast.AugAssign target o value => visit_AugAssign (visit n) target o value
      | ast.If test body orelse => visit_If (visit n) (visit_stmt n) test body orelse
      | ast.While test body => visit_While (visit n) (visit_stmt n) test body
      | ast.For target iter body =>
          visit_For (visit n) (visit_stmt n) target iter body
      | ast.Expr value => visit n value >> ret tt
      | ast.Pass => ret tt
      | ast.Break => visit_Break
      | ast.Continue => visit_Continue
      | ast.Return value => visit_Return (visit n) value
      | ast.Nonlocal names => forM names (fun name => on_scope (addNonlocal name))
      | ast.Global names => forM names (fun name => on_scope (addGlobal name))
      | ast.Print values => visit_Print (visit n) values
      end
  end.

End CompileVisitor.

(** ** The thread generator *)

(** [int.bit_length()]: the number of bits of the absolute value. *)
Definition bit_length (n : Z) : Z :=
  if (n =? 0)%Z then 0%Z else (Z.log2 (Z.abs n) + 1)%Z.

(** [ThreadGenerator.sleep] for a cycle count that is an [int]. *)
Definition sleep (cycles : Z) (f : FSM) : FSM :=
  let width := (bit_length cycles + 1)%Z in
  let '(count, m) := Module_TmpReg width 0 (fsm_m f) in
  let f := FSM_set_m m f in
  let f := FSM_add_statement [inc count] None f in
  FSM_If_goto_next (Binary Eq count (Int cycles)) f.

(** [sleep] as an entry of the intrinsic registry. *)
Definition sleep_intrinsic : intrinsic :=
  fun args kwargs f =>
    match args, kwargs with
    | [Int cycles], [] => Ok (PyNone, sleep cycles f)
    | [], [(k, Int cycles)] =>
        if String.eqb k "cycles" then Ok (PyNone, sleep cycles f)
        else Raise (TypeError "sleep() got an unexpected keyword argument")
    | _, _ => Raise (TypeError "sleep(): bad arguments")
    end.

(** A fresh visitor: the FSM at its first state, the global frame, and the
    functions handed to [__init__] added to the scope. *)
Definition CompileVisitor_init (fns : list ast.funcdef) : CompileVisitor :=
  {| fsm := {| fsm_m := {| m_regs := []; m_tmp := 0 |}; current := 0;
               jumps := []; bodies := [] |};
     scope := foldl (fun s fd => addFunction fd s) ScopeFrameList_init fns;
     loop_info := [];
     _tmp_count := 0 |}.

(** ** Loop descriptors *)

Definition getFsmLoops : M (list (nat * nat * (value * value))) :=
  fun st => Ok (loop_info st, st).

(** [getFsmCandidateLoops]: the keys [(b, e)] of the descriptors with
    [b <= pos and pos <= e]. *)
Definition getFsmCandidateLoops (pos : nat) : M (list (nat * nat)) :=
  fun st =>
    Ok (map fst (filter (fun e => (e.1.1 ≤ pos)%nat ∧ (pos ≤ e.1.2)%nat)
                        (loop_info st)),
        st).

(** ** [FunctionVisitor] *)

(** [FunctionVisitor] has a method for function definitions only, which
    records the node under its name and does not descend into it; every
    other node goes through [generic_visit], which visits the statements
    nested in a compound statement in order. *)
Fixpoint FunctionVisitor_visit (node : ast.stmt)
    (functions : gmap string ast.funcdef) : gmap string ast.funcdef :=
  match node with
  | ast.FunctionDef name args defaults body =>
      <[name := ast.mk_funcdef name args defaults body]> functions
  | ast.If _ body orelse =>
      foldl (fun fs s => FunctionVisitor_visit s fs)
            (foldl (fun fs s => FunctionVisitor_visit s fs) functions body)
            orelse
  | ast.While _ body | ast.For _ _ body =>
      foldl (fun fs s => FunctionVisitor_visit s fs) functions body
  | _ => functions
  end.

(** [visit] of a parsed module followed by [getFunctions()]. *)
Definition FunctionVisitor_getFunctions (module_body : list ast.stmt)
  : gmap string ast.funcdef :=
  foldl (fun fs s => FunctionVisitor_visit s fs) ∅ module_body.

(** ** The function library of [ThreadGenerator] *)

(** [function_lib], an [OrderedDict]: the entries in the order they were
    inserted, under pairwise different names. *)
Definition add_function {F} (name : string) (func : F)
    (function_lib : list (string * F)) : result (list (string * F)) :=
  if decide (name ∈ function_lib.*1) then
    Raise (ValueError ("Function " +:+ name
                       +:+ " is already defined in ThreadGenerator."))
  else Ok (function_lib ++ [(name, func)]).

(** * Specification *)

(** ** Notions the statements are written with *)

(** The value of [skip()] in a state. *)
Definition skipping (st : CompileVisitor) : bool :=
  scope_hasBreak (scope st) || scope_hasContinue (scope st)
  || scope_hasReturn (scope st).

(** The counter width the specification gives [sleep]:
    [ceil(log2(cycles)) + 1]. *)
Definition claimed_sleep_width (cycles : Z) : Z := (Z.log2_up cycles + 1)%Z.

(** The elementwise assignment of [_assign]: the triples of
    [zip(raw_dsts, dsts, right)], in order. *)
Fixpoint assign_each (rs : list value) (raws : list raw_target) (ds : list value)
  : M unit :=
  match rs, raws, ds with
  | r :: rs', raw_l :: raws', l :: ds' =>
      _assign r raw_l l >> assign_each rs' raws' ds'
  | _, _, _ => ret tt
  end.

(** ** A sample thread *)

Definition self0 : Config :=
  {| thread_name := "th"; datawidth := 32; local_objects := ∅;
     intrinsic_functions := <["sleep" := sleep_intrinsic]> ∅;
     host_getattr := fun _ _ => None |}.

Definition st0 : CompileVisitor := CompileVisitor_init [].

(** The state after a [break] was lowered at the start of a block. *)
Definition st_break : CompileVisitor :=
  match visit_stmt self0 1 ast.Break st0 with
  | Ok (_, st) => st
  | _ => st0
  end.

(** ** States named in the statements *)

Definition with_fsm (f : FSM) (st : CompileVisitor) : CompileVisitor :=
  {| fsm := f; scope := scope st; loop_info := loop_info st;
     _tmp_count := _tmp_count st |}.

Definition with_scope (s : ScopeFrameList) (st : CompileVisitor) : CompileVisitor :=
  {| fsm := fsm st; scope := s; loop_info := loop_info st;
     _tmp_count := _tmp_count st |}.

Definition upd_fsm (f : FSM → FSM) (st : CompileVisitor) : CompileVisitor :=
  with_fsm (f (fsm st)) st.

Definition upd_scope (f : ScopeFrameList → ScopeFrameList) (st : CompileVisitor)
  : CompileVisitor :=
  with_scope (f (scope st)) st.

(** The state after [setBind] of a value to a register. *)
Definition bound (name : string) (var val : value) (st : CompileVisitor)
  : CompileVisitor :=
  upd_scope (addBind (current (fsm st)) (Some name) val None)
            (upd_fsm (FSM_add_statement [Subst var val] None) st).

(** The transitions [ts] appended to those of a state. *)
Definition add_jumps (ts : list transition) (st : CompileVisitor) : CompileVisitor :=
  with_fsm {| fsm_m := fsm_m (fsm st); current := current (fsm st);
              jumps := jumps (fsm st) ++ ts; bodies := bodies (fsm st) |} st.

(** An unconditional transition. *)
Definition goto (src dst : nat) : transition := mk_transition src dst None None.

(** A guard as [goto_from] keeps it. *)
Definition guard (cond : value) : option value :=
  if is_None cond then None else Some cond.

(** The state in which the body of a while loop is lowered: after the
    condition was lowered to [st], one state further and one frame deeper. *)
Definition enter_while (st : CompileVisitor) : CompileVisitor :=
  with_scope (pushScopeFrame None (scope st)) (with_fsm (FSM_inc (fsm st)) st).

(** The state in which the body of a for loop is lowered: after the header
    was lowered to [st], one frame deeper, with the register [iter_node]
    (named [name]) initialised to [begin_node] at the state [st] was at, a
    transition to the check state after it and the body state after that. *)
Definition enter_for (name : string) (iter_node begin_node : value)
    (st : CompileVisitor) : CompileVisitor :=
  let init := current (fsm st) in
  {| fsm := {| fsm_m := fsm_m (fsm st); current := S (S init);
               jumps := jumps (fsm st) ++ [goto init (S init)];
               bodies := bodies (fsm st)
                         ++ [(init, [Subst iter_node begin_node], None)] |};
     scope := addBind init (Some name) begin_node None
                (pushScopeFrame None (scope st));
     loop_info := loop_info st;
     _tmp_count := _tmp_count st |}.

(** The state a successful computation ends in. *)
Definition final {A} (r : result (A * CompileVisitor)) : option CompileVisitor :=
  match r with
  | Ok (_, st) => Some st
  | _ => None
  end.

(** ** Sample programs *)

Definition num (n : Z) : ast.expr := ast.Num (ast.NInt n).
Definition load (id : string) : ast.expr := ast.Name id ast.Load.
Definition store (id : string) : ast.expr := ast.Name id ast.Store.

(** [def f(): return 3] *)
Definition def_f : ast.funcdef :=
  ast.mk_funcdef "f" [] [] [ast.Return (Some (num 3))].

(** [while f(): pass] *)
Definition while_call : ast.stmt := ast.While (ast.Call "f" [] []) [ast.Pass].

(** [for i in range(f()): pass] *)
Definition for_call : ast.stmt :=
  ast.For (store "i") (ast.Call "range" [ast.Call "f" [] []] []) [ast.Pass].

(** [while x: (if x: break); continue], after [x = 0]. *)
Definition while_break : ast.stmt :=
  ast.While (load "x") [ast.If (load "x") [ast.Break] []; ast.Continue].

(** [for i in range(10): (if i: break); continue]. *)
Definition for_break : ast.stmt :=
  ast.For (store "i") (ast.Call "range" [num 10] [])
          [ast.If (load "i") [ast.Break] []; ast.Continue].

Definition st_x : CompileVisitor :=
  match visit_stmt self0 3 (ast.Assign [store "x"] (num 0)) st0 with
  | Ok (_, st) => st
  | _ => st0
  end.

(** ** The frames seen from outside

    What a frame shows of its control flow: its kind, the patches
    registered in it, the patches handed to it, and its return variable.
    Variable bindings and name declarations are left out. *)

Definition patch_lists : Type := list nat * list nat * list (nat * value).

Record view := mk_view {
  v_ftype : option string;
  v_own : patch_lists;
  v_inner : patch_lists;
  v_retvar : value }.

Definition view_of (fr : ScopeFrame) : view :=
  {| v_ftype := ftype fr;
     v_own := (unresolved_break fr, unresolved_continue fr, unresolved_return fr);
     v_inner := (inner_break fr, inner_continue fr, inner_return fr);
     v_retvar := returnvariable fr |}.

Definition views (st : CompileVisitor) : list view :=
  map view_of (frames (scope st)).

Definition v_patches (v : view) : patch_lists * patch_lists := (v_own v, v_inner v).

Definition v_shape (v : view) : option string * value := (v_ftype v, v_retvar v).

Definition v_is_call (v : view) : bool :=
  match v_ftype v with
  | Some t => String.eqb t "call"
  | None => false
  end.

Definition no_patches : patch_lists := ([], [], []).

(** How return variables may move between two frame lists of the same
    kinds: only in the innermost call frame, and there only from unset to
    set. *)
Fixpoint retvars_rel (l l' : list view) : Prop :=
  match l, l' with
  | [], [] => True
  | v :: r, v' :: r' =>
      v_ftype v' = v_ftype v
      ∧ if v_is_call v
        then (v_retvar v ≠ PyNone → v_retvar v' = v_retvar v)
             ∧ map v_shape r' = map v_shape r
        else v_retvar v' = v_retvar v ∧ retvars_rel r r'
  | _, _ => False
  end.

(** What the visit of a statement may do to the frames: the frames under
    the current one keep their patches; the current frame keeps the patches
    registered in it unless the statement is a jump ([jump]); return
    variables move as [retvars_rel] allows, and stay as they are when no
    return with a value is involved ([retv]). *)
Definition stmt_rel (jump retv : bool) (l l' : list view) : Prop :=
  map v_patches (tail l') = map v_patches (tail l)
  ∧ (jump = false → v_own <$> head l' = v_own <$> head l)
  ∧ (if retv then retvars_rel l l' else map v_shape l' = map v_shape l).

(** [m], when it succeeds, relates the frames before and after by [R]. *)
Definition pres (R : list view → list view → Prop) {A} (m : M A) : Prop :=
  ∀ st a st', m st = Ok (a, st') → R (views st) (views st').

(** [m], when it succeeds, leaves the frames as they look from outside. *)
Definition keeps {A} (m : M A) : Prop := pres (fun l l' => l' = l) m.

Definition is_jump (s : ast.stmt) : bool :=
  match s with
  | ast.Break | ast.Continue | ast.Return _ => true
  | _ => false
  end.

(** Whether a return with a value occurs in a statement, nested function
    definitions apart. *)
Fixpoint returns_value (s : ast.stmt) : bool :=
  match s with
  | ast.Return (Some _) => true
  | ast.If _ body orelse =>
      existsb returns_value body || existsb returns_value orelse
  | ast.While _ body => existsb returns_value body
  | ast.For _ _ body => existsb returns_value body
  | _ => false
  end.

(** The nesting depth of tuples in a value. *)
Fixpoint tuple_depth (v : value) : nat :=
  match v with
  | PyTuple elts => S (foldr (fun e d => tuple_depth e `max` d) 0 elts)
  | _ => 0
  end.

(** The scope operations on views. *)
Definition papp (p q : patch_lists) : patch_lists :=
  (p.1.1 ++ q.1.1, p.1.2 ++ q.1.2, p.2 ++ q.2).

Definition new_view (ft : option string) : view :=
  mk_view ft no_patches no_patches PyNone.

(** The frame below, once the frame [t] above it is popped. *)
Definition absorb (t b : view) : view :=
  mk_view (v_ftype b) (v_own b) (papp (v_inner b) (papp (v_own t) (v_inner t)))
          (v_retvar b).

Definition pop_views (l : list view) : list view :=
  match l with
  | t :: b :: r => absorb t b :: r
  | _ => []
  end.

Definition on_head (f : view → view) (l : list view) : list view :=
  match l with
  | [] => []
  | v :: r => f v :: r
  end.

Fixpoint on_call_view (f : view → view) (l : list view) : list view :=
  match l with
  | [] => []
  | v :: r => if v_is_call v then f v :: r else v :: on_call_view f r
  end.

Definition set_retvar (x : value) (v : view) : view :=
  mk_view (v_ftype v) (v_own v) (v_inner v) x.

Definition set_view_patches (own inner : patch_lists) (v : view) : view :=
  mk_view (v_ftype v) own inner (v_retvar v).

(** What the visitor reads off the frames, on views. *)
Definition own_of (l : list view) : patch_lists :=
  match l with
  | v :: _ => v_own v
  | [] => no_patches
  end.

Definition pending_of (l : list view) : patch_lists :=
  match l with
  | v :: _ => papp (v_own v) (v_inner v)
  | [] => no_patches
  end.

Definition retvar_of (l : list view) : value :=
  match find v_is_call l with
  | Some v => v_retvar v
  | None => PyNone
  end.

(** The statements whose visit begins with the test of [skip()]. *)
Definition is_guarded (s : ast.stmt) : bool :=
  match s with
  | ast.Assign _ _ | ast.AugAssign _ _ _ | ast.If _ _ _ | ast.While _ _
  | ast.For _ _ _ | ast.Expr (ast.Call _ _ _) => true
  | _ => false
  end.

(** The state after the clean-up of a call, before its frame is popped. *)
Definition cleared (st : CompileVisitor) : CompileVisitor :=
  upd_scope scope_clearReturnVariable
    (upd_scope scope_clearReturn
       (upd_scope scope_clearContinue (upd_scope scope_clearBreak st))).

(** The state boundary emitted on entry of an inlined call. *)
Definition state_boundary (st : CompileVisitor) : CompileVisitor :=
  upd_fsm FSM_inc
    (upd_fsm (FSM_goto_from (current (fsm st)) (S (current (fsm st))) None None) st).

(** [def g(a, b=2): if a: return a; return b] *)
Definition def_g : ast.funcdef :=
  ast.mk_funcdef "g" ["a"; "b"] [num 2]
    [ast.If (load "a") [ast.Return (Some (load "a"))] [];
     ast.Return (Some (load "b"))].

(** [def h(): return] *)
Definition def_h : ast.funcdef := ast.mk_funcdef "h" [] [] [ast.Return None].

(** A state inside a call frame, before any statement of the body. *)
Definition st_call : CompileVisitor :=
  upd_scope (pushScopeFrame (Some "call")) st0.

(** The name [getTmpVariable] generates in a state, and the register it
    makes for it. *)
Definition tmp_name (st : CompileVisitor) : string :=
  "tmp" +:+ "_" +:+ pretty (_tmp_count st).

Definition tmp_register (self : Config) (st : CompileVisitor) : value :=
  Reg (("_thread" +:+ "_" +:+ thread_name self +:+ "_" +:+ tmp_name st)
       +:+ "_" +:+ pretty (S (_tmp_count st)))
      (datawidth self) 0.

(** The state after [_tmp_name], and after [makeVariable] of a name. *)
Definition named (st : CompileVisitor) : CompileVisitor :=
  {| fsm := fsm st; scope := scope st; loop_info := loop_info st;
     _tmp_count := S (_tmp_count st) |}.

Definition made_register (self : Config) (name : string) (st : CompileVisitor)
  : value :=
  Reg (("_thread" +:+ "_" +:+ thread_name self +:+ "_" +:+ name)
       +:+ "_" +:+ pretty (_tmp_count st))
      (datawidth self) 0.

Definition made (self : Config) (name : string) (st : CompileVisitor)
  : CompileVisitor :=
  upd_fsm (FSM_set_m {| m_regs := m_regs (fsm_m (fsm st))
                                  ++ [made_register self name st];
                        m_tmp := m_tmp (fsm_m (fsm st)) |})
          (named st).

(** The state and the value a computation ends with (the state it started
    in, and [None], when it does not succeed). *)
Definition state_after {A} (m : M A) (st : CompileVisitor) : CompileVisitor :=
  match m st with
  | Ok (_, st') => st'
  | _ => st
  end.

Definition value_after (m : M value) (st : CompileVisitor) : value :=
  match m st with
  | Ok (v, _) => v
  | _ => PyNone
  end.

(** Fresh visitors that know [f], and [g]. *)
Definition st_f : CompileVisitor := CompileVisitor_init [def_f].
Definition st_g : CompileVisitor := CompileVisitor_init [def_g].

(** The register of [x] in [st_x], and of [i] in a fresh visitor. *)
Definition reg_x : value := Reg "_thread_th_x_0" 32 0.
Definition reg_i : value := Reg "_thread_th_i_0" 32 0.

(** The bodies of [while_break] and [for_break]. *)
Definition body_break (id : string) : list ast.stmt :=
  [ast.If (load id) [ast.Break] []; ast.Continue].

(** ** What a computation may do to the compiler state *)

(** [m], when it succeeds, relates the states before and after by [R]. *)
Definition respects (R : CompileVisitor → CompileVisitor → Prop) {A} (m : M A)
  : Prop :=
  ∀ st a st', m st = Ok (a, st') → R st st'.

(** The FSM [f'] continues [f]: the state counter has not gone back, and
    the transitions, the statements and the registers of [f] are still
    there, in place, with those of [f'] after them. *)
Definition fsm_extends (f f' : FSM) : Prop :=
  (current f ≤ current f')%nat
  ∧ jumps f `prefix_of` jumps f'
  ∧ bodies f `prefix_of` bodies f'
  ∧ m_regs (fsm_m f) `prefix_of` m_regs (fsm_m f')
  ∧ (m_tmp (fsm_m f) ≤ m_tmp (fsm_m f'))%nat.

Definition extends (st st' : CompileVisitor) : Prop :=
  fsm_extends (fsm st) (fsm st')
  ∧ binds (scope st) `prefix_of` binds (scope st')
  ∧ (_tmp_count st ≤ _tmp_count st')%nat.

(** Every registered intrinsic continues the FSM it is handed. *)
Definition intrinsics_extend (self : Config) : Prop :=
  ∀ name f args kwargs fs v fs',
    intrinsic_functions self !! name = Some f →
    f args kwargs fs = Ok (v, fs') → fsm_extends fs fs'.

(** The states agree on the control flow emitted so far: the state
    counter, the transitions, the statements, the bind log and the loop
    descriptors. *)
Definition same_flow (st st' : CompileVisitor) : Prop :=
  current (fsm st') = current (fsm st)
  ∧ jumps (fsm st') = jumps (fsm st)
  ∧ bodies (fsm st') = bodies (fsm st)
  ∧ binds (scope st') = binds (scope st)
  ∧ loop_info st' = loop_info st.

(** No call occurs in an expression. *)
Fixpoint call_free (e : ast.expr) : bool :=
  match e with
  | ast.Call _ _ _ => false
  | ast.Attribute v _ => call_free v
  | ast.UnaryOp _ operand => call_free operand
  | ast.BinOp l _ r => call_free l && call_free r
  | ast.BoolOp _ values => forallb call_free values
  | ast.Compare l _ comparators => call_free l && forallb call_free comparators
  | ast.IfExp test body orelse => call_free test && call_free body && call_free orelse
  | ast.Tuple elts | ast.List elts => forallb call_free elts
  | _ => true
  end.

(** No name occurs in store context in an expression. *)
Fixpoint store_free (e : ast.expr) : bool :=
  match e with
  | ast.Name _ ast.Store => false
  | ast.Attribute v _ => store_free v
  | ast.UnaryOp _ operand => store_free operand
  | ast.BinOp l _ r => store_free l && store_free r
  | ast.BoolOp _ values => forallb store_free values
  | ast.Compare l _ comparators => store_free l && forallb store_free comparators
  | ast.IfExp test body orelse =>
      store_free test && store_free body && store_free orelse
  | ast.Tuple elts | ast.List elts => forallb store_free elts
  | ast.Call _ args keywords =>
      forallb store_free args && forallb (fun k => store_free k.2) keywords
  | _ => true
  end.

(** The state in which a branch of an if-statement is lowered: one state
    further and one frame deeper. *)
Definition enter_branch (st : CompileVisitor) : CompileVisitor :=
  upd_scope (pushScopeFrame None) (upd_fsm FSM_inc st).

(** From [st] to [st'] statements were attached to the state current in
    [st], without guard, and the FSM is otherwise as it was. *)
Definition attached_here (st st' : CompileVisitor) : Prop :=
  current (fsm st') = current (fsm st)
  ∧ jumps (fsm st') = jumps (fsm st)
  ∧ fsm_m (fsm st') = fsm_m (fsm st)
  ∧ ∃ added,
      bodies (fsm st') = bodies (fsm st) ++ added
      ∧ Forall (fun b => b.1.1 = current (fsm st) ∧ b.2 = None) added.

(** The pairwise comparisons of a chain: each operator applied to two
    neighbouring operands. *)
Fixpoint comparisons (prev : value) (os : list op) (cs : list value) : list value :=
  match os, cs with
  | o :: os', c :: cs' => Binary o prev c :: comparisons c os' cs'
  | _, _ => []
  end.

(** What an argument of [print] contributes to the format string, and the
    arguments that are displayed. *)
Definition format_piece (v : value) : string :=
  match v with
  | Str s => s
  | _ => "%d"
  end.

Definition display_values (vs : list value) : list value :=
  filter (fun v => is_Str v = false) vs.

(** An argument of [print] that is neither a format string applied with
    [%] nor a tuple. *)
Definition plain_print_arg (arg : ast.expr) : bool :=
  match arg with
  | ast.BinOp (ast.Str _) ast.Mod _ => false
  | ast.Tuple _ => false
  | _ => true
  end.

(** The state after a system task was emitted: the task attached to the
    current state, logged, and a state boundary after it. *)
Definition displayed (task : value) (st : CompileVisitor) : CompileVisitor :=
  state_boundary
    (upd_scope (addBind (current (fsm st)) None task None)
       (upd_fsm (FSM_add_statement [SingleStatement task] None) st)).

(** The state after [setFsmLoop]. *)
Definition looped (b e : nat) (i s : value) (st : CompileVisitor) : CompileVisitor :=
  {| fsm := fsm st; scope := scope st;
     loop_info := filter (fun x => x.1 ≠ (b, e)) (loop_info st) ++ [((b, e), (i, s))];
     _tmp_count := _tmp_count st |}.

(** A function definition as a statement of a module. *)
Definition def_stmt (fd : ast.funcdef) : ast.stmt :=
  ast.FunctionDef (ast.fd_name fd) (ast.fd_args fd) (ast.fd_defaults fd)
                  (ast.fd_body fd).

(** Registering functions one after the other. *)
Fixpoint add_functions {F} (fns : list (string * F)) (function_lib : list (string * F))
  : result (list (string * F)) :=
  match fns with
  | [] => Ok function_lib
  | (name, func) :: rest =>
      match add_function name func function_lib with
      | Ok lib => add_functions rest lib
      | Raise e => Raise e
      | OutOfFuel => OutOfFuel
      end
  end.

(** [sleep(4)] as a statement, and [x = 1 if x < 2 < 3 else 0]. *)
Definition sleep_call : ast.stmt := ast.Expr (ast.Call "sleep" [num 4] []).

(** [def f(): return 1], defined again after [def_f], with a function
    nested in it. *)
Definition def_f' : ast.funcdef :=
  ast.mk_funcdef "f" [] []
    [def_stmt (ast.mk_funcdef "inner" [] [] [ast.Pass]); ast.Return (Some (num 1))].

(** The end of [print]: the [display] task of the collected values and
    pieces is emitted. *)
Definition emit_display (argvalues : list value) (pieces : list string) : M value :=
  let right :=
    SystemTask "display"
      (Str (String.concat EmptyString (removelast pieces)) :: argvalues) in
  setBind PyNone right PyNone >>
  setFsm None None PyNone None >>
  incFsmCount >>
  ret right.

(** ** Binding the arguments of a call *)

(** What binding the value [val] to the parameter [name] does.  A value
    that is no numerical node is bound to the name in the scope, and
    nothing is emitted.  For a numerical value the variable the scope has
    under the name is taken, and declared as a register of the thread's
    data width when the scope has none; the assignment of the value to it
    is attached to the current state and logged. *)
Definition arg_bound (self : Config) (name : string) (val : value)
    (st st' : CompileVisitor) : Prop :=
  if is_numerical val then
    let st1 :=
      if is_None (searchVariable name true (scope st))
      then upd_scope (addVariable name (made_register self name st))
                     (made self name st)
      else st in
    match searchVariable name true (scope st1) with
    | Reg lname width initval =>
        st' = bound lname (Reg lname width initval) val st1
    | PyNone =>
        st' = upd_scope (addBind (current (fsm st1)) None val None)
                (upd_fsm (FSM_add_statement [SingleStatement val] None) st1)
    | _ => False
    end
  else st' = upd_scope (addVariable name val) st.

(** Binding values to names one after the other. *)
Fixpoint args_bound (self : Config) (l : list (string * value))
    (st st' : CompileVisitor) : Prop :=
  match l with
  | [] => st' = st
  | (name, val) :: l' =>
      ∃ s, arg_bound self name val st s ∧ args_bound self l' s st'
  end.

(** Binding defaults one after the other: a parameter the scope knows is
    left alone; for one it does not know the default is lowered by
    [visit] and bound. *)
Fixpoint defaults_bound (self : Config) (visit : ast.expr → M value)
    (l : list (string * ast.expr)) (st st' : CompileVisitor) : Prop :=
  match l with
  | [] => st' = st
  | (name, d) :: l' =>
      ∃ s,
        (if is_None (searchVariable name true (scope st))
         then ∃ right s1, visit d st = Ok (right, s1)
                          ∧ arg_bound self name right s1 s
         else s = st)
        ∧ defaults_bound self visit l' s st'
  end.

(** A visitor that knows [h], inside a call, after [if 1: return] was
    lowered there: the return is pending in the frame of the call. *)
Definition st_h : CompileVisitor := CompileVisitor_init [def_h].

Definition st_pending : CompileVisitor :=
  state_after (visit_stmt self0 3 (ast.If (num 1) [ast.Return None] []))
              (upd_scope (pushScopeFrame (Some "call")) st_h).

(** [def f(): tmp_1 = 5; return 7] *)
Definition def_clash : ast.funcdef :=
  ast.mk_funcdef "f" [] []
    [ast.Assign [store "tmp_1"] (num 5); ast.Return (Some (num 7))].

Definition st_clash : CompileVisitor := CompileVisitor_init [def_clash].

(** * Properties *)

(** ** The monad *)

Lemma bind_Ok {A B} (m : M A) (k : A → M B) st a st1 :
  m st = Ok (a, st1) → bind m k st = k a st1.
Proof. intros H. unfold bind. by rewrite H. Qed.

Lemma bind_Raise {A B} (m : M A) (k : A → M B) st e :
  m st = Raise e → bind m k st = Raise e.
Proof. intros H. unfold bind. by rewrite H. Qed.

Lemma bind_Ok_inv {A B} (m : M A) (k : A → M B) st b st' :
  bind m k st = Ok (b, st') →
  ∃ a st1, m st = Ok (a, st1) ∧ k a st1 = Ok (b, st').
Proof.
  unfold bind. destruct (m st) as [[a st1]| |]; [|done..].
  intros H. by exists a, st1.
Qed.

Lemma skip_eq st : skip st = Ok (skipping st, st).
Proof.
  unfold skip, skipping, bind, hasBreak, hasContinue, hasReturn, ask_scope, ret.
  destruct (scope_hasBreak (scope st)); [done|].
  by destruct (scope_hasContinue (scope st)).
Qed.

(** ** Running the visitor step by step *)

Lemma add_jumps_nil st : add_jumps [] st = st.
Proof.
  destruct st as [[m c j b] sc li tc]. unfold add_jumps, with_fsm. cbn.
  by rewrite app_nil_r.
Qed.

Lemma add_jumps_app ts1 ts2 st :
  add_jumps ts2 (add_jumps ts1 st) = add_jumps (ts1 ++ ts2) st.
Proof. unfold add_jumps, with_fsm. cbn. by rewrite app_assoc. Qed.

(** Patching a list of states to one destination. *)
Lemma forM_patch (l : list nat) dst st :
  forM l (fun b => setFsm (Some b) (Some dst) PyNone None) st
  = Ok (tt, add_jumps (map (fun b => goto b dst) l) st).
Proof.
  revert st. induction l as [|b l IH]; intros st.
  - cbn. by rewrite add_jumps_nil.
  - cbn [forM map]. unfold bind at 1.
    replace (setFsm (Some b) (Some dst) PyNone None st)
      with (Ok (tt, add_jumps [goto b dst] st)) by done.
    rewrite IH. by rewrite add_jumps_app.
Qed.

Lemma forM_patch_with {A} (src : A → nat) (l : list A) dst st :
  forM l (fun x => setFsm (Some (src x)) (Some dst) PyNone None) st
  = Ok (tt, add_jumps (map (fun x => goto (src x) dst) l) st).
Proof.
  revert st. induction l as [|b l IH]; intros st.
  - cbn. by rewrite add_jumps_nil.
  - cbn [forM map]. unfold bind at 1.
    replace (setFsm (Some (src b)) (Some dst) PyNone None st)
      with (Ok (tt, add_jumps [goto (src b) dst] st)) by done.
    rewrite IH. by rewrite add_jumps_app.
Qed.

(** The steps of the visitor as state transformers. *)
Lemma on_fsm_eq f st : on_fsm f st = Ok (tt, upd_fsm f st).
Proof. done. Qed.

Lemma on_scope_eq f st : on_scope f st = Ok (tt, upd_scope f st).
Proof. done. Qed.

Lemma ask_scope_eq {A} (f : ScopeFrameList → A) st :
  ask_scope f st = Ok (f (scope st), st).
Proof. done. Qed.

Lemma getFsmCount_eq st : getFsmCount st = Ok (current (fsm st), st).
Proof. done. Qed.

Lemma setFsm_eq src dst cond else_dst st :
  setFsm (Some src) (Some dst) cond else_dst st
  = Ok (tt, upd_fsm (FSM_goto_from src dst (guard cond) else_dst) st).
Proof. done. Qed.

Lemma setFsm_next_eq st :
  setFsm None None PyNone None st
  = Ok (tt, upd_fsm (FSM_goto_from (current (fsm st)) (S (current (fsm st)))
                                   None None) st).
Proof. done. Qed.

Lemma setBind_Reg_eq name width initval val st :
  setBind (Reg name width initval) val PyNone st
  = Ok (tt, bound name (Reg name width initval) val st).
Proof. done. Qed.

Lemma setFsmLoop_eq b e i s st :
  ∃ st', setFsmLoop b e i s st = Ok (tt, st') ∧ fsm st' = fsm st ∧ scope st' = scope st.
Proof. by eexists. Qed.

(** Runs the next step of a computation: the lowering of a body known by
    [Hbody], the patching of a list of states, or a step of the visitor. *)
Ltac run_step Hbody :=
  erewrite bind_Ok by
    first [ exact Hbody | apply forM_patch | apply (forM_patch_with fst)
          | apply on_fsm_eq | apply on_scope_eq
          | apply ask_scope_eq | apply getFsmCount_eq | apply setFsm_eq
          | apply setFsm_next_eq | apply setBind_Reg_eq ].

Section Properties.

Variable self : Config.

(** ** For loops over something else than [range] *)

(** C9.  A for-statement whose iterable is not a call to the name [range]
    is accepted and lowers to nothing: the visit succeeds and leaves the
    whole compiler state (FSM states, transitions, bindings, scope) as it
    was, whatever the body is, so the body is not visited. *)
Theorem visit_For_other_iterable n target iter body st :
  is_range_call iter = false →
  visit_stmt self (S n) (ast.For target iter body) st = Ok (tt, st).
Proof.
  intros Hiter. cbn [visit_stmt]. unfold visit_For.
  rewrite (bind_Ok _ _ _ _ _ (skip_eq st)).
  destruct (skipping st); [done|].
  destruct iter; try done.
  cbn in Hiter. by rewrite Hiter.
Qed.

(** ** The builtin [int] *)

(** C10.  A call of [int] that is not skipped: without arguments it ends
    in the [IndexError] of indexing the empty argument list, with two or
    more arguments in the explicit [TypeError], and with one argument it
    is the lowering of that argument, unchanged. *)
Theorem call_int_arguments n keywords st :
  skipping st = false →
  visit self (S (S n)) (ast.Call "int" [] keywords) st
    = Raise (IndexError "index out of range")
  ∧ (∀ a, visit self (S (S n)) (ast.Call "int" [a] keywords) st
          = visit self (S n) a st)
  ∧ (∀ a b rest, visit self (S (S n)) (ast.Call "int" (a :: b :: rest) keywords) st
                 = Raise (TypeError "Too much arguments for 'int()'")).
Proof.
  intros Hskip.
  assert (Hcall : ∀ args,
    visit self (S (S n)) (ast.Call "int" args keywords) st
    = _call_Name_int (visit self (S n)) args st).
  { intros args. cbn [visit]. unfold visit_Call.
    rewrite (bind_Ok _ _ _ _ _ (skip_eq st)), Hskip. done. }
  split; [|split].
  - by rewrite Hcall.
  - intros a. rewrite Hcall. unfold _call_Name_int. cbn [length Nat.ltb Nat.leb mapM].
    unfold bind, ret, first.
    by destruct (visit self (S n) a st) as [[v st1]| |].
  - intros a b rest. by rewrite Hcall.
Qed.

(** ** String operands of a binary operation *)

(** C6 (amended).  When the operands of a binary operation are lowered and
    one of them is a string literal: under [+] the result is the string
    literal of the two payloads concatenated if both operands are string
    literals, and a [TypeError] if only one is; under any other operator
    it is a [TypeError]. *)
Theorem visit_BinOp_strings n l o r st left st1 right st2 :
  visit self n l st = Ok (left, st1) →
  visit self n r st1 = Ok (right, st2) →
  is_Str left || is_Str right = true →
  visit self (S n) (ast.BinOp l o r) st =
    match o, left, right with
    | ast.Add, Str a, Str b => Ok (Str (a +:+ b), st2)
    | ast.Add, _, _ =>
        Raise (TypeError "'+' operation requires two string arguments")
    | ast.MatMult, _, _ => Raise (TypeError "Unsupported BinOp")
    | _, _, _ => Raise (TypeError "Can not generate a corresponding node")
    end.
Proof.
  intros Hl Hr Hstr. cbn [visit]. unfold visit_BinOp.
  rewrite (bind_Ok _ _ _ _ _ Hl), (bind_Ok _ _ _ _ _ Hr).
  unfold BinOp_result. rewrite Hstr.
  destruct o; cbn; try done.
  by destruct left, right.
Qed.

(** ** Tuple assignment *)

Lemma _assign_tuple rs raw_left left :
  _assign (PyTuple rs) raw_left left =
    let raw_dsts := raw_as_tuple raw_left in
    let dsts := as_tuple left in
    if (length dsts =? 1)%nat then
      let! raw := first raw_dsts in
      let! dst := first dsts in
      setAssignBind raw dst (PyTuple rs)
    else if (length dsts <? length rs)%nat then
      raise (ValueError ("too many values to unpack (expected "
                         +:+ pretty (length rs) +:+ ")"))
    else if (length rs <? length dsts)%nat then
      raise (ValueError ("not enough values to unpack (expected "
                         +:+ pretty (length dsts) +:+ ", got "
                         +:+ pretty (length rs) +:+ ")"))
    else assign_each rs raw_dsts dsts.
Proof.
  cbn [_assign]. cbv zeta.
  by repeat case_match.
Qed.

(** C7.  [_assign] with a tuple target of [n > 1] elements: against a
    tuple of [m] values it raises the too-many-values error when [n < m],
    the not-enough-values error when [n > m], and assigns element by
    element, in order, when [n = m]; against a value that is no tuple it
    raises an error.  With a single target no arity is checked, the
    right-hand side being a tuple or not: the assignment is the binding of
    that target, which succeeds on a register named by the target. *)
Theorem _assign_arity raws ds st :
  (1 < length ds)%nat →
  length raws = length ds →
  (∀ rs, (length ds < length rs)%nat →
     _assign (PyTuple rs) (RawList raws) (PyTuple ds) st
     = Raise (ValueError ("too many values to unpack (expected "
                          +:+ pretty (length rs) +:+ ")")))
  ∧ (∀ rs, (length rs < length ds)%nat →
     _assign (PyTuple rs) (RawList raws) (PyTuple ds) st
     = Raise (ValueError ("not enough values to unpack (expected "
                          +:+ pretty (length ds) +:+ ", got "
                          +:+ pretty (length rs) +:+ ")")))
  ∧ (∀ rs, length rs = length ds →
     _assign (PyTuple rs) (RawList raws) (PyTuple ds) st
     = assign_each rs raws ds st)
  ∧ (∀ right, is_tuple right = false →
     ∃ e, _assign right (RawList raws) (PyTuple ds) st = Raise e)
  ∧ (∀ right raw left st1,
       is_tuple left = false →
       (∀ l, raw ≠ RawList l) →
       _assign right raw left st1 = setAssignBind raw left right st1)
  ∧ (∀ right id name width initval st1,
       ∃ st2, _assign right (RawName id) (Reg name width initval) st1
              = Ok (tt, st2)).
Proof.
  intros Hn Hraws.
  assert (Hne : (length ds =? 1)%nat = false) by (apply Nat.eqb_neq; lia).
  assert (Hsingle : ∀ right raw left st1,
    is_tuple left = false → (∀ l, raw ≠ RawList l) →
    _assign right raw left st1 = setAssignBind raw left right st1).
  { intros right raw left st1 Hleft Hraw.
    assert (Hr : raw_as_tuple raw = [raw]) by (destruct raw; naive_solver).
    assert (Hd : as_tuple left = [left]) by (by destruct left).
    destruct right; cbn [_assign]; by rewrite Hr, Hd. }
  repeat split.
  - intros rs Hlt. rewrite _assign_tuple. cbn [as_tuple raw_as_tuple]. cbv zeta.
    rewrite Hne. by rewrite (proj2 (Nat.ltb_lt _ _) Hlt).
  - intros rs Hlt. rewrite _assign_tuple. cbn [as_tuple raw_as_tuple]. cbv zeta.
    rewrite Hne.
    rewrite (proj2 (Nat.ltb_ge _ _)) by lia.
    by rewrite (proj2 (Nat.ltb_lt _ _) Hlt).
  - intros rs Heq. rewrite _assign_tuple. cbn [as_tuple raw_as_tuple]. cbv zeta.
    rewrite Hne.
    rewrite (proj2 (Nat.ltb_ge _ _)) by lia.
    by rewrite (proj2 (Nat.ltb_ge _ _)) by lia.
  - intros right Hright.
    exists (TypeError "object has no len()").
    destruct right; try done;
      cbn [_assign as_tuple raw_as_tuple];
      by rewrite (proj2 (Nat.ltb_lt _ _) Hn).
  - done.
  - intros right id name width initval st1.
    rewrite Hsingle by done.
    unfold setAssignBind. destruct (is_numerical right); cbn; eauto.
Qed.

(** ** The counter of [sleep] *)

(** C8 (amended).  [sleep] allocates a counter register of width
    [bit_length(cycles) + 1] with initial value 0, attaches the increment
    of that counter to the current state, and emits a transition to the
    next state guarded by the counter equalling [cycles].  For a positive
    cycle count the width is [floor(log2(cycles)) + 2]; it is the
    [ceil(log2(cycles)) + 1] of the specification exactly when the count is
    not a power of two. *)
Theorem sleep_lowering cycles f :
  let width := (bit_length cycles + 1)%Z in
  let count := Reg ("_tmp_" +:+ pretty (m_tmp (fsm_m f))) width 0 in
  m_regs (fsm_m (sleep cycles f)) = m_regs (fsm_m f) ++ [count]
  ∧ bodies (sleep cycles f)
    = bodies f ++ [(current f, [Subst count (Binary Plus count (Int 1))], None)]
  ∧ jumps (sleep cycles f)
    = jumps f ++ [mk_transition (current f) (S (current f))
                                (Some (Binary Eq count (Int cycles))) None]
  ∧ current (sleep cycles f) = S (current f)
  ∧ ((0 < cycles)%Z →
     width = (Z.log2 cycles + 2)%Z
     ∧ (2 ^ (width - 2) ≤ cycles < 2 ^ (width - 1))%Z
     ∧ (width = claimed_sleep_width cycles ↔ ∀ k, cycles ≠ (2 ^ k)%Z)).
Proof.
  intros width count. repeat split; try done.
  - unfold width, bit_length.
    rewrite (proj2 (Z.eqb_neq _ _)) by lia. rewrite Z.abs_eq by lia. lia.
  - unfold width, bit_length.
    rewrite (proj2 (Z.eqb_neq _ _)) by lia. rewrite Z.abs_eq by lia.
    replace (Z.log2 cycles + 1 + 1 - 2)%Z with (Z.log2 cycles) by lia.
    by apply Z.log2_spec.
  - unfold width, bit_length.
    rewrite (proj2 (Z.eqb_neq _ _)) by lia. rewrite Z.abs_eq by lia.
    replace (Z.log2 cycles + 1 + 1 - 1)%Z with (Z.succ (Z.log2 cycles)) by lia.
    by apply Z.log2_spec.
  - unfold width, bit_length, claimed_sleep_width.
    rewrite (proj2 (Z.eqb_neq _ _)) by lia. rewrite Z.abs_eq by lia.
    intros Heq k ->.
    assert (Hex : Z.log2 (2 ^ k) = Z.log2_up (2 ^ k))
      by (apply Z.log2_log2_up_exact; eauto).
    lia.
  - unfold width, bit_length, claimed_sleep_width.
    rewrite (proj2 (Z.eqb_neq _ _)) by lia. rewrite Z.abs_eq by lia.
    intros Hpow.
    pose proof (Z.le_log2_log2_up cycles) as Hle.
    pose proof (Z.le_log2_up_succ_log2 cycles) as Hge.
    destruct (decide (Z.log2 cycles = Z.log2_up cycles)) as [Heq|Hne]; [|lia].
    apply Z.log2_log2_up_exact in Heq as [k Hk]; [|done].
    by destruct (Hpow k).
Qed.

(** ** Loops *)

(** Once a loop has cleared its patches none is left in the current frame. *)
Lemma loop_patches_cleared s :
  let s' := scope_clearContinue (scope_clearBreak s) in
  scope_getUnresolvedBreak s' = []
  ∧ scope_getUnresolvedContinue s' = []
  ∧ scope_hasBreak s' = false
  ∧ scope_hasContinue s' = false.
Proof. destruct s as [[|fr rest] fns bs]; by cbn. Qed.

(** C2 (amended).  A while-statement that is not skipped, whose condition
    lowers to [test] and whose body lowers: with [begin] the state current
    once the condition has been lowered (the state at entry when lowering
    the condition consumes no state), [body_begin = begin + 1], [body_end]
    the state after lowering the body and [exit = body_end + 1], the
    lowering succeeds and emits, after the transitions of the condition and
    of the body, exactly [goto_from(begin, body_begin, test, exit)],
    [goto_from(body_end, begin)], one transition to [exit] for every
    unresolved break and one to [begin] for every unresolved continue; it
    ends at [exit] with both patch lists cleared. *)
Theorem visit_While_lowering n cond body st test st1 st2 :
  skipping st = false →
  visit self n cond st = Ok (test, st1) →
  forM body (visit_stmt self n) (enter_while st1) = Ok (tt, st2) →
  let begin := current (fsm st1) in
  let body_begin := S begin in
  let body_end := current (fsm st2) in
  let exit := S body_end in
  let breaks := scope_getUnresolvedBreak (popScopeFrame (scope st2)) in
  let continues := scope_getUnresolvedContinue (popScopeFrame (scope st2)) in
  ∃ st',
    visit_stmt self (S n) (ast.While cond body) st = Ok (tt, st')
    ∧ jumps (fsm st')
      = jumps (fsm st2)
        ++ [mk_transition begin body_begin (guard test) (Some exit);
            goto body_end begin]
        ++ map (fun b => goto b exit) breaks
        ++ map (fun c => goto c begin) continues
    ∧ bodies (fsm st') = bodies (fsm st2)
    ∧ current (fsm st') = exit
    ∧ scope_getUnresolvedBreak (scope st') = []
    ∧ scope_getUnresolvedContinue (scope st') = []
    ∧ scope_hasBreak (scope st') = false
    ∧ scope_hasContinue (scope st') = false.
Proof.
  intros Hskip Hcond Hbody begin body_begin body_end exit breaks continues.
  cbn [visit_stmt]. unfold visit_While.
  rewrite (bind_Ok _ _ _ _ _ (skip_eq st)), Hskip.
  rewrite (bind_Ok _ _ _ _ _ Hcond).
  repeat run_step Hbody.
  match goal with |- context [setFsmLoop ?b ?e ?i ?s ?st] =>
    destruct (setFsmLoop_eq b e i s st) as (st' & -> & Hfsm & Hscope) end.
  exists st'. split; [done|]. rewrite Hfsm, Hscope.
  destruct (loop_patches_cleared (popScopeFrame (scope st2))) as (?&?&?&?).
  repeat split; try done.
  cbn. by rewrite <- !app_assoc.
Qed.

(** The defaults of [range]: with one argument the begin value is
    [Int(0)], with fewer than three the step is [Int(1)]. *)
Lemma range_nodes_defaults (v : ast.expr → M value) args st b e s st1 :
  range_nodes v args st = Ok ((b, e, s), st1) →
  (length args = 1 → b = Int 0 ∧ s = Int 1 ∧ ∃ a0, args = [a0] ∧ v a0 st = Ok (e, st1))
  ∧ (length args = 2 → s = Int 1)
  ∧ args ≠ [].
Proof.
  intros H. destruct args as [|a0 [|a1 [|a2 rest]]]; cbn in H; try done.
  - apply bind_Ok_inv in H as (e' & st' & Hv & H). injection H as -> -> -> ->.
    repeat split; try done. eauto.
  - apply bind_Ok_inv in H as (b' & st' & Hb & H).
    apply bind_Ok_inv in H as (e' & st'' & He & H). injection H as -> -> -> ->.
    by repeat split.
Qed.

(** C1 (amended).  A for-statement over [range] with at least one
    argument that is not skipped, whose header (the arguments of [range],
    then the target) lowers and whose target is a register [iter]: the
    begin value is [Int(0)] under one argument and the step [Int(1)] under
    fewer than three; with [init] the state current once the header has
    been lowered (the state at entry when the header consumes no state),
    [check = init + 1], [body_begin = check + 1], [body_end] the state
    after the body and [exit = body_end + 1], the register is initialised
    to the begin value at [init], the update [iter = iter + step] is bound
    at [body_end], and after the transitions of the body come the back
    edge [goto_from(body_end, check)], the branch
    [goto_from(check, body_begin, iter < end, exit)], a transition to
    [exit] for every unresolved break and one to [body_end] for every
    unresolved continue; both patch lists end cleared. *)
Theorem visit_For_lowering n target args keywords body st
    begin_node end_node step_node sta name width initval st1 st2 :
  let iter := Reg name width initval in
  skipping st = false →
  range_nodes (visit self n) args st = Ok ((begin_node, end_node, step_node), sta) →
  visit self n target sta = Ok (iter, st1) →
  forM body (visit_stmt self n) (enter_for name iter begin_node st1)
    = Ok (tt, st2) →
  let init := current (fsm st1) in
  let check := S init in
  let body_begin := S check in
  let body_end := current (fsm st2) in
  let exit := S body_end in
  let breaks := scope_getUnresolvedBreak (popScopeFrame (scope st2)) in
  let continues := scope_getUnresolvedContinue (popScopeFrame (scope st2)) in
  ∃ st',
    visit_stmt self (S n) (ast.For target (ast.Call "range" args keywords) body) st
      = Ok (tt, st')
    ∧ (length args = 1 → begin_node = Int 0)
    ∧ (length args < 3 → step_node = Int 1)
    ∧ bodies (fsm (enter_for name iter begin_node st1))
      = bodies (fsm st1) ++ [(init, [Subst iter begin_node], None)]
    ∧ jumps (fsm (enter_for name iter begin_node st1))
      = jumps (fsm st1) ++ [goto init check]
    ∧ current (fsm (enter_for name iter begin_node st1)) = body_begin
    ∧ bodies (fsm st')
      = bodies (fsm st2)
        ++ [(body_end, [Subst iter (Binary Plus iter step_node)], None)]
    ∧ jumps (fsm st')
      = jumps (fsm st2)
        ++ [goto body_end check;
            mk_transition check body_begin
              (Some (Binary LessThan iter end_node)) (Some exit)]
        ++ map (fun b => goto b exit) breaks
        ++ map (fun c => goto c body_end) continues
    ∧ current (fsm st') = exit
    ∧ scope_getUnresolvedBreak (scope st') = []
    ∧ scope_getUnresolvedContinue (scope st') = []
    ∧ scope_hasBreak (scope st') = false
    ∧ scope_hasContinue (scope st') = false.
Proof.
  intros iter Hskip Hnodes Htarget Hbody
         init check body_begin body_end exit breaks continues.
  destruct (range_nodes_defaults _ _ _ _ _ _ _ Hnodes) as (H1 & H2 & Hargs).
  cbn [visit_stmt]. unfold visit_For.
  rewrite (bind_Ok _ _ _ _ _ (skip_eq st)), Hskip.
  change (String.eqb "range" "range") with true. cbv iota.
  rewrite (bind_Ok _ _ _ _ _ Hnodes). cbv beta iota.
  rewrite (bind_Ok _ _ _ _ _ Htarget).
  repeat run_step Hbody.
  match goal with |- context [setFsmLoop ?b ?e ?i ?s ?st] =>
    destruct (setFsmLoop_eq b e i s st) as (st' & -> & Hfsm & Hscope) end.
  exists st'. split; [done|]. rewrite Hfsm, Hscope.
  destruct (loop_patches_cleared
              (addBind (current (fsm st2)) (Some name)
                 (Binary Plus iter step_node) None (popScopeFrame (scope st2))))
    as (?&?&?&?).
  repeat split; try done.
  - intros Hlen. by destruct (H1 Hlen) as (-> & _).
  - intros Hlen. destruct args as [|a0 [|a1 [|a2 rest]]]; cbn in Hlen; try lia.
    + done.
    + by destruct H1 as (_ & -> & _).
    + by apply H2.
  - cbn. by rewrite <- !app_assoc.
Qed.

End Properties.

(** ** Frame discipline

    Every visit leaves the frame list balanced.  An expression leaves the
    frames as they look from outside; a statement relates them by
    [stmt_rel]. *)

Lemma pres_ret R {A} (a : A) : (∀ l, R l l) → pres R (ret a).
Proof. intros HR st a' st' [= <- <-]. apply HR. Qed.

Lemma pres_raise R {A} e : pres R (@raise A e).
Proof. by intros st a st'. Qed.

Lemma pres_bind R1 R2 R3 {A B} (m : M A) (k : A → M B) :
  (∀ l l' l'', R1 l l' → R2 l' l'' → R3 l l'') →
  pres R1 m → (∀ a, pres R2 (k a)) → pres R3 (bind m k).
Proof.
  intros Hcomp Hm Hk st b st' H.
  apply bind_Ok_inv in H as (a & st1 & H1 & H2).
  eapply Hcomp; [by eapply Hm | by eapply Hk].
Qed.

Lemma pres_weaken (R1 R2 : list view → list view → Prop) {A} (m : M A) :
  (∀ l l', R1 l l' → R2 l l') → pres R1 m → pres R2 m.
Proof. intros HR Hm st a st' H. apply HR. by eapply Hm. Qed.

Lemma keeps_ret {A} (a : A) : keeps (ret a).
Proof. by apply pres_ret. Qed.

Lemma keeps_raise {A} e : keeps (@raise A e).
Proof. apply pres_raise. Qed.

Lemma keeps_bind {A B} (m : M A) (k : A → M B) :
  keeps m → (∀ a, keeps (k a)) → keeps (bind m k).
Proof. apply pres_bind. by intros l l' l'' -> ->. Qed.

(** A step that keeps the frames, before or after one that relates them. *)
Lemma pres_bind_l R {A B} (m : M A) (k : A → M B) :
  keeps m → (∀ a, pres R (k a)) → pres R (bind m k).
Proof. apply pres_bind. by intros l l' l'' ->. Qed.

Lemma pres_bind_r R {A B} (m : M A) (k : A → M B) :
  pres R m → (∀ a, keeps (k a)) → pres R (bind m k).
Proof. apply pres_bind. by intros l l' l'' ? ->. Qed.

Lemma keeps_mapM {A B} (f : A → M B) (l : list A) :
  (∀ a, keeps (f a)) → keeps (mapM f l).
Proof.
  intros Hf. induction l as [|a l IH]; cbn [mapM].
  - apply keeps_ret.
  - apply keeps_bind; [done|]. intros b.
    apply keeps_bind; [done|]. intros bs. apply keeps_ret.
Qed.

Lemma keeps_forM {A} (l : list A) (f : A → M unit) :
  (∀ a, keeps (f a)) → keeps (forM l f).
Proof.
  intros Hf. induction l as [|a l IH]; cbn [forM].
  - apply keeps_ret.
  - by apply keeps_bind.
Qed.

Lemma keeps_on_fsm f : keeps (on_fsm f).
Proof. by intros st a st' [= <- <-]. Qed.

Lemma keeps_getFsmCount : keeps getFsmCount.
Proof. by intros st a st' [= <- <-]. Qed.

Lemma keeps_ask_scope {A} (f : ScopeFrameList → A) : keeps (ask_scope f).
Proof. by intros st a st' [= <- <-]. Qed.

Lemma keeps__tmp_name prefix : keeps (_tmp_name prefix).
Proof. by intros st a st' [= <- <-]. Qed.

Lemma keeps_setFsm src dst cond else_dst : keeps (setFsm src dst cond else_dst).
Proof. by intros st a st' [= <- <-]. Qed.

Lemma keeps_setFsmLoop b e i s : keeps (setFsmLoop b e i s).
Proof. by intros st a st' [= <- <-]. Qed.

Lemma keeps_first {A} (l : list A) : keeps (first l).
Proof. destruct l; [apply keeps_raise | apply keeps_ret]. Qed.

Lemma keeps_skip : keeps skip.
Proof. intros st a st' H. rewrite skip_eq in H. by injection H as <- <-. Qed.

(** The scope operations that only touch bindings, declarations, the
    function table or the bind log. *)
Lemma view_of_bind_in name v fr : view_of (bind_in name v fr) = view_of fr.
Proof. done. Qed.

Lemma views_bind_outermost name v fs :
  map view_of (bind_outermost name v fs) = map view_of fs.
Proof.
  induction fs as [|fr [|fr' fs] IH]; [done..|].
  cbn [bind_outermost map] in *. by rewrite IH.
Qed.

Lemma views_bind_declared name v fs fs' :
  bind_declared name v fs = Some fs' → map view_of fs' = map view_of fs.
Proof.
  revert fs'. induction fs as [|fr fs IH]; intros fs' H; [done|].
  cbn [bind_declared] in H.
  destruct (decide (name ∈ globals fr)).
  { injection H as <-. cbn [map]. by rewrite views_bind_outermost. }
  destruct (decide (name ∈ nonlocals fr)).
  { injection H as <-. by destruct fs. }
  destruct (bind_declared name v fs) as [fs2|] eqn:Hfs; [|done].
  injection H as <-. cbn [map]. by rewrite (IH fs2).
Qed.

Lemma views_addVariable name v s :
  map view_of (frames (addVariable name v s)) = map view_of (frames s).
Proof.
  unfold addVariable.
  destruct (bind_declared name v (frames s)) as [fs|] eqn:Hfs.
  - by apply views_bind_declared in Hfs.
  - unfold on_current. destruct (frames s) eqn:E; [by rewrite E|done].
Qed.

Lemma keeps_addVariable name v : keeps (on_scope (addVariable name v)).
Proof. intros st a st' [= <- <-]. apply views_addVariable. Qed.

Lemma keeps_addBind state dst v cond : keeps (on_scope (addBind state dst v cond)).
Proof. by intros st a st' [= <- <-]. Qed.

Lemma keeps_addFunction fd : keeps (on_scope (addFunction fd)).
Proof. by intros st a st' [= <- <-]. Qed.

Lemma keeps_addNonlocal name : keeps (on_scope (addNonlocal name)).
Proof.
  intros st a st' [= <- <-]. unfold views, addNonlocal, on_current. cbn.
  destruct (frames (scope st)) eqn:E; [by rewrite E|done].
Qed.

Lemma keeps_addGlobal name : keeps (on_scope (addGlobal name)).
Proof.
  intros st a st' [= <- <-]. unfold views, addGlobal, on_current. cbn.
  destruct (frames (scope st)) eqn:E; [by rewrite E|done].
Qed.

(** *** The relations on frame lists *)

Lemma retvars_rel_of_shape l l' : map v_shape l' = map v_shape l → retvars_rel l l'.
Proof.
  revert l'. induction l as [|v r IH]; intros [|v' r'] H; try done.
  cbn [map] in H. injection H as Hf Hx Hr. cbn [retvars_rel].
  split; [done|].
  destruct (v_is_call v); [by rewrite Hx|]. split; [done|]. by apply IH.
Qed.

Lemma retvars_rel_refl l : retvars_rel l l.
Proof. by apply retvars_rel_of_shape. Qed.

Lemma retvars_rel_ftype l l' : retvars_rel l l' → map v_ftype l' = map v_ftype l.
Proof.
  revert l'. induction l as [|v r IH]; intros [|v' r'] H; try done.
  cbn [retvars_rel] in H. destruct H as [Hf H]. cbn [map]. rewrite Hf. f_equal.
  destruct (v_is_call v).
  - destruct H as [_ H].
    apply (f_equal (map fst)) in H. by rewrite !map_map in H.
  - apply IH, H.
Qed.

Lemma v_is_call_ftype v v' : v_ftype v' = v_ftype v → v_is_call v' = v_is_call v.
Proof. unfold v_is_call. by intros ->. Qed.

Lemma retvars_rel_trans l l' l'' :
  retvars_rel l l' → retvars_rel l' l'' → retvars_rel l l''.
Proof.
  revert l' l''. induction l as [|v r IH]; intros [|v' r'] [|v'' r''] H1 H2;
    try done.
  cbn [retvars_rel] in *. destruct H1 as [Hf1 H1], H2 as [Hf2 H2].
  split; [congruence|].
  rewrite (v_is_call_ftype _ _ Hf1) in H2.
  destruct (v_is_call v).
  - destruct H1 as [Hx1 Hr1], H2 as [Hx2 Hr2]. split; [|congruence].
    intros Hx. rewrite <- (Hx1 Hx). apply Hx2. by rewrite (Hx1 Hx).
  - destruct H1 as [Hx1 Hr1], H2 as [Hx2 Hr2]. split; [congruence|].
    by eapply IH.
Qed.

Lemma stmt_rel_refl jump retv l : stmt_rel jump retv l l.
Proof.
  repeat split; try done. destruct retv; [apply retvars_rel_refl|done].
Qed.

Lemma stmt_rel_mono jump retv jump' retv' l l' :
  (jump = true → jump' = true) → (retv = true → retv' = true) →
  stmt_rel jump retv l l' → stmt_rel jump' retv' l l'.
Proof.
  intros Hj Hr (Ht & Ho & Hx). repeat split; [done|..].
  - intros ->. apply Ho. by destruct jump; [discriminate Hj|].
  - destruct retv, retv'; try done; [by discriminate Hr|].
    by apply retvars_rel_of_shape.
Qed.

Lemma stmt_rel_comp j1 r1 j2 r2 l l' l'' :
  stmt_rel j1 r1 l l' → stmt_rel j2 r2 l' l'' →
  stmt_rel (j1 || j2) (r1 || r2) l l''.
Proof.
  intros (Ht1 & Ho1 & Hx1) (Ht2 & Ho2 & Hx2). repeat split.
  - congruence.
  - intros [-> ->]%orb_false_iff. rewrite Ho2, Ho1; done.
  - destruct r1, r2; cbn [orb].
    + by eapply retvars_rel_trans.
    + eapply retvars_rel_trans; [done|]. by apply retvars_rel_of_shape.
    + eapply retvars_rel_trans; [|done]. by apply retvars_rel_of_shape.
    + congruence.
Qed.

Lemma stmt_rel_trans jump retv l l' l'' :
  stmt_rel jump retv l l' → stmt_rel jump retv l' l'' → stmt_rel jump retv l l''.
Proof.
  intros H1 H2. pose proof (stmt_rel_comp _ _ _ _ _ _ _ H1 H2) as H.
  by rewrite !orb_diag in H.
Qed.

Lemma cons_eq_inv {A} (a b : A) l k : a :: l = b :: k → a = b ∧ l = k.
Proof. by intros [= -> ->]. Qed.

Lemma view_eq v v' : v_patches v' = v_patches v → v_shape v' = v_shape v → v' = v.
Proof. destruct v, v'. unfold v_patches, v_shape. cbn. congruence. Qed.

Lemma views_eq l l' :
  map v_patches l' = map v_patches l → map v_shape l' = map v_shape l → l' = l.
Proof.
  revert l'. induction l as [|v r IH]; intros [|v' r'] Hp Hs; try done.
  cbn [map] in *.
  apply cons_eq_inv in Hp as [Hp Hpr]. apply cons_eq_inv in Hs as [Hs Hsr].
  f_equal; [by apply view_eq | by apply IH].
Qed.

Lemma papp_nil_r p : papp p no_patches = p.
Proof. destruct p as [[b c] r]. unfold papp. cbn. by rewrite !app_nil_r. Qed.

(** A block: a frame of a kind other than a call is pushed, statements are
    visited, the frame is popped. *)
Lemma block_bracket ft retv l l3 :
  v_is_call (new_view ft) = false →
  stmt_rel true retv (new_view ft :: l) l3 →
  stmt_rel false retv l (pop_views l3).
Proof.
  intros Hft (Ht & _ & Hx).
  assert (Hshape : ∃ t3 l3', l3 = t3 :: l3' ∧ map v_patches l3' = map v_patches l
            ∧ (if retv then retvars_rel l l3' else map v_shape l3' = map v_shape l)).
  { destruct l3 as [|t3 l3'].
    - destruct retv; [done|discriminate Hx].
    - exists t3, l3'. repeat split; [done|].
      destruct retv.
      + cbn [retvars_rel] in Hx. rewrite Hft in Hx. apply Hx.
      + cbn [map] in Hx. by apply cons_eq_inv in Hx as [_ Hx]. }
  destruct Hshape as (t3 & l3' & -> & Hp & Hs).
  destruct l as [|b0 rest0], l3' as [|b rest]; try done.
  cbn [pop_views map] in *. apply cons_eq_inv in Hp as [Hpb Hpr].
  repeat split; [done| |].
  - intros _. cbn. f_equal. by apply (f_equal fst) in Hpb.
  - destruct retv; [by cbn [retvars_rel] in *|].
    cbn [map] in *. apply cons_eq_inv in Hs as [Hsb Hsr].
    f_equal; [|done]. by rewrite <- Hsb.
Qed.

(** An inlined call: a call frame is pushed, statements are visited, the
    patches and the return variable of the frame are cleared, the frame is
    popped. *)
Lemma call_bracket retv l l3 :
  stmt_rel true retv (new_view (Some "call") :: l) l3 →
  pop_views (on_call_view (set_retvar PyNone)
               (on_head (set_view_patches no_patches no_patches) l3)) = l.
Proof.
  intros (Ht & _ & Hx).
  assert (Hshape : ∃ t3 l3', l3 = t3 :: l3' ∧ v_ftype t3 = Some "call"
            ∧ map v_shape l3' = map v_shape l).
  { destruct l3 as [|t3 l3'].
    - destruct retv; [done|discriminate Hx].
    - exists t3, l3'. split; [done|]. destruct retv.
      + cbn [retvars_rel] in Hx. destruct Hx as [Hf Hx]. split; [done|].
        change (v_is_call (new_view (Some "call"))) with true in Hx. apply Hx.
      + cbn [map] in Hx. apply cons_eq_inv in Hx as [Hx Hr].
        split; [|done]. by apply (f_equal fst) in Hx. }
  destruct Hshape as (t3 & l3' & -> & Hf & Hs).
  cbn [tail] in Ht. pose proof (views_eq _ _ Ht Hs) as ->.
  cbn [on_head on_call_view].
  replace (v_is_call (set_view_patches no_patches no_patches t3)) with true
    by (unfold v_is_call; cbn; by rewrite Hf).
  destruct l as [|[bf bo bi bx] rest]; [done|].
  cbn. unfold absorb. cbn. by rewrite !papp_nil_r.
Qed.

Create HintDb keeps discriminated.
#[local] Hint Resolve keeps_ret keeps_raise keeps_on_fsm keeps_getFsmCount
  keeps_ask_scope keeps__tmp_name keeps_setFsm keeps_setFsmLoop keeps_first
  keeps_skip keeps_addVariable keeps_addBind keeps_addFunction
  keeps_addNonlocal keeps_addGlobal : keeps.

(** Splits a computation along its binds and its case distinctions and
    closes the steps that are known to keep the frames. *)
Ltac keeps_steps :=
  repeat first
    [ progress (intros)
    | solve [eauto with keeps]
    | apply keeps_bind
    | apply keeps_mapM
    | apply keeps_forM
    | match goal with
      | |- keeps (match ?x with _ => _ end) => destruct x
      | |- keeps (if ?b then _ else _) => destruct b
      | |- keeps (let '(_, _) := ?p in _) => destruct p
      end ].

Section Frames.

Variable self : Config.

Lemma keeps_makeVariable name : keeps (makeVariable self name).
Proof.
  unfold makeVariable. apply keeps_bind; [eauto with keeps|].
  intros signame. by intros st a st' [= <- <-].
Qed.

Lemma keeps_getVariable name store : keeps (getVariable self name store).
Proof.
  pose proof keeps_makeVariable.
  unfold getVariable. keeps_steps.
Qed.

Lemma keeps_getTmpVariable : keeps (getTmpVariable self).
Proof. pose proof keeps_getVariable. unfold getTmpVariable. keeps_steps. Qed.

Lemma keeps_getFunction name : keeps (getFunction self name).
Proof. unfold getFunction. keeps_steps. Qed.

Lemma keeps_var_name var : keeps (var_name var).
Proof. unfold var_name. keeps_steps. Qed.

Lemma keeps_setBind var val cond : keeps (setBind var val cond).
Proof. pose proof keeps_var_name. unfold setBind. keeps_steps. Qed.

Lemma keeps_setArgBind name val : keeps (setArgBind self name val).
Proof.
  pose proof keeps_getVariable. pose proof keeps_setBind.
  unfold setArgBind. keeps_steps.
Qed.

Lemma keeps_setAssignBind dst var val : keeps (setAssignBind dst var val).
Proof. pose proof keeps_setBind. unfold setAssignBind. keeps_steps. Qed.

Lemma tuple_depth_elem r rs :
  r ∈ rs → (tuple_depth r < tuple_depth (PyTuple rs))%nat.
Proof.
  cbn [tuple_depth]. induction 1 as [r rs|r r' rs _ IH]; cbn [foldr]; lia.
Qed.

Lemma keeps__assign_depth d right raw_left left :
  (tuple_depth right ≤ d)%nat → keeps (_assign right raw_left left).
Proof.
  pose proof keeps_setAssignBind.
  revert right raw_left left.
  induction d as [|d IH]; intros right raw_left left Hd.
  - destruct right; try solve [cbn [_assign]; keeps_steps]. cbn in Hd. lia.
  - destruct right as [|rs| | | | | | | | |];
      try solve [cbn [_assign]; keeps_steps].
    rewrite _assign_tuple. cbv zeta. keeps_steps.
    assert (Hrs : ∀ r, r ∈ rs → (tuple_depth r ≤ d)%nat).
    { intros r Hr%tuple_depth_elem. lia. }
    clear Hd. generalize (raw_as_tuple raw_left) (as_tuple left).
    induction rs as [|r rs IHrs]; intros raws ds; [keeps_steps|].
    destruct raws as [|raw raws]; [keeps_steps|].
    destruct ds as [|dst ds]; [keeps_steps|].
    cbn [assign_each]. apply keeps_bind.
    + apply IH, Hrs. by left.
    + intros _. apply IHrs. intros r' Hr'. apply Hrs. by right.
Qed.

Lemma keeps__assign right raw_left left : keeps (_assign right raw_left left).
Proof. by eapply keeps__assign_depth. Qed.

Lemma keeps_compare_chain prev ops comparators :
  keeps (compare_chain prev ops comparators).
Proof.
  revert prev comparators. induction ops as [|o ops IH]; intros prev cs.
  - cbn. keeps_steps.
  - cbn [compare_chain]. keeps_steps.
Qed.

Lemma keeps_BinOp_result left o right : keeps (BinOp_result left o right).
Proof. unfold BinOp_result, _string_operation_plus. keeps_steps. Qed.

(** *** Pushing, popping, registering and clearing *)

Lemma pushScope_views ft st a st' :
  pushScope ft st = Ok (a, st') → views st' = new_view ft :: views st.
Proof. by intros [= <- <-]. Qed.

Lemma popScope_views st a st' :
  popScope st = Ok (a, st') → views st' = pop_views (views st).
Proof.
  intros [= <- <-]. unfold views, popScopeFrame. cbn.
  destruct (frames (scope st)) as [|t [|b r]] eqn:E; cbn; by rewrite ?E.
Qed.

Lemma skipping_views st v :
  skipping st = false → head (views st) = Some v → v_own v = no_patches.
Proof.
  unfold skipping, scope_hasBreak, scope_hasContinue, scope_hasReturn, views.
  destruct (frames (scope st)) as [|fr rest]; [done|].
  cbn. intros H [= <-]. cbn.
  by destruct (unresolved_break fr), (unresolved_continue fr),
       (unresolved_return fr).
Qed.

(** Registering a patch touches the patches of the current frame only. *)
Lemma on_current_patches (f : ScopeFrame → ScopeFrame) :
  (∀ fr, ftype (f fr) = ftype fr ∧ returnvariable (f fr) = returnvariable fr) →
  pres (stmt_rel true false) (on_scope (on_current f)).
Proof.
  intros Hf st a st' [= <- <-]. unfold views, on_current. cbn.
  destruct (frames (scope st)) as [|fr rest] eqn:E; cbn; rewrite ?E;
    [apply stmt_rel_refl|].
  repeat split; [done|]. cbn. unfold v_shape, view_of. cbn.
  by destruct (Hf fr) as [-> ->].
Qed.

Lemma pres_addBreak : pres (stmt_rel true false) addBreak.
Proof.
  unfold addBreak. apply pres_bind_l; [apply keeps_getFsmCount|].
  intros count. by apply on_current_patches.
Qed.

Lemma pres_addContinue : pres (stmt_rel true false) addContinue.
Proof.
  unfold addContinue. apply pres_bind_l; [apply keeps_getFsmCount|].
  intros count. by apply on_current_patches.
Qed.

Lemma pres_addReturn v : pres (stmt_rel true false) (addReturn v).
Proof.
  unfold addReturn. apply pres_bind_l; [apply keeps_getFsmCount|].
  intros count. by apply on_current_patches.
Qed.

(** The clean-up of a loop, on a frame that has no patch of its own. *)
Lemma clear_loop_views st a st1 b st' :
  clearBreak st = Ok (a, st1) → clearContinue st1 = Ok (b, st') →
  (∀ v, head (views st) = Some v → v_own v = no_patches) →
  stmt_rel false false (views st) (views st').
Proof.
  intros [= <- <-] [= <- <-]. unfold views. cbn.
  unfold scope_clearBreak, scope_clearContinue, on_current. cbn.
  destruct (frames (scope st)) as [|fr rest] eqn:E; cbn; rewrite ?E;
    [intros _; apply stmt_rel_refl|].
  cbn. intros Hown. specialize (Hown _ eq_refl). injection Hown as Hb Hc Hr.
  repeat split; try done.
  cbn. by rewrite Hb, Hc, Hr.
Qed.

(** The clean-up of a call. *)
Lemma on_call_frame_views x fs :
  map view_of (on_call_frame (set_returnvariable x) fs)
  = on_call_view (set_retvar x) (map view_of fs).
Proof.
  induction fs as [|fr rest IH]; [done|].
  cbn [on_call_frame map on_call_view].
  replace (v_is_call (view_of fr)) with (is_call fr) by done.
  destruct (is_call fr); [done|]. cbn [map]. by rewrite IH.
Qed.

Lemma clear_call_views st a1 st1 a2 st2 a3 st3 a4 st4 :
  clearBreak st = Ok (a1, st1) → clearContinue st1 = Ok (a2, st2) →
  clearReturn st2 = Ok (a3, st3) → clearReturnVariable st3 = Ok (a4, st4) →
  views st4 = on_call_view (set_retvar PyNone)
                (on_head (set_view_patches no_patches no_patches) (views st)).
Proof.
  intros [= <- <-] [= <- <-] [= <- <-] [= <- <-]. unfold views. cbn.
  rewrite on_call_frame_views. f_equal.
  unfold scope_clearBreak, scope_clearContinue, scope_clearReturn, on_current.
  cbn. destruct (frames (scope st)) as [|fr rest] eqn:E; cbn; by rewrite ?E.
Qed.

Lemma setReturnVariable_views x st a st' :
  setReturnVariable x st = Ok (a, st') →
  views st' = on_call_view (set_retvar x) (views st).
Proof. intros [= <- <-]. unfold views. cbn. apply on_call_frame_views. Qed.

(** Setting the return variable where there is none yet. *)
Lemma set_retvar_rel x l :
  (match find v_is_call l with Some v => v_retvar v | None => PyNone end) = PyNone →
  stmt_rel false true l (on_call_view (set_retvar x) l).
Proof.
  intros Hnone. repeat split.
  - destruct l as [|v r]; [done|]. cbn [on_call_view].
    destruct (v_is_call v); [done|]. cbn [tail].
    clear Hnone. induction r as [|v' r IH]; [done|].
    cbn [on_call_view]. destruct (v_is_call v'); [done|]. cbn [map]. by rewrite IH.
  - intros _. destruct l as [|v r]; [done|]. cbn [on_call_view].
    by destruct (v_is_call v).
  - induction l as [|v r IH]; [done|].
    cbn [on_call_view find] in *.
    destruct (v_is_call v) eqn:Hc; cbn [retvars_rel]; rewrite Hc.
    + by repeat split.
    + repeat split; [done..|]. by apply IH.
Qed.

Lemma getReturnVariable_views st x st' :
  getReturnVariable st = Ok (x, st') →
  st' = st
  ∧ x = match find v_is_call (views st) with Some v => v_retvar v | None => PyNone end.
Proof.
  intros [= <- <-]. split; [done|]. unfold scope_getReturnVariable, views.
  induction (frames (scope st)) as [|fr rest IH]; [done|].
  cbn [call_frame map find].
  replace (v_is_call (view_of fr)) with (is_call fr) by done.
  by destruct (is_call fr).
Qed.

#[local] Hint Resolve keeps_makeVariable keeps_getVariable keeps_getTmpVariable
  keeps_getFunction keeps_var_name keeps_setBind keeps_setArgBind
  keeps_setAssignBind keeps__assign keeps_compare_chain keeps_BinOp_result : keeps.

(** The fact a step of a computation gives about the frames. *)
Ltac step_fact Hstep :=
  match type of Hstep with
  | pushScope _ _ = _ => apply pushScope_views in Hstep
  | popScope _ = _ => apply popScope_views in Hstep
  | ?m ?st = Ok (?a, ?st1) =>
      first
        [ let K := fresh "K" in
          assert (K : keeps m) by (solve [keeps_steps]);
          apply K in Hstep; clear K
        | idtac ]
  end.

(** Splits the first step off a computation that succeeds. *)
Ltac inv_bind H :=
  let a := fresh "a" in
  let st := fresh "st" in
  let Hstep := fresh "Hstep" in
  apply bind_Ok_inv in H as (a & st & Hstep & H); step_fact Hstep.

(** States the frames of every state in terms of the earliest ones. *)
Ltac norm_views :=
  repeat match goal with
         | E : views ?s = _ |- _ => try rewrite E in *; clear E
         end.

(** *** The methods, over visits that keep the discipline *)

Section Methods.

Variable visit : ast.expr → M value.
Variable visit_stmt : ast.stmt → M unit.

Hypothesis Hvisit : ∀ e, keeps (visit e).
Hypothesis Hvisit_stmt :
  ∀ s, pres (stmt_rel (is_jump s) (returns_value s)) (visit_stmt s).

#[local] Hint Resolve Hvisit : keeps.

Lemma pres_body body :
  pres (stmt_rel true (existsb returns_value body)) (forM body visit_stmt).
Proof.
  induction body as [|s body IH]; cbn [forM existsb].
  - apply pres_ret, stmt_rel_refl.
  - eapply pres_bind; [|apply Hvisit_stmt|intros _; apply IH].
    intros l l' l'' H1 H2.
    eapply stmt_rel_mono; [| |by eapply stmt_rel_comp]; done.
Qed.

(** Splits a computation that succeeds into all its steps. *)
Ltac inv_steps H :=
  repeat inv_bind H; step_fact H;
  repeat match goal with
         | Hb : forM _ visit_stmt _ = Ok _ |- _ => apply pres_body in Hb
         end.

(** Splits the test of [skip()] off a visit. *)
Ltac inv_skip H Hskip :=
  let sk := fresh "sk" in
  let st := fresh "st" in
  let Hsk := fresh "Hsk" in
  apply bind_Ok_inv in H as (sk & st & Hsk & H);
  rewrite skip_eq in Hsk; injection Hsk as <- <-;
  destruct (skipping _) eqn:Hskip;
  [ apply keeps_ret in H; rewrite H; try apply stmt_rel_refl | ].

Lemma pres_visit_If test body orelse :
  pres (stmt_rel false (existsb returns_value body || existsb returns_value orelse))
       (visit_If visit visit_stmt test body orelse).
Proof.
  intros st a st' H. unfold visit_If in H.
  inv_skip H Hskip.
  do 8 inv_bind H.
  destruct (length orelse =? 0)%nat.
  - inv_steps H. norm_views.
    eapply stmt_rel_mono;
      [| |eapply (block_bracket None); [done|eassumption]]; [done|].
    intros ->. apply orb_true_l.
  - inv_steps H. norm_views.
    eapply stmt_rel_mono;
      [| |eapply stmt_rel_comp;
          (eapply (block_bracket None); [done|eassumption])]; done.
Qed.

(** The end of a loop: the block is closed, then the patches are cleared. *)
Lemma loop_bracket retv st l3 l4 :
  skipping st = false →
  stmt_rel true retv (new_view None :: views st) l3 →
  ((∀ v, head (pop_views l3) = Some v → v_own v = no_patches) →
   stmt_rel false false (pop_views l3) l4) →
  stmt_rel false retv (views st) l4.
Proof.
  intros Hskip Hbody Hclear.
  assert (Hbr : stmt_rel false retv (views st) (pop_views l3))
    by (by eapply (block_bracket None)).
  eapply stmt_rel_mono; [| |eapply stmt_rel_comp; [exact Hbr|]]; [done| |].
  { by rewrite orb_false_r. }
  apply Hclear. intros v Hv. destruct Hbr as (_ & Ho & _).
  specialize (Ho eq_refl). rewrite Hv in Ho.
  destruct (head (views st)) as [v0|] eqn:Hv0; [|done].
  injection Ho as ->. by eapply skipping_views.
Qed.

(** Gathers the clean-up of a loop into one fact. *)
Ltac loop_cleanup :=
  match goal with
  | Hb : clearBreak ?s = Ok (_, ?s1), Hc : clearContinue ?s1 = Ok (_, ?s2) |- _ =>
      pose proof (clear_loop_views _ _ _ _ _ Hb Hc) as Hclear; clear Hb Hc
  end.

Lemma pres_visit_While test body :
  pres (stmt_rel false (existsb returns_value body))
       (visit_While visit visit_stmt test body).
Proof.
  intros st a st' H. unfold visit_While in H.
  inv_skip H Hskip. inv_steps H. loop_cleanup. norm_views.
  by eapply loop_bracket.
Qed.

Lemma keeps_range_nodes args : keeps (range_nodes visit args).
Proof. unfold range_nodes. keeps_steps. Qed.

Lemma pres_visit_For target iter body :
  pres (stmt_rel false (existsb returns_value body))
       (visit_For visit visit_stmt target iter body).
Proof.
  pose proof keeps_range_nodes as Hrange.
  intros st a st' H. unfold visit_For in H.
  inv_skip H Hskip.
  destruct iter; try (apply keeps_ret in H; rewrite H; apply stmt_rel_refl).
  destruct (String.eqb func "range");
    [|apply keeps_ret in H; rewrite H; apply stmt_rel_refl].
  inv_bind H. destruct a0 as [[begin_node end_node] step_node].
  inv_steps H. loop_cleanup. norm_views.
  by eapply loop_bracket.
Qed.

Lemma pres_visit_Break : pres (stmt_rel true false) visit_Break.
Proof.
  unfold visit_Break. apply pres_bind_r; [apply pres_addBreak|].
  intros _. apply keeps_on_fsm.
Qed.

Lemma pres_visit_Continue : pres (stmt_rel true false) visit_Continue.
Proof.
  unfold visit_Continue. apply pres_bind_r; [apply pres_addContinue|].
  intros _. apply keeps_on_fsm.
Qed.

Lemma pres_visit_Return value :
  pres (stmt_rel true (returns_value (ast.Return value)))
       (visit_Return self visit value).
Proof.
  destruct value as [value|]; cbn [returns_value]; unfold visit_Return.
  - intros st a st' H.
    apply bind_Ok_inv in H as (retvar & st0 & Hret & H).
    apply getReturnVariable_views in Hret as [-> Hret].
    destruct (is_None retvar) eqn:Hnone; cbn [negb] in H.
    + inv_bind H.
      apply bind_Ok_inv in H as (? & st2 & Hset & H).
      apply setReturnVariable_views in Hset.
      do 2 inv_bind H.
      apply bind_Ok_inv in H as (? & st5 & Hadd & H).
      apply pres_addReturn in Hadd. step_fact H.
      assert (Hrel : stmt_rel false true (views st) (views st2)).
      { rewrite Hset, Hstep. apply set_retvar_rel.
        rewrite <- Hret. by destruct retvar. }
      norm_views.
      eapply stmt_rel_mono; [| |eapply stmt_rel_comp; [exact Hrel|exact Hadd]];
        done.
    + do 2 inv_bind H.
      apply bind_Ok_inv in H as (? & st5 & Hadd & H).
      apply pres_addReturn in Hadd. step_fact H. norm_views.
      eapply stmt_rel_mono; [| |exact Hadd]; done.
  - apply pres_bind_r; [apply pres_addReturn|]. intros _. apply keeps_on_fsm.
Qed.

Lemma keeps_print_arg arg : keeps (print_arg visit arg).
Proof. unfold print_arg. keeps_steps. Qed.

Lemma keeps_print_display args : keeps (print_display visit args).
Proof.
  pose proof keeps_print_arg. unfold print_display. keeps_steps.
Qed.

Lemma keeps_visit_Assign targets value :
  keeps (visit_Assign visit targets value).
Proof. unfold visit_Assign. keeps_steps. Qed.

Lemma keeps_visit_AugAssign target o value :
  keeps (visit_AugAssign visit target o value).
Proof. unfold visit_AugAssign. keeps_steps. Qed.

Lemma keeps_visit_BoolOp o values : keeps (visit_BoolOp visit o values).
Proof.
  unfold visit_BoolOp. destruct (getVeriloggenOp_boolop o) as [op|]; [|keeps_steps].
  apply keeps_bind; [keeps_steps|]. intros v0.
  apply keeps_bind; [keeps_steps|]. intros rslt.
  generalize (tail values). intros vs. revert rslt.
  induction vs as [|v vs IH]; intros rslt; [keeps_steps|].
  apply keeps_bind; [keeps_steps|]. intros r. apply IH.
Qed.

Lemma keeps_visit_Compare l ops comparators :
  keeps (visit_Compare visit l ops comparators).
Proof. unfold visit_Compare. keeps_steps. Qed.

Lemma keeps__call_Name_int args : keeps (_call_Name_int visit args).
Proof. unfold _call_Name_int. keeps_steps. Qed.

Lemma keeps__call_Name_intrinsic_function f args keywords :
  keeps (_call_Name_intrinsic_function visit f args keywords).
Proof.
  unfold _call_Name_intrinsic_function.
  apply keeps_bind; [keeps_steps|]. intros vs.
  apply keeps_bind; [keeps_steps|]. intros kws.
  intros st a st' H.
  destruct (f vs kws (fsm st)) as [[v f']| |]; [|done..].
  by injection H as <- <-.
Qed.

Lemma pres__visit_next_function tree :
  pres (stmt_rel true (existsb returns_value (ast.fd_body tree)))
       (_visit_next_function visit visit_stmt tree).
Proof.
  unfold _visit_next_function.
  apply pres_bind_l; [keeps_steps|]. intros _.
  apply pres_bind_r; [apply pres_body|]. intros _. keeps_steps.
Qed.

Lemma close_call_views st a st' :
  close_call st = Ok (a, st') →
  views st' = pop_views (on_call_view (set_retvar PyNone)
                (on_head (set_view_patches no_patches no_patches) (views st))).
Proof.
  intros H. unfold close_call in H.
  do 3 inv_bind H.
  apply bind_Ok_inv in H as (? & s1 & H1 & H).
  apply bind_Ok_inv in H as (? & s2 & H2 & H).
  apply bind_Ok_inv in H as (? & s3 & H3 & H).
  apply bind_Ok_inv in H as (? & s4 & H4 & H).
  apply popScope_views in H.
  pose proof (clear_call_views _ _ _ _ _ _ _ _ _ H1 H2 H3 H4) as Hc.
  norm_views. done.
Qed.

Lemma keeps_bind_positional params pos args :
  keeps (bind_positional self params pos args).
Proof.
  revert pos. induction args as [|a args IH]; intros pos; cbn [bind_positional].
  - keeps_steps.
  - destruct (params !! pos); [|keeps_steps].
    apply keeps_bind; [keeps_steps|]. intros _. apply IH.
Qed.

Lemma keeps_bind_default p : keeps (bind_default self visit p).
Proof. unfold bind_default. keeps_steps. Qed.

Lemma keeps__call_Name_function args keywords name :
  keeps (_call_Name_function self visit visit_stmt args keywords name).
Proof.
  pose proof keeps_bind_positional as Hpos.
  pose proof keeps_bind_default as Hdef.
  intros st a st' H. unfold _call_Name_function in H.
  inv_steps H.
  match goal with
  | Hb : _visit_next_function _ _ _ _ = _, Hc : close_call _ = _ |- _ =>
      apply pres__visit_next_function in Hb; apply close_call_views in Hc
  end.
  norm_views. by eapply call_bracket.
Qed.

Lemma keeps_visit_Call func args keywords :
  keeps (visit_Call self visit visit_stmt func args keywords).
Proof.
  pose proof keeps_print_display. pose proof keeps__call_Name_int.
  pose proof keeps__call_Name_intrinsic_function.
  pose proof keeps__call_Name_function.
  unfold visit_Call, _call_Name, _call_Name_print. keeps_steps.
Qed.

End Methods.

(** *** The discipline of the visits *)

(** Every visit of an expression keeps the frames as they look from
    outside; every visit of a statement relates them by [stmt_rel]. *)
Lemma visit_discipline n :
  (∀ e, keeps (visit self n e))
  ∧ (∀ s, pres (stmt_rel (is_jump s) (returns_value s)) (visit_stmt self n s)).
Proof.
  induction n as [|n [IHe IHs]]; [by split|].
  split.
  - intros e. destruct e; cbn [visit].
    + unfold visit_Num. keeps_steps.
    + keeps_steps.
    + unfold visit_NameConstant. keeps_steps.
    + unfold visit_Name. keeps_steps.
    + unfold visit_Attribute. keeps_steps.
    + unfold visit_UnaryOp. keeps_steps.
    + unfold visit_BinOp. keeps_steps.
    + by apply keeps_visit_BoolOp.
    + by apply keeps_visit_Compare.
    + keeps_steps.
    + keeps_steps.
    + keeps_steps.
    + by apply keeps_visit_Call.
  - intros s.
    assert (Hk : ∀ m : M unit, keeps m →
                 pres (stmt_rel (is_jump s) (returns_value s)) m).
    { intros m. apply pres_weaken. intros l l' ->. apply stmt_rel_refl. }
    destruct s; cbn [visit_stmt is_jump returns_value].
    + apply Hk. keeps_steps.
    + apply pres_raise.
    + apply pres_raise.
    + apply pres_raise.
    + apply Hk. by apply keeps_visit_Assign.
    + apply Hk. by apply keeps_visit_AugAssign.
    + by apply pres_visit_If.
    + by apply pres_visit_While.
    + by apply pres_visit_For.
    + apply Hk. keeps_steps.
    + apply Hk. keeps_steps.
    + apply pres_visit_Break.
    + apply pres_visit_Continue.
    + by apply pres_visit_Return.
    + apply Hk. keeps_steps.
    + apply Hk. keeps_steps.
    + apply Hk. unfold visit_Print. pose proof (keeps_print_display _ IHe).
      keeps_steps.
Qed.

End Frames.

(** ** What the visits read off the frames *)

Lemma skipping_own st :
  skipping st = nonempty (own_of (views st)).1.1
                || nonempty (own_of (views st)).1.2
                || nonempty (own_of (views st)).2.
Proof.
  unfold skipping, scope_hasBreak, scope_hasContinue, scope_hasReturn, views.
  by destruct (frames (scope st)).
Qed.

Lemma pending_views st :
  scope_getUnresolvedBreak (scope st) = (pending_of (views st)).1.1
  ∧ scope_getUnresolvedContinue (scope st) = (pending_of (views st)).1.2
  ∧ scope_getUnresolvedReturn (scope st) = (pending_of (views st)).2.
Proof.
  unfold scope_getUnresolvedBreak, scope_getUnresolvedContinue,
    scope_getUnresolvedReturn, views.
  by destruct (frames (scope st)).
Qed.

Lemma retvar_views st : scope_getReturnVariable (scope st) = retvar_of (views st).
Proof.
  pose proof (getReturnVariable_views st (scope_getReturnVariable (scope st)) st
                eq_refl) as [_ H].
  exact H.
Qed.

(** Two states whose frames look the same agree on [skip()], on the
    unresolved patches and on the return variable. *)
Lemma same_views st st' :
  views st' = views st →
  skipping st' = skipping st
  ∧ scope_getUnresolvedBreak (scope st') = scope_getUnresolvedBreak (scope st)
  ∧ scope_getUnresolvedContinue (scope st') = scope_getUnresolvedContinue (scope st)
  ∧ scope_getUnresolvedReturn (scope st') = scope_getUnresolvedReturn (scope st)
  ∧ scope_getReturnVariable (scope st') = scope_getReturnVariable (scope st)
  ∧ length (frames (scope st')) = length (frames (scope st)).
Proof.
  intros E.
  destruct (pending_views st) as (Hb & Hc & Hr).
  destruct (pending_views st') as (Hb' & Hc' & Hr').
  rewrite !skipping_own, !retvar_views, Hb, Hc, Hr, Hb', Hc', Hr', E.
  repeat split.
  apply (f_equal length) in E. unfold views in E. by rewrite !length_map in E.
Qed.

(** A statement that is no jump leaves [skip()] as it was. *)
Lemma stmt_rel_skipping retv st st' :
  stmt_rel false retv (views st) (views st') → skipping st' = skipping st.
Proof.
  intros (_ & Ho & Hx). specialize (Ho eq_refl).
  rewrite !skipping_own.
  assert (own_of (views st') = own_of (views st)) as ->; [|done].
  assert (Hlen : length (views st') = length (views st)).
  { destruct retv.
    - apply retvars_rel_ftype in Hx. apply (f_equal length) in Hx.
      by rewrite !length_map in Hx.
    - apply (f_equal length) in Hx. by rewrite !length_map in Hx. }
  destruct (views st) as [|v r], (views st') as [|v' r']; try done.
  cbn in Ho. by injection Ho.
Qed.

(** The return variable of the current call frame under [retvars_rel]. *)
Lemma retvars_rel_retvar l l' :
  retvars_rel l l' → retvar_of l ≠ PyNone → retvar_of l' = retvar_of l.
Proof.
  unfold retvar_of.
  revert l'. induction l as [|v r IH]; intros [|v' r'] H; try done.
  cbn [retvars_rel] in H. destruct H as [Hf H]. cbn [find].
  rewrite (v_is_call_ftype _ _ Hf).
  destruct (v_is_call v); [apply H|]. apply IH, H.
Qed.

Lemma shape_retvar l l' : map v_shape l' = map v_shape l → retvar_of l' = retvar_of l.
Proof.
  unfold retvar_of.
  revert l'. induction l as [|v r IH]; intros [|v' r'] H; try done.
  cbn [map] in H. apply cons_eq_inv in H as [Hv Hr].
  injection Hv as Hf Hx. cbn [find]. rewrite (v_is_call_ftype _ _ Hf).
  destruct (v_is_call v); [done|]. by apply IH.
Qed.

(** ** The end of an inlined call *)

Lemma clearReturnVariable_retvar s :
  scope_getReturnVariable (scope_clearReturnVariable s) = PyNone.
Proof.
  unfold scope_getReturnVariable, scope_clearReturnVariable. cbn.
  induction (frames s) as [|fr rest IH]; [done|].
  cbn [on_call_frame]. destruct (is_call fr) eqn:Hc; cbn [call_frame].
  - change (is_call (set_returnvariable PyNone fr)) with (is_call fr).
    by rewrite Hc.
  - by rewrite Hc.
Qed.

(** After the clean-up of a call no patch and no return variable is left
    in its frame. *)
Lemma cleared_patches st :
  scope_getUnresolvedBreak (scope (cleared st)) = []
  ∧ scope_getUnresolvedContinue (scope (cleared st)) = []
  ∧ scope_getUnresolvedReturn (scope (cleared st)) = []
  ∧ scope_getReturnVariable (scope (cleared st)) = PyNone.
Proof.
  unfold cleared, upd_scope. cbn [scope with_scope].
  split; [|split; [|split]]; [..|apply clearReturnVariable_retvar].
  all: destruct st as [f [[|fr rest] fns bs] li tc]; cbn; try done.
  all: unfold scope_getUnresolvedBreak, scope_getUnresolvedContinue,
         scope_getUnresolvedReturn; cbn.
  all: by destruct (is_call _).
Qed.

Lemma close_call_eq st :
  close_call st
  = Ok (tt, upd_scope popScopeFrame
              (cleared (add_jumps
                          (map (fun p => goto p.1 (current (fsm st)))
                               (scope_getUnresolvedReturn (scope st))) st))).
Proof.
  unfold close_call.
  repeat run_step I.
  reflexivity.
Qed.

Lemma getFunction_inv self name st tree st' :
  getFunction self name st = Ok (tree, st') →
  st' = st
  ∧ (searchFunction name (scope st) = Some tree
     ∨ searchFunction name (scope st) = None
       ∧ local_objects self !! name = Some (HFunction tree)).
Proof.
  unfold getFunction, bind, ask_scope.
  destruct (searchFunction name (scope st)) as [fd|].
  - intros [= <- <-]. auto.
  - destruct (local_objects self !! name) as [[v|fd]|]; try done.
    intros [= <- <-]. auto.
Qed.

Lemma _visit_next_function_inv (v : ast.expr → M value) (vs : ast.stmt → M unit)
    tree st r st' :
  _visit_next_function v vs tree st = Ok (r, st') →
  r = (if is_None (scope_getReturnVariable (scope st')) then Int 0
       else scope_getReturnVariable (scope st')).
Proof.
  unfold _visit_next_function. intros H.
  apply bind_Ok_inv in H as (? & s1 & _ & H).
  apply bind_Ok_inv in H as (? & s2 & _ & H).
  apply bind_Ok_inv in H as (retvar & s3 & Hret & H).
  injection Hret as <- <-.
  destruct (is_None (scope_getReturnVariable (scope s2))) eqn:E;
    cbn in H; injection H as <- <-; by rewrite E.
Qed.

(** ** The return variable *)

Lemma getReturnVariable_set x s :
  call_frame (frames s) ≠ None →
  scope_getReturnVariable (scope_setReturnVariable x s) = x.
Proof.
  unfold scope_getReturnVariable, scope_setReturnVariable. cbn.
  induction (frames s) as [|fr rest IH]; [done|].
  cbn [on_call_frame call_frame]. destruct (is_call fr) eqn:Hc; cbn [call_frame].
  - intros _. change (is_call (set_returnvariable x fr)) with (is_call fr).
    by rewrite Hc.
  - rewrite Hc. apply IH.
Qed.

Lemma getReturnVariable_addReturn c v s :
  scope_getReturnVariable (scope_addReturn c v s) = scope_getReturnVariable s.
Proof.
  unfold scope_getReturnVariable, scope_addReturn, on_current.
  destruct (frames s) as [|fr rest] eqn:E; cbn; rewrite ?E; [done|].
  cbn [call_frame].
  change (is_call (set_patches ?b ?c ?r ?ib ?ic ?ir fr)) with (is_call fr).
  by destruct (is_call fr).
Qed.

Lemma getReturnVariable_addBind state dst v cond s :
  scope_getReturnVariable (addBind state dst v cond s) = scope_getReturnVariable s.
Proof. reflexivity. Qed.

Lemma addReturn_eq v st :
  addReturn v st = Ok (tt, upd_scope (scope_addReturn (current (fsm st)) v) st).
Proof. reflexivity. Qed.

Lemma _tmp_name_eq prefix st :
  _tmp_name prefix st = Ok (prefix +:+ "_" +:+ pretty (_tmp_count st), named st).
Proof. done. Qed.

Lemma makeVariable_eq self name st :
  makeVariable self name st = Ok (made_register self name st, made self name st).
Proof. reflexivity. Qed.

(** [getTmpVariable] on a name the scope does not know and that is not
    declared nonlocal or global: a register is made, bound in the current
    frame and returned. *)
Lemma getTmpVariable_fresh self st :
  frames (scope st) ≠ [] →
  searchVariable (tmp_name st) true (scope st) = PyNone →
  (∀ v, bind_declared (tmp_name st) v (frames (scope st)) = None) →
  ∃ st1,
    getTmpVariable self st = Ok (tmp_register self st, st1)
    ∧ m_regs (fsm_m (fsm st1)) = m_regs (fsm_m (fsm st)) ++ [tmp_register self st]
    ∧ bodies (fsm st1) = bodies (fsm st)
    ∧ jumps (fsm st1) = jumps (fsm st)
    ∧ current (fsm st1) = current (fsm st)
    ∧ views st1 = views st.
Proof.
  intros Hfr Hsearch Hdecl.
  unfold getTmpVariable.
  rewrite (bind_Ok _ _ _ _ _ (_tmp_name_eq _ _)). fold (tmp_name st).
  unfold getVariable.
  rewrite (bind_Ok _ _ _ _ _ (ask_scope_eq _ _)).
  change (scope (named st)) with (scope st).
  rewrite Hsearch. cbn [is_None negb].
  rewrite (bind_Ok _ _ _ _ _ (makeVariable_eq _ _ _)).
  rewrite (bind_Ok _ _ _ _ _ (on_scope_eq _ _)).
  rewrite ask_scope_eq.
  assert (Hfound :
    searchVariable (tmp_name st) false
      (scope (upd_scope
                (addVariable (tmp_name st)
                   (made_register self (tmp_name st) (named st)))
                (made self (tmp_name st) (named st))))
    = tmp_register self st).
  { cbn. unfold addVariable. rewrite Hdecl. unfold on_current.
    destruct (frames (scope st)) as [|fr rest]; [done|].
    cbn. by rewrite lookup_insert_eq. }
  rewrite Hfound.
  eexists. split; [reflexivity|].
  split; [|split; [|split; [|split]]]; try done.
  unfold views. cbn. apply views_addVariable.
Qed.

(** ** Binding arguments *)

Lemma mapM_length {A B} (f : A → M B) l st bs st' :
  mapM f l st = Ok (bs, st') → length bs = length l.
Proof.
  revert st bs. induction l as [|a l IH]; intros st bs H; cbn [mapM] in H.
  - by injection H as <- <-.
  - apply bind_Ok_inv in H as (b & s1 & _ & H).
    apply bind_Ok_inv in H as (bs' & s2 & Hbs & H).
    injection H as <- <-. cbn. f_equal. by eapply IH.
Qed.

Lemma setBind_task_eq task st :
  setBind PyNone task PyNone st
  = Ok (tt, upd_scope (addBind (current (fsm st)) None task None)
              (upd_fsm (FSM_add_statement [SingleStatement task] None) st)).
Proof. reflexivity. Qed.

(** What [setBind] does with the variable [getVariable] found. *)
Lemma setBind_bound left val st st' :
  setBind left val PyNone st = Ok (tt, st') →
  match left with
  | Reg lname width initval => st' = bound lname (Reg lname width initval) val st
  | PyNone =>
      st' = upd_scope (addBind (current (fsm st)) None val None)
              (upd_fsm (FSM_add_statement [SingleStatement val] None) st)
  | _ => False
  end.
Proof.
  destruct left; try (by intros [= <-]).
  all: unfold setBind; cbn [is_None];
    rewrite (bind_Ok _ _ _ _ _ (on_fsm_eq _ _));
    rewrite (bind_Ok _ _ _ _ _ (getFsmCount_eq _)); done.
Qed.

Lemma setArgBind_bound self name val st st' :
  setArgBind self name val st = Ok (tt, st') → arg_bound self name val st st'.
Proof.
  unfold setArgBind, arg_bound.
  destruct (is_numerical val); cbn [negb]; [|by intros [= <-]].
  intros H. apply bind_Ok_inv in H as (left & st1 & Hget & H).
  unfold getVariable in Hget.
  rewrite (bind_Ok _ _ _ _ _ (ask_scope_eq _ _)) in Hget. cbn [negb] in Hget.
  destruct (is_None (searchVariable name true (scope st))) eqn:E.
  - rewrite (bind_Ok _ _ _ _ _ (makeVariable_eq _ _ _)) in Hget.
    rewrite (bind_Ok _ _ _ _ _ (on_scope_eq _ _)) in Hget.
    rewrite ask_scope_eq in Hget. injection Hget as <- <-.
    apply setBind_bound in H. exact H.
  - injection Hget as <- <-. apply setBind_bound in H. exact H.
Qed.

Lemma bind_positional_bound self params pos args st st' :
  bind_positional self params pos args st = Ok (tt, st') →
  (args ≠ [] → pos + length args ≤ length params)%nat
  ∧ args_bound self (zip (drop pos params) args) st st'.
Proof.
  revert pos st. induction args as [|a args IH]; intros pos st H.
  - injection H as <-. split; [done|]. by destruct (drop pos params).
  - cbn [bind_positional] in H.
    destruct (params !! pos) as [argname|] eqn:E; [|done].
    apply bind_Ok_inv in H as ([] & s & Hbind & H).
    apply IH in H as [Hlen Hrest].
    split.
    + intros _. apply lookup_lt_Some in E.
      destruct args as [|a' args]; [cbn; lia|].
      specialize (Hlen ltac:(done)). cbn in *. lia.
    + rewrite (drop_S _ _ _ E). cbn [zip zip_with args_bound].
      exists s. split; [by apply setArgBind_bound|done].
Qed.

Lemma forM_setArgBind_bound self (l : list (string * value)) st st' :
  forM l (fun p => setArgBind self p.1 p.2) st = Ok (tt, st') →
  args_bound self l st st'.
Proof.
  revert st. induction l as [|[name val] l IH]; intros st H.
  - by injection H as <-.
  - cbn [forM] in H. apply bind_Ok_inv in H as ([] & s & Hbind & H).
    exists s. split; [by apply setArgBind_bound|by apply IH].
Qed.

Lemma forM_bind_default_bound self (v : ast.expr → M value)
    (l : list (string * ast.expr)) st st' :
  forM l (bind_default self v) st = Ok (tt, st') →
  defaults_bound self v l st st'.
Proof.
  revert st. induction l as [|[name d] l IH]; intros st H.
  - by injection H as <-.
  - cbn [forM] in H. apply bind_Ok_inv in H as ([] & s & Hbind & H).
    exists s. split; [|by apply IH].
    unfold bind_default in Hbind. cbn [fst snd] in Hbind.
    rewrite (bind_Ok _ _ _ _ _ (ask_scope_eq _ _)) in Hbind.
    destruct (is_None (searchVariable name true (scope st))).
    + apply bind_Ok_inv in Hbind as (right & s1 & Hd & Hbind).
      exists right, s1. split; [done|by apply setArgBind_bound].
    + by injection Hbind as <-.
Qed.

Section Claims.

Variable self : Config.

(** ** Skipping *)

(** C5 (amended).  At the entry of the visit of an assignment, an
    augmented assignment, an if, a while, a for or a call, if the current
    frame (the frame of the innermost block) has a break, continue or
    return registered in it, the statement is skipped: the visit succeeds
    and leaves the compiler state as it was (no binding, no transition, no
    FSM state consumed).  Break, continue and return are not subject to the
    test: each is lowered in every state, registers its patch in the
    current frame, after which [skip()] holds there, and consumes one FSM
    state.  A statement that is none of these three leaves [skip()] as it
    found it, so the skip carries over to the statements that follow in
    the block.  It ends when the frame of the block is popped: the patches
    are handed to the frame below, where [getUnresolved*] lists them and
    where [skip()] is what the patches registered in that frame itself
    make it. *)
Theorem skip_guarded n s body st st' :
  (skipping st = true → is_guarded s = true →
   visit_stmt self (S (S n)) s st = Ok (tt, st))
  ∧ (skipping st = true → forallb is_guarded body = true →
     forM body (visit_stmt self (S (S n))) st = Ok (tt, st))
  ∧ (is_jump s = false → visit_stmt self n s st = Ok (tt, st') →
     skipping st' = skipping st)
  ∧ visit_stmt self (S n) ast.Break st
    = Ok (tt, upd_fsm FSM_inc (upd_scope (scope_addBreak (current (fsm st))) st))
  ∧ visit_stmt self (S n) ast.Continue st
    = Ok (tt, upd_fsm FSM_inc (upd_scope (scope_addContinue (current (fsm st))) st))
  ∧ visit_stmt self (S n) (ast.Return None) st
    = Ok (tt, upd_fsm FSM_inc
                (upd_scope (scope_addReturn (current (fsm st)) PyNone) st))
  ∧ (∀ e name width initval right st1,
       scope_getReturnVariable (scope st) = Reg name width initval →
       visit self n e st = Ok (right, st1) →
       visit_stmt self (S n) (ast.Return (Some e)) st
       = Ok (tt, upd_fsm FSM_inc
                   (upd_scope (scope_addReturn (current (fsm st1)) right)
                      (bound name (Reg name width initval) right st1))))
  ∧ (∀ v st2, visit_stmt self (S n) (ast.Return v) st = Ok (tt, st2) →
       ∃ right st1,
         st2 = upd_fsm FSM_inc
                 (upd_scope (scope_addReturn (current (fsm st1)) right) st1))
  ∧ (frames (scope st) ≠ [] →
     ∀ c v,
       skipping (upd_fsm FSM_inc (upd_scope (scope_addBreak c) st)) = true
       ∧ skipping (upd_fsm FSM_inc (upd_scope (scope_addContinue c) st)) = true
       ∧ skipping (upd_fsm FSM_inc (upd_scope (scope_addReturn c v) st)) = true)
  ∧ (∀ top below rest,
       frames (scope st) = top :: below :: rest →
       let popped := upd_scope popScopeFrame st in
       skipping popped
       = nonempty (unresolved_break below) || nonempty (unresolved_continue below)
         || nonempty (unresolved_return below)
       ∧ scope_getUnresolvedBreak (scope popped)
         = (unresolved_break below ++ inner_break below)
           ++ unresolved_break top ++ inner_break top
       ∧ scope_getUnresolvedContinue (scope popped)
         = (unresolved_continue below ++ inner_continue below)
           ++ unresolved_continue top ++ inner_continue top
       ∧ scope_getUnresolvedReturn (scope popped)
         = (unresolved_return below ++ inner_return below)
           ++ unresolved_return top ++ inner_return top).
Proof.
  assert (Hone : ∀ s0, skipping st = true → is_guarded s0 = true →
                 visit_stmt self (S (S n)) s0 st = Ok (tt, st)).
  { intros s0 Hskip Hs0.
    destruct s0; try done; cbn [visit_stmt].
    - unfold visit_Assign. by rewrite (bind_Ok _ _ _ _ _ (skip_eq st)), Hskip.
    - unfold visit_AugAssign. by rewrite (bind_Ok _ _ _ _ _ (skip_eq st)), Hskip.
    - unfold visit_If. by rewrite (bind_Ok _ _ _ _ _ (skip_eq st)), Hskip.
    - unfold visit_While. by rewrite (bind_Ok _ _ _ _ _ (skip_eq st)), Hskip.
    - unfold visit_For. by rewrite (bind_Ok _ _ _ _ _ (skip_eq st)), Hskip.
    - match goal with H : is_guarded (ast.Expr ?e) = true |- _ => destruct e end;
        try done.
      cbn [visit]. unfold visit_Call.
      unfold bind at 1.
      rewrite (bind_Ok _ _ _ _ _ (skip_eq st)), Hskip. reflexivity. }
  split; [apply Hone|]. split.
  { intros Hskip Hbody.
    induction body as [|s0 body IH]; [done|].
    cbn [forallb] in Hbody. apply andb_true_iff in Hbody as [Hs0 Hbody].
    cbn [forM]. rewrite (bind_Ok _ _ _ _ _ (Hone s0 Hskip Hs0)). by apply IH. }
  split.
  { intros Hjump H.
    destruct (visit_discipline self n) as [_ Hs].
    apply Hs in H. rewrite Hjump in H. by eapply stmt_rel_skipping. }
  split; [reflexivity|]. split; [reflexivity|]. split; [reflexivity|].
  split; [|split; [|split]].
  - intros e name width initval right st1 Hret He.
    cbn [visit_stmt]. unfold visit_Return, getReturnVariable.
    rewrite (bind_Ok _ _ _ _ _ (ask_scope_eq _ _)), Hret. cbn [is_None negb].
    rewrite (bind_Ok _ _ _ _ _ He).
    rewrite (bind_Ok _ _ _ _ _ (setBind_Reg_eq _ _ _ _ _)).
    rewrite (bind_Ok _ _ _ _ _ (addReturn_eq _ _)).
    reflexivity.
  - intros v st2 H. cbn [visit_stmt] in H. unfold visit_Return in H.
    destruct v as [e|].
    + apply bind_Ok_inv in H as (retvar & s0 & _ & H).
      destruct (negb (is_None retvar)).
      * apply bind_Ok_inv in H as (right & s1 & _ & H).
        apply bind_Ok_inv in H as ([] & s2 & _ & H).
        rewrite (bind_Ok _ _ _ _ _ (addReturn_eq _ _)) in H.
        injection H as <-. by exists right, s2.
      * apply bind_Ok_inv in H as (tmp & s1 & _ & H).
        apply bind_Ok_inv in H as ([] & s2 & _ & H).
        apply bind_Ok_inv in H as (right & s3 & _ & H).
        apply bind_Ok_inv in H as ([] & s4 & _ & H).
        rewrite (bind_Ok _ _ _ _ _ (addReturn_eq _ _)) in H.
        injection H as <-. by exists right, s4.
    + rewrite (bind_Ok _ _ _ _ _ (addReturn_eq _ _)) in H.
      injection H as <-. by exists PyNone, st.
  - intros Hfr c v. unfold skipping. cbn.
    unfold scope_addBreak, scope_addContinue, scope_addReturn, on_current.
    destruct (frames (scope st)) as [|fr rest]; [done|]. cbn.
    repeat split.
    + by destruct (unresolved_break fr).
    + destruct (unresolved_continue fr); cbn; by rewrite orb_true_r.
    + destruct (unresolved_return fr); cbn; by rewrite orb_true_r.
  - intros top below rest Hfr popped. unfold popped, skipping.
    cbn. unfold popScopeFrame, scope_hasBreak, scope_hasContinue, scope_hasReturn,
      scope_getUnresolvedBreak, scope_getUnresolvedContinue,
      scope_getUnresolvedReturn.
    rewrite Hfr. cbn. by rewrite <- !app_assoc.
Qed.

(** ** Inlined calls *)

(** C3 (amended).  A call of a name that is neither [print] nor [int] nor
    a registered intrinsic, that is lowered: the function is found and the
    arguments and keyword values are lowered in the frame of the caller;
    then a frame of kind ["call"] is pushed; the positional arguments are
    bound to the parameters in order (there are no more of them than
    parameters), then the keyword arguments to their names, then the
    defaults to the parameters the scope does not know yet, each by
    [arg_bound]; one state boundary is emitted; the body is lowered; every
    unresolved return is patched to the state that follows the body; the
    break, continue and return lists and the return variable are cleared,
    and the frame is popped.  The frames are then as they were before the
    call: no unresolved return of the call is left, the unresolved returns
    are the ones that were pending in the caller before the call, and the
    current frame has none outstanding. *)
Theorem call_inlining n name args keywords st r st' :
  skipping st = false →
  name ≠ "print" → name ≠ "int" → intrinsic_functions self !! name = None →
  visit self (S n) (ast.Call name args keywords) st = Ok (r, st') →
  ∃ tree argvalues kwvalues st1 st2 st3 st4 st5 st6,
    getFunction self name st = Ok (tree, st)
    ∧ mapM (visit self n) args st = Ok (argvalues, st1)
    ∧ mapM (fun key => visit self n key.2) keywords st1 = Ok (kwvalues, st2)
    ∧ bind_positional self (ast.fd_args tree) 0 argvalues
        (upd_scope (pushScopeFrame (Some "call")) st2) = Ok (tt, st3)
    ∧ forM (zip (map fst keywords) kwvalues)
           (fun p => setArgBind self p.1 p.2) st3 = Ok (tt, st4)
    ∧ (if (0 <? length (ast.fd_defaults tree))%nat
       then forM (zip (drop (length (ast.fd_args tree)
                             - length (ast.fd_defaults tree))
                            (ast.fd_args tree))
                      (ast.fd_defaults tree))
                 (bind_default self (visit self n))
       else ret tt) st4 = Ok (tt, st5)
    ∧ _visit_next_function (visit self n) (visit_stmt self n) tree
        (state_boundary st5) = Ok (r, st6)
    ∧ (let patched :=
         add_jumps (map (fun p => goto p.1 (current (fsm st6)))
                        (scope_getUnresolvedReturn (scope st6))) st6 in
       st' = upd_scope popScopeFrame (cleared patched)
       ∧ scope_getUnresolvedBreak (scope (cleared patched)) = []
       ∧ scope_getUnresolvedContinue (scope (cleared patched)) = []
       ∧ scope_getUnresolvedReturn (scope (cleared patched)) = []
       ∧ scope_getReturnVariable (scope (cleared patched)) = PyNone)
    ∧ r = (if is_None (scope_getReturnVariable (scope st6)) then Int 0
           else scope_getReturnVariable (scope st6))
    ∧ views st' = views st
    ∧ scope_getUnresolvedReturn (scope st') = scope_getUnresolvedReturn (scope st)
    ∧ scope_hasReturn (scope st') = false
    ∧ (length args ≤ length (ast.fd_args tree))%nat
    ∧ args_bound self (zip (ast.fd_args tree) argvalues)
        (upd_scope (pushScopeFrame (Some "call")) st2) st3
    ∧ args_bound self (zip (map fst keywords) kwvalues) st3 st4
    ∧ defaults_bound self (visit self n)
        (zip (drop (length (ast.fd_args tree) - length (ast.fd_defaults tree))
                   (ast.fd_args tree))
             (ast.fd_defaults tree))
        st4 st5
    ∧ (∃ sd,
         forM (ast.fd_defaults tree) (fun d => visit self n d >> ret tt)
              (state_boundary st5) = Ok (tt, sd)
         ∧ forM (ast.fd_body tree) (visit_stmt self n) sd = Ok (tt, st6)).
Proof.
  intros Hskip Hprint Hint Hintr H.
  assert (Hviews : views st' = views st).
  { destruct (visit_discipline self (S n)) as [He _]. exact (He _ _ _ _ H). }
  cbn [visit] in H. unfold visit_Call in H.
  rewrite (bind_Ok _ _ _ _ _ (skip_eq st)), Hskip in H.
  unfold _call_Name in H.
  rewrite (proj2 (String.eqb_neq _ _) Hprint),
          (proj2 (String.eqb_neq _ _) Hint), Hintr in H.
  unfold _call_Name_function in H.
  apply bind_Ok_inv in H as (tree & s0 & Hget & H).
  destruct (getFunction_inv _ _ _ _ _ Hget) as [-> _].
  apply bind_Ok_inv in H as (argvalues & st1 & Hargs & H).
  apply bind_Ok_inv in H as (kwvalues & st2 & Hkws & H).
  apply bind_Ok_inv in H as ([] & sp & Hpush & H).
  unfold pushScope in Hpush. rewrite on_scope_eq in Hpush. injection Hpush as <-.
  apply bind_Ok_inv in H as ([] & st3 & Hpos & H).
  apply bind_Ok_inv in H as ([] & st4 & Hkw & H).
  apply bind_Ok_inv in H as ([] & st5 & Hdef & H).
  apply bind_Ok_inv in H as ([] & sf & Hf & H).
  rewrite setFsm_next_eq in Hf. injection Hf as <-.
  apply bind_Ok_inv in H as ([] & si & Hi & H).
  unfold incFsmCount in Hi. rewrite on_fsm_eq in Hi. injection Hi as <-.
  apply bind_Ok_inv in H as (r0 & st6 & Hbody & H).
  apply bind_Ok_inv in H as ([] & sc & Hclose & H).
  rewrite close_call_eq in Hclose. injection Hclose as <-.
  injection H as -> <-.
  exists tree, argvalues, kwvalues, st1, st2, st3, st4, st5, st6.
  destruct (same_views _ _ Hviews) as (Hsk & _ & _ & Hur & _).
  destruct (bind_positional_bound _ _ _ _ _ _ Hpos) as [Hlen Hbound].
  do 7 (split; [done|]).
  split; [cbv zeta; split; [done|apply cleared_patches]|].
  split; [by eapply _visit_next_function_inv|].
  split; [done|]. split; [done|].
  split.
  { rewrite Hskip in Hsk. unfold skipping in Hsk.
    by apply orb_false_iff in Hsk as [_ Hsk]. }
  split.
  { rewrite <- (mapM_length _ _ _ _ _ Hargs).
    destruct argvalues as [|a l]; [cbn; lia|]. by apply Hlen. }
  split; [exact Hbound|].
  split; [by apply forM_setArgBind_bound|].
  split.
  { destruct (0 <? length (ast.fd_defaults tree))%nat eqn:Hk.
    - by apply forM_bind_default_bound.
    - injection Hdef as <-. apply Nat.ltb_ge in Hk.
      destruct (ast.fd_defaults tree); [|cbn in Hk; lia].
      by rewrite zip_with_nil_r. }
  unfold _visit_next_function in Hbody.
  apply bind_Ok_inv in Hbody as ([] & sd & Hd & Hbody).
  apply bind_Ok_inv in Hbody as ([] & sb & Hb & Hbody).
  apply bind_Ok_inv in Hbody as (retvar & sr & Hr & Hbody).
  unfold getReturnVariable in Hr. rewrite ask_scope_eq in Hr.
  injection Hr as <- <-.
  exists sd. split; [done|].
  destruct (negb (is_None (scope_getReturnVariable (scope sb))));
    by injection Hbody as <- <-.
Qed.

(** The return variable of a call frame, as long as the name generated
    for it is new to the scope.  A fresh call frame has none.  The first
    return with a value lowered in the frame allocates a temporary
    register, makes it the return variable and stores the value in it; a
    later return with a value stores into the same register and allocates
    nothing; a bare return allocates nothing and leaves the return variable
    as it is.  Once set the return variable stays, and the visit of an
    expression, or of a statement in which no return with a value occurs,
    leaves it as it is.  The result of the inlined call is the return
    variable when there is one and [Int(0)] otherwise. *)
Lemma return_variable_fresh n st :
  (∀ s, scope_getReturnVariable (pushScopeFrame (Some "call") s) = PyNone)
  ∧ (∀ e st',
       scope_getReturnVariable (scope st) = PyNone →
       call_frame (frames (scope st)) ≠ None →
       searchVariable (tmp_name st) true (scope st) = PyNone →
       (∀ v, bind_declared (tmp_name st) v (frames (scope st)) = None) →
       visit_stmt self (S n) (ast.Return (Some e)) st = Ok (tt, st') →
       let tmp := tmp_register self st in
       ∃ st1 right st2,
         getTmpVariable self st = Ok (tmp, st1)
         ∧ m_regs (fsm_m (fsm st1)) = m_regs (fsm_m (fsm st)) ++ [tmp]
         ∧ visit self n e (upd_scope (scope_setReturnVariable tmp) st1)
           = Ok (right, st2)
         ∧ bodies (fsm st')
           = bodies (fsm st2) ++ [(current (fsm st2), [Subst tmp right], None)]
         ∧ current (fsm st') = S (current (fsm st2))
         ∧ scope_getReturnVariable (scope st') = tmp)
  ∧ (∀ e st' retvar,
       scope_getReturnVariable (scope st) = retvar → retvar ≠ PyNone →
       visit_stmt self (S n) (ast.Return (Some e)) st = Ok (tt, st') →
       ∃ right st1,
         visit self n e st = Ok (right, st1)
         ∧ bodies (fsm st')
           = bodies (fsm st1) ++ [(current (fsm st1), [Subst retvar right], None)]
         ∧ fsm_m (fsm st') = fsm_m (fsm st1)
         ∧ _tmp_count st' = _tmp_count st1
         ∧ current (fsm st') = S (current (fsm st1))
         ∧ scope_getReturnVariable (scope st') = retvar)
  ∧ (∃ st',
       visit_stmt self (S n) (ast.Return None) st = Ok (tt, st')
       ∧ fsm_m (fsm st') = fsm_m (fsm st)
       ∧ bodies (fsm st') = bodies (fsm st)
       ∧ _tmp_count st' = _tmp_count st
       ∧ current (fsm st') = S (current (fsm st))
       ∧ scope_getReturnVariable (scope st') = scope_getReturnVariable (scope st))
  ∧ (∀ e v st',
       visit self n e st = Ok (v, st') →
       scope_getReturnVariable (scope st') = scope_getReturnVariable (scope st))
  ∧ (∀ s st',
       visit_stmt self n s st = Ok (tt, st') →
       (scope_getReturnVariable (scope st) ≠ PyNone →
        scope_getReturnVariable (scope st') = scope_getReturnVariable (scope st))
       ∧ (returns_value s = false →
          scope_getReturnVariable (scope st') = scope_getReturnVariable (scope st)))
  ∧ (∀ tree r st',
       _visit_next_function (visit self n) (visit_stmt self n) tree st = Ok (r, st') →
       r = (if is_None (scope_getReturnVariable (scope st')) then Int 0
            else scope_getReturnVariable (scope st'))).
Proof.
  destruct (visit_discipline self n) as [He Hs].
  split; [done|]. split; [|split; [|split; [|split; [|split]]]].
  - intros e st' Hnone Hcall Hsearch Hdecl H tmp.
    cbn [visit_stmt] in H. unfold visit_Return in H.
    apply bind_Ok_inv in H as (retvar & s0 & Hret & H).
    injection Hret as <- <-. rewrite Hnone in H. cbn [is_None negb] in H.
    destruct (getTmpVariable_fresh self st) as (st1 & Htmp & Hregs & _ & _ & _ & Hv1);
      [by destruct (frames (scope st))|done..|].
    rewrite (bind_Ok _ _ _ _ _ Htmp) in H.
    apply bind_Ok_inv in H as ([] & s2 & Hset & H).
    unfold setReturnVariable in Hset. rewrite on_scope_eq in Hset.
    injection Hset as <-.
    apply bind_Ok_inv in H as (right & st2 & Hval & H).
    unfold tmp_register in H.
    rewrite (bind_Ok _ _ _ _ _ (setBind_Reg_eq _ _ _ _ _)) in H.
    rewrite (bind_Ok _ _ _ _ _ (addReturn_eq _ _)) in H.
    unfold incFsmCount in H. rewrite on_fsm_eq in H. injection H as <-.
    exists st1, right, st2. repeat split; try done.
    cbn. rewrite getReturnVariable_addReturn. cbn.
    rewrite getReturnVariable_addBind.
    apply He in Hval. apply same_views in Hval as (_ & _ & _ & _ & -> & _).
    cbn. apply getReturnVariable_set.
    assert (Hc : map is_call (frames (scope st1)) = map is_call (frames (scope st))).
    { apply (f_equal (map v_is_call)) in Hv1. unfold views in Hv1.
      by rewrite !map_map in Hv1. }
    clear -Hc Hcall.
    revert Hc Hcall. generalize (frames (scope st1)).
    induction (frames (scope st)) as [|fr rest IH]; intros [|fr1 rest1] Hc Hcall;
      try done.
    cbn [map] in Hc. apply cons_eq_inv in Hc as [Hc1 Hc].
    cbn [call_frame] in *. rewrite Hc1.
    destruct (is_call fr); [done|]. by apply IH.
  - intros e st' retvar Hret Hne H.
    cbn [visit_stmt] in H. unfold visit_Return, getReturnVariable in H.
    rewrite (bind_Ok _ _ _ _ _ (ask_scope_eq _ _)), Hret in H.
    replace (negb (is_None retvar)) with true in H by (by destruct retvar).
    apply bind_Ok_inv in H as (right & st1 & Hval & H).
    assert (Hreg : ∃ name width initval, retvar = Reg name width initval).
    { unfold setBind in H.
      apply bind_Ok_inv in H as (? & ? & H).
      destruct H as (H & _).
      apply bind_Ok_inv in H as (? & ? & _ & H).
      apply bind_Ok_inv in H as (? & ? & _ & H).
      apply bind_Ok_inv in H as (? & ? & H & _).
      destruct retvar; try done. eauto. }
    destruct Hreg as (name & width & initval & ->).
    rewrite (bind_Ok _ _ _ _ _ (setBind_Reg_eq _ _ _ _ _)) in H.
    rewrite (bind_Ok _ _ _ _ _ (addReturn_eq _ _)) in H.
    unfold incFsmCount in H. rewrite on_fsm_eq in H. injection H as <-.
    exists right, st1. repeat split; try done.
    cbn. rewrite getReturnVariable_addReturn. cbn.
    rewrite getReturnVariable_addBind.
    apply He in Hval. by apply same_views in Hval as (_ & _ & _ & _ & -> & _).
  - eexists. split.
    + cbn [visit_stmt]. unfold visit_Return.
      rewrite (bind_Ok _ _ _ _ _ (addReturn_eq _ _)).
      unfold incFsmCount. by rewrite on_fsm_eq.
    + repeat split; try done. cbn. apply getReturnVariable_addReturn.
  - intros e v st' H. apply He in H. by apply same_views in H as (_&_&_&_&->&_).
  - intros s st' H. apply Hs in H. destruct H as (_ & _ & Hx).
    rewrite !retvar_views. split.
    + intros Hne. destruct (returns_value s).
      * by apply retvars_rel_retvar.
      * by apply shape_retvar.
    + intros Hrv. rewrite Hrv in Hx. by apply shape_retvar.
  - intros tree r st' H. by eapply _visit_next_function_inv.
Qed.

End Claims.

(** * The statements on sample programs *)

(** C9 on [for i in xs: break]: nothing is lowered. *)
Lemma visit_For_other_iterable_witness :
  is_range_call (load "xs") = false
  ∧ visit_stmt self0 1 (ast.For (store "i") (load "xs") [ast.Break]) st0
    = Ok (tt, st0).
Proof.
  split; [reflexivity|].
  apply (visit_For_other_iterable self0 0). reflexivity.
Defined.

(** C10 on [int()], [int(7)] and [int(1, 2)]. *)
Lemma call_int_arguments_witness :
  skipping st0 = false
  ∧ visit self0 2 (ast.Call "int" [] []) st0
    = Raise (IndexError "index out of range")
  ∧ visit self0 2 (ast.Call "int" [num 7] []) st0 = Ok (Int 7, st0)
  ∧ visit self0 2 (ast.Call "int" [num 1; num 2] []) st0
    = Raise (TypeError "Too much arguments for 'int()'").
Proof.
  destruct (call_int_arguments self0 0 [] st0 eq_refl) as (H0 & H1 & H2).
  split; [reflexivity|]. split; [exact H0|]. split; [|apply H2].
  rewrite H1. reflexivity.
Defined.

(** C6 on ["a" + 1]: one operand is a string literal, the operator is [+],
    and the lowering raises instead of returning a string literal. *)
Lemma binop_mixed_counterexample :
  visit self0 1 (ast.Str "a") st0 = Ok (Str "a", st0)
  ∧ visit self0 1 (num 1) st0 = Ok (Int 1, st0)
  ∧ visit self0 2 (ast.BinOp (ast.Str "a") ast.Add (num 1)) st0
    = Raise (TypeError "'+' operation requires two string arguments").
Proof. repeat split. Qed.

(** C6 (amended) on ["ab" + "cd"]. *)
Lemma visit_BinOp_strings_witness :
  is_Str (Str "ab") || is_Str (Str "cd") = true
  ∧ visit self0 2 (ast.BinOp (ast.Str "ab") ast.Add (ast.Str "cd")) st0
    = Ok (Str "abcd", st0).
Proof.
  split; [reflexivity|].
  exact (visit_BinOp_strings self0 1 (ast.Str "ab") ast.Add (ast.Str "cd")
           st0 (Str "ab") st0 (Str "cd") st0 eq_refl eq_refl eq_refl).
Defined.

(** C7 on the targets [(a, b)]: three values are too many, two are
    assigned one after the other in the current state. *)
Lemma _assign_arity_witness :
  let a := Reg "a" 32 0 in
  let b := Reg "b" 32 0 in
  (1 < length [a; b])%nat
  ∧ _assign (PyTuple [Int 1; Int 2; Int 3]) (RawList [RawName "a"; RawName "b"])
            (PyTuple [a; b]) st0
    = Raise (ValueError "too many values to unpack (expected 3)")
  ∧ (bodies ∘ fsm) <$> final (_assign (PyTuple [Int 1; Int 2])
                                (RawList [RawName "a"; RawName "b"])
                                (PyTuple [a; b]) st0)
    = Some [(0, [Subst a (Int 1)], None); (0, [Subst b (Int 2)], None)].
Proof.
  intros a b.
  destruct (_assign_arity [RawName "a"; RawName "b"] [a; b] st0)
    as (Hmany & _ & Heach & _); [cbn; lia|reflexivity|].
  split; [cbn; lia|]. split.
  - apply (Hmany [Int 1; Int 2; Int 3]). cbn. lia.
  - rewrite (Heach [Int 1; Int 2] eq_refl). reflexivity.
Defined.

(** C8 on [sleep(4)]: the counter is 4 bits wide, the specification says 3. *)
Lemma sleep_width_counterexample :
  m_regs (fsm_m (sleep 4 (fsm st0))) = [Reg "_tmp_0" 4 0]
  ∧ claimed_sleep_width 4 = 3%Z.
Proof. split; reflexivity. Qed.

(** C8 (amended) on [sleep(5)]: 4 bits, as the specification says. *)
Lemma sleep_lowering_witness :
  (0 < 5)%Z
  ∧ m_regs (fsm_m (sleep 5 (fsm st0))) = [Reg "_tmp_0" 4 0]
  ∧ (bit_length 5 + 1 = claimed_sleep_width 5)%Z.
Proof.
  destruct (sleep_lowering 5 (fsm st0)) as (Hregs & _ & _ & _ & Hwidth).
  destruct (Hwidth eq_refl) as (_ & _ & Hiff).
  split; [reflexivity|]. split; [exact Hregs|].
  reflexivity.
Defined.

(** C2 on [while f(): pass], lowered from state 0: the condition takes two
    states, and the branch of the loop leaves state 2. *)
Lemma while_call_counterexample :
  current (fsm st_f) = 0
  ∧ skipping st_f = false
  ∧ (jumps ∘ fsm) <$> final (visit_stmt self0 5 while_call st_f)
    = Some [goto 0 1; goto 1 2;
            mk_transition 2 3 (Some (Reg "_thread_th_tmp_0_1" 32 0)) (Some 4);
            goto 3 2].
Proof. repeat split. Qed.

(** C2 (amended) on [while x: (if x: break); continue]. *)
Lemma visit_While_lowering_witness :
  let st2 := state_after (forM (body_break "x") (visit_stmt self0 3))
                         (enter_while st_x) in
  skipping st_x = false
  ∧ visit self0 3 (load "x") st_x = Ok (reg_x, st_x)
  ∧ forM (body_break "x") (visit_stmt self0 3) (enter_while st_x) = Ok (tt, st2)
  ∧ ∃ st', visit_stmt self0 4 while_break st_x = Ok (tt, st')
           ∧ jumps (fsm st')
             = [goto 0 1; mk_transition 2 3 (Some reg_x) (Some 4);
                mk_transition 1 2 (Some reg_x) (Some 6); goto 5 1;
                goto 3 6; goto 4 1]
           ∧ scope_getUnresolvedBreak (scope st') = [].
Proof.
  intros st2.
  assert (H1 : skipping st_x = false) by reflexivity.
  assert (H2 : visit self0 3 (load "x") st_x = Ok (reg_x, st_x))
    by (vm_compute; reflexivity).
  assert (H3 : forM (body_break "x") (visit_stmt self0 3) (enter_while st_x)
               = Ok (tt, st2)) by (vm_compute; reflexivity).
  destruct (visit_While_lowering self0 3 (load "x") (body_break "x") st_x
              reg_x st_x st2 H1 H2 H3)
    as (st' & Hv & Hj & _ & _ & Hb & _).
  split; [exact H1|]. split; [exact H2|]. split; [exact H3|].
  exists st'. split; [exact Hv|]. split; [|exact Hb].
  rewrite Hj. vm_compute. reflexivity.
Defined.

(** C1 on [for i in range(f()): pass], lowered from state 0: the header
    takes two states, and [i] is initialised in state 2. *)
Lemma for_call_counterexample :
  current (fsm st_f) = 0
  ∧ skipping st_f = false
  ∧ (bodies ∘ fsm) <$> final (visit_stmt self0 6 for_call st_f)
    = Some [(1, [Subst (Reg "_thread_th_tmp_0_1" 32 0) (Int 3)], None);
            (2, [Subst (Reg "_thread_th_i_2" 32 0) (Int 0)], None);
            (4, [Subst (Reg "_thread_th_i_2" 32 0)
                   (Binary Plus (Reg "_thread_th_i_2" 32 0) (Int 1))], None)].
Proof. repeat split. Qed.

(** C1 (amended) on [for i in range(10): (if i: break); continue]. *)
Lemma visit_For_lowering_witness :
  let st1 := state_after (visit self0 3 (store "i")) st0 in
  let st2 := state_after (forM (body_break "i") (visit_stmt self0 3))
                         (enter_for "_thread_th_i_0" reg_i (Int 0) st1) in
  skipping st0 = false
  ∧ range_nodes (visit self0 3) [num 10] st0 = Ok ((Int 0, Int 10, Int 1), st0)
  ∧ visit self0 3 (store "i") st0 = Ok (reg_i, st1)
  ∧ forM (body_break "i") (visit_stmt self0 3)
         (enter_for "_thread_th_i_0" reg_i (Int 0) st1) = Ok (tt, st2)
  ∧ ∃ st', visit_stmt self0 4 for_break st0 = Ok (tt, st')
           ∧ jumps (fsm st')
             = [goto 0 1; mk_transition 2 3 (Some reg_i) (Some 4); goto 5 1;
                mk_transition 1 2 (Some (Binary LessThan reg_i (Int 10))) (Some 6);
                goto 3 6; goto 4 5]
           ∧ bodies (fsm st')
             = [(0, [Subst reg_i (Int 0)], None);
                (5, [Subst reg_i (Binary Plus reg_i (Int 1))], None)].
Proof.
  intros st1 st2.
  assert (H1 : skipping st0 = false) by reflexivity.
  assert (H2 : range_nodes (visit self0 3) [num 10] st0
               = Ok ((Int 0, Int 10, Int 1), st0)) by reflexivity.
  assert (H3 : visit self0 3 (store "i") st0 = Ok (reg_i, st1))
    by (vm_compute; reflexivity).
  assert (H4 : forM (body_break "i") (visit_stmt self0 3)
                 (enter_for "_thread_th_i_0" reg_i (Int 0) st1) = Ok (tt, st2))
    by (vm_compute; reflexivity).
  destruct (visit_For_lowering self0 3 (store "i") [num 10] [] (body_break "i")
              st0 (Int 0) (Int 10) (Int 1) st0 "_thread_th_i_0" 32%Z 0%Z st1 st2
              H1 H2 H3 H4)
    as (st' & Hv & _ & _ & _ & _ & _ & Hb & Hj & _).
  split; [exact H1|]. split; [exact H2|]. split; [exact H3|].
  split; [exact H4|].
  exists st'. split; [exact Hv|]. split.
  - rewrite Hj. vm_compute. reflexivity.
  - rewrite Hb. vm_compute. reflexivity.
Defined.

(** C5 on a second [break]: [skip()] holds, and the statement is lowered
    all the same, registering a patch and consuming state 1. *)
Lemma break_not_skipped_counterexample :
  skipping st_break = true
  ∧ current (fsm st_break) = 1
  ∧ (current ∘ fsm) <$> final (visit_stmt self0 1 ast.Break st_break) = Some 2
  ∧ (scope_getUnresolvedBreak ∘ scope)
      <$> final (visit_stmt self0 1 ast.Break st_break) = Some [0; 1].
Proof. repeat split. Qed.

(** C5 (amended) on [x = 0] and [while x: pass] after a [break], a
    second [break] there, and [if x: break] at the start of a loop body:
    after it the break is unresolved and [skip()] does not hold. *)
Lemma skip_guarded_witness :
  let st_if := state_after (visit_stmt self0 3 (ast.If (load "x") [ast.Break] []))
                           (enter_while st_x) in
  skipping st_break = true
  ∧ visit_stmt self0 2 (ast.Assign [store "x"] (num 0)) st_break
    = Ok (tt, st_break)
  ∧ forM [ast.Assign [store "x"] (num 0); ast.While (load "x") [ast.Pass]]
         (visit_stmt self0 2) st_break
    = Ok (tt, st_break)
  ∧ (current ∘ fsm) <$> final (visit_stmt self0 1 ast.Break st_break) = Some 2
  ∧ skipping st_if = false
  ∧ scope_getUnresolvedBreak (scope st_if) = [3].
Proof.
  intros st_if.
  destruct (skip_guarded self0 0 (ast.Assign [store "x"] (num 0))
              [ast.Assign [store "x"] (num 0); ast.While (load "x") [ast.Pass]]
              st_break st_break) as (Hone & Hall & _ & Hbreak & _).
  destruct (skip_guarded self0 3 (ast.If (load "x") [ast.Break] []) []
              (enter_while st_x) st_if) as (_ & _ & Hkeep & _).
  split; [reflexivity|]. split; [apply Hone; reflexivity|].
  split; [apply Hall; reflexivity|].
  split; [rewrite Hbreak; reflexivity|].
  split; [|vm_compute; reflexivity].
  rewrite Hkeep; [reflexivity|reflexivity|vm_compute; reflexivity].
Defined.

(** C3 on [if 1: return] followed by [h()] inside a call: the call of
    [h] is lowered, and the return of the caller is still unresolved after
    the frame of [h] is popped. *)
Lemma pending_return_counterexample :
  skipping st_pending = false
  ∧ scope_getUnresolvedReturn (scope st_pending) = [(1, PyNone)]
  ∧ fst <$> (match visit self0 4 (ast.Call "h" [] []) st_pending with
             | Ok r => Some r
             | _ => None
             end) = Some (Int 0)
  ∧ (scope_getUnresolvedReturn ∘ scope)
      <$> final (visit self0 4 (ast.Call "h" [] []) st_pending)
    = Some [(1, PyNone)].
Proof. repeat split. Qed.

(** C3 (amended) on [g(1)] with [def g(a, b=2)]: [a] and the default of
    [b] are bound to registers of their own in the state of the call, the
    frames after the call are those before it, and no return is
    outstanding. *)
Lemma call_inlining_witness :
  let call := ast.Call "g" [num 1] [] in
  let st' := state_after (visit self0 5 call) st_g in
  let a := Reg "_thread_th_a_0" 32 0 in
  let b := Reg "_thread_th_b_1" 32 0 in
  skipping st_g = false
  ∧ intrinsic_functions self0 !! "g" = None
  ∧ visit self0 5 call st_g = Ok (Reg "_thread_th_tmp_2_3" 32 0, st')
  ∧ views st' = views st_g
  ∧ scope_getUnresolvedReturn (scope st') = []
  ∧ scope_hasReturn (scope st') = false
  ∧ (∃ st3, args_bound self0 [("a", Int 1)]
              (upd_scope (pushScopeFrame (Some "call")) st_g) st3
            ∧ bodies (fsm st3) = [(0, [Subst a (Int 1)], None)]
            ∧ searchVariable "a" false (scope st3) = a)
  ∧ take 2 (bodies (fsm st'))
    = [(0, [Subst a (Int 1)], None); (0, [Subst b (Int 2)], None)].
Proof.
  intros call st' a b.
  assert (H1 : skipping st_g = false) by reflexivity.
  assert (H2 : intrinsic_functions self0 !! "g" = None) by reflexivity.
  assert (H3 : visit self0 5 call st_g = Ok (Reg "_thread_th_tmp_2_3" 32 0, st'))
    by (vm_compute; reflexivity).
  destruct (call_inlining self0 4 "g" [num 1] [] st_g _ st' H1
              ltac:(discriminate) ltac:(discriminate) H2 H3)
    as (tree & argvalues & kwvalues & s1 & s2 & s3 & s4 & s5 & s6 & Hc).
  destruct Hc as (Hget & Hargs & Hkws & _ & _ & _ & _ & _ & _
                  & Hviews & Hur & Hhr & _ & Hbound & _).
  split; [exact H1|]. split; [exact H2|]. split; [exact H3|].
  split; [exact Hviews|]. split; [rewrite Hur; reflexivity|].
  split; [exact Hhr|].
  split; [|vm_compute; reflexivity].
  injection Hget as <-. injection Hargs as <- <-. injection Hkws as <- <-.
  exists s3. split; [exact Hbound|].
  destruct Hbound as (s & Hs & ->). vm_compute in Hs. subst s.
  split; vm_compute; reflexivity.
Defined.

(** [return 1] as the first statement of a call. *)
Lemma return_variable_fresh_example :
  let st' := state_after (visit_stmt self0 3 (ast.Return (Some (num 1)))) st_call in
  scope_getReturnVariable (scope st_call) = PyNone
  ∧ call_frame (frames (scope st_call)) ≠ None
  ∧ visit_stmt self0 3 (ast.Return (Some (num 1))) st_call = Ok (tt, st')
  ∧ scope_getReturnVariable (scope st') = Reg "_thread_th_tmp_0_1" 32 0
  ∧ bodies (fsm st') = [(0, [Subst (Reg "_thread_th_tmp_0_1" 32 0) (Int 1)], None)].
Proof.
  intros st'.
  assert (H1 : scope_getReturnVariable (scope st_call) = PyNone) by reflexivity.
  assert (H2 : call_frame (frames (scope st_call)) ≠ None) by discriminate.
  assert (H3 : visit_stmt self0 3 (ast.Return (Some (num 1))) st_call = Ok (tt, st'))
    by (vm_compute; reflexivity).
  destruct (return_variable_fresh self0 2 st_call) as (_ & Hfirst & _).
  destruct (Hfirst (num 1) st' H1 H2 eq_refl (fun v => eq_refl) H3)
    as (s1 & right & s2 & _ & _ & _ & _ & _ & Hret).
  split; [exact H1|]. split; [exact H2|]. split; [exact H3|].
  split; [|vm_compute; reflexivity].
  rewrite Hret. reflexivity.
Defined.

(** C4 at a clash of names: [def f(): tmp_1 = 5; return 7], called from a
    fresh visitor.  The register of [tmp_1] is named with the counter at 0,
    so the name generated for the return variable is [tmp_1] too, which the
    scope knows: the first return with a value allocates no register, the
    return variable is the register of the user's [tmp_1], and the return
    stores 7 into it. *)
Theorem return_variable_clash :
  let tmp_1 := Reg "_thread_th_tmp_1_0" 32 0 in
  let st' := state_after (visit self0 5 (ast.Call "f" [] [])) st_clash in
  visit self0 5 (ast.Call "f" [] []) st_clash = Ok (tmp_1, st')
  ∧ m_regs (fsm_m (fsm st')) = [tmp_1]
  ∧ bodies (fsm st')
    = [(1, [Subst tmp_1 (Int 5)], None); (2, [Subst tmp_1 (Int 7)], None)].
Proof.
  intros tmp_1 st'.
  split; [vm_compute; reflexivity|]. split; vm_compute; reflexivity.
Qed.

(** * Further properties of the visitor *)

(** ** Relating the states before and after a computation *)

Section Respects.

Context (R : CompileVisitor → CompileVisitor → Prop) `{!PreOrder R}.

Lemma respects_ret {A} (a : A) : respects R (ret a).
Proof. intros st a' st' [= <- <-]. reflexivity. Qed.

Lemma respects_raise {A} e : respects R (@raise A e).
Proof. by intros st a st'. Qed.

Lemma respects_bind {A B} (m : M A) (k : A → M B) :
  respects R m → (∀ a, respects R (k a)) → respects R (bind m k).
Proof.
  intros Hm Hk st b st' H.
  apply bind_Ok_inv in H as (a & st1 & H1 & H2).
  etrans; [by eapply Hm | by eapply Hk].
Qed.

Lemma respects_bind_ret {A B} (a : A) (k : A → M B) :
  respects R (k a) → respects R (bind (ret a) k).
Proof. intros H st b st' E. exact (H st b st' E). Qed.

Lemma respects_mapM {A B} (f : A → M B) (l : list A) :
  (∀ a, a ∈ l → respects R (f a)) → respects R (mapM f l).
Proof.
  induction l as [|a l IH]; intros Hf; cbn [mapM].
  - apply respects_ret.
  - apply respects_bind; [apply Hf; by left|]. intros b.
    apply respects_bind; [apply IH; intros; apply Hf; by right|].
    intros bs. apply respects_ret.
Qed.

Lemma respects_forM {A} (l : list A) (f : A → M unit) :
  (∀ a, a ∈ l → respects R (f a)) → respects R (forM l f).
Proof.
  induction l as [|a l IH]; intros Hf; cbn [forM].
  - apply respects_ret.
  - apply respects_bind; [apply Hf; by left|].
    intros _. apply IH. intros; apply Hf; by right.
Qed.

Lemma respects_ask_scope {A} (f : ScopeFrameList → A) : respects R (ask_scope f).
Proof. intros st a st' [= <- <-]. reflexivity. Qed.

Lemma respects_getFsmCount : respects R getFsmCount.
Proof. intros st a st' [= <- <-]. reflexivity. Qed.

Lemma respects_first {A} (l : list A) : respects R (first l).
Proof. destruct l; [apply respects_raise | apply respects_ret]. Qed.

Lemma respects_skip : respects R skip.
Proof.
  intros st a st' H. rewrite skip_eq in H. injection H as <- <-. reflexivity.
Qed.

Lemma respects_compare_chain prev ops comparators :
  respects R (compare_chain prev ops comparators).
Proof.
  revert prev comparators. induction ops as [|o ops IH]; intros prev cs.
  - apply respects_ret.
  - cbn [compare_chain]. destruct cs as [|c cs]; [apply respects_raise|].
    destruct o as [o|]; [|apply respects_raise].
    apply respects_bind; [apply IH|]. intros rest. apply respects_ret.
Qed.

Lemma respects_BinOp_result left o right : respects R (BinOp_result left o right).
Proof.
  unfold BinOp_result, _string_operation_plus.
  repeat case_match; first [apply respects_ret | apply respects_raise].
Qed.

(** [_assign] respects what the binding of one target respects. *)
Lemma respects__assign_depth d right raw_left left :
  (∀ dst var val, respects R (setAssignBind dst var val)) →
  (tuple_depth right ≤ d)%nat → respects R (_assign right raw_left left).
Proof.
  intros Hbind. revert right raw_left left.
  assert (Hone : ∀ right raw_left left,
    respects R (let! raw := first (raw_as_tuple raw_left) in
                let! dst := first (as_tuple left) in
                setAssignBind raw dst right)).
  { intros. apply respects_bind; [apply respects_first|]. intros raw.
    apply respects_bind; [apply respects_first|]. intros dst. apply Hbind. }
  assert (Hflat : ∀ right raw_left left, is_tuple right = false →
    respects R (_assign right raw_left left)).
  { intros right raw_left left Hr.
    destruct right; try done; cbn [_assign];
      (destruct (1 <? length (as_tuple left))%nat; [apply respects_raise|apply Hone]). }
  induction d as [|d IH]; intros right raw_left left Hd.
  - apply Hflat. destruct right; try done. cbn in Hd. lia.
  - destruct (is_tuple right) eqn:Ht; [|by apply Hflat].
    destruct right as [|rs| | | | | | | | |]; try done.
    rewrite _assign_tuple. cbv zeta.
    destruct (length (as_tuple left) =? 1)%nat; [apply Hone|].
    destruct (length (as_tuple left) <? length rs)%nat; [apply respects_raise|].
    destruct (length rs <? length (as_tuple left))%nat; [apply respects_raise|].
    assert (Hrs : ∀ r, r ∈ rs → (tuple_depth r ≤ d)%nat).
    { intros r Hr%tuple_depth_elem. lia. }
    clear Hd Ht. generalize (raw_as_tuple raw_left) (as_tuple left).
    induction rs as [|r rs IHrs]; intros raws ds; [apply respects_ret|].
    destruct raws as [|raw raws]; [apply respects_ret|].
    destruct ds as [|dst ds]; [apply respects_ret|].
    cbn [assign_each]. apply respects_bind.
    + apply IH, Hrs. by left.
    + intros _. apply IHrs. intros r' Hr'. apply Hrs. by right.
Qed.

Lemma respects__assign right raw_left left :
  (∀ dst var val, respects R (setAssignBind dst var val)) →
  respects R (_assign right raw_left left).
Proof. intros H. by eapply respects__assign_depth. Qed.

End Respects.

Create HintDb respects discriminated.

#[local] Hint Resolve respects_ret respects_raise respects_ask_scope
  respects_getFsmCount respects_first respects_skip respects_compare_chain
  respects_BinOp_result : respects.

(** Splits a computation along its binds and its case distinctions and
    closes the steps known to respect the relation. *)
Ltac respects_steps :=
  repeat first
    [ progress (intros)
    | match goal with |- PreOrder _ => apply _ end
    | solve [eauto with respects typeclass_instances]
    | apply respects_bind
    | apply respects_mapM
    | apply respects_forM
    | match goal with
      | |- respects _ (match ?x with _ => _ end) => destruct x
      | |- respects _ (if ?b then _ else _) => destruct b
      | |- respects _ (let '(_, _) := ?p in _) => destruct p
      end ].

(** ** Lowering only ever adds *)

#[local] Instance fsm_extends_preorder : PreOrder fsm_extends.
Proof.
  split.
  - by intros f.
  - intros f g h (H1 & H2 & H3 & H4 & H5) (G1 & G2 & G3 & G4 & G5).
    repeat split; try (by etrans); lia.
Qed.

#[local] Instance extends_preorder : PreOrder extends.
Proof.
  split.
  - by intros st.
  - intros st1 st2 st3 (H1 & H2 & H3) (G1 & G2 & G3).
    split; [by etrans|]. split; [by etrans|lia].
Qed.

Lemma fsm_extends_inc f : fsm_extends f (FSM_inc f).
Proof. repeat split; cbn; try done; lia. Qed.

Lemma fsm_extends_goto_from src dst cond else_dst f :
  fsm_extends f (FSM_goto_from src dst cond else_dst f).
Proof. repeat split; cbn; try done. by apply prefix_app_r. Qed.

Lemma fsm_extends_add_statement stmts cond f :
  fsm_extends f (FSM_add_statement stmts cond f).
Proof. repeat split; cbn; try done. by apply prefix_app_r. Qed.

Lemma respects_on_fsm f :
  (∀ x, fsm_extends x (f x)) → respects extends (on_fsm f).
Proof. intros Hf st [] st' [= <-]. split; [apply Hf|by split]. Qed.

Lemma respects_incFsmCount : respects extends incFsmCount.
Proof. apply respects_on_fsm, fsm_extends_inc. Qed.

Lemma respects_on_scope f :
  (∀ s, binds s `prefix_of` binds (f s)) → respects extends (on_scope f).
Proof. intros Hf st [] st' [= <-]. split; [done|]. split; [apply Hf|done]. Qed.

Lemma respects_setFsm src dst cond else_dst :
  respects extends (setFsm src dst cond else_dst).
Proof.
  intros st [] st' [= <-]. repeat split; cbn; try done. by apply prefix_app_r.
Qed.

Lemma respects_setFsmLoop b e i s : respects extends (setFsmLoop b e i s).
Proof. by intros st [] st' [= <-]. Qed.

Lemma respects__tmp_name prefix : respects extends (_tmp_name prefix).
Proof. intros st a st' [= <- <-]. repeat split; cbn; try done; lia. Qed.

(** The scope operations of the visitor leave the bind log as it is, but
    [addBind], which appends to it. *)
Lemma binds_on_current f s : binds (on_current f s) = binds s.
Proof. unfold on_current. by destruct (frames s). Qed.

Lemma binds_popScopeFrame s : binds (popScopeFrame s) = binds s.
Proof. unfold popScopeFrame. by destruct (frames s) as [|? [|? ?]]. Qed.

Lemma binds_addVariable name v s : binds (addVariable name v s) = binds s.
Proof.
  unfold addVariable. destruct (bind_declared _ _ _); [done|].
  apply binds_on_current.
Qed.

Ltac binds_same :=
  intros; apply reflexive_eq;
  first [ reflexivity | apply binds_on_current | apply binds_popScopeFrame
        | apply binds_addVariable ].

Lemma respects_scope_op f :
  (∀ s, binds (f s) = binds s) → respects extends (on_scope f).
Proof. intros Hf. apply respects_on_scope. intros s. by rewrite Hf. Qed.

Lemma respects_addBind state dst v cond :
  respects extends (on_scope (addBind state dst v cond)).
Proof. apply respects_on_scope. intros s. by apply prefix_app_r. Qed.

#[local] Hint Resolve respects_setFsm respects_setFsmLoop respects__tmp_name
  respects_addBind respects_incFsmCount : respects.
#[local] Hint Extern 1 (respects extends (on_fsm _)) =>
  apply respects_on_fsm; intros;
  first [ apply fsm_extends_inc | apply fsm_extends_goto_from
        | apply fsm_extends_add_statement ] : respects.
#[local] Hint Extern 2 (respects extends (on_scope _)) =>
  apply respects_scope_op; intros;
  first [ reflexivity | apply binds_on_current | apply binds_popScopeFrame
        | apply binds_addVariable ] : respects.

Section Extends.

Variable self : Config.

Lemma respects_makeVariable name : respects extends (makeVariable self name).
Proof.
  intros st a st' H. rewrite makeVariable_eq in H. injection H as <- <-.
  repeat split; cbn; try done; try lia. by apply prefix_app_r.
Qed.

Lemma respects_getVariable name store :
  respects extends (getVariable self name store).
Proof.
  pose proof respects_makeVariable.
  unfold getVariable. respects_steps.
Qed.

Lemma respects_getTmpVariable : respects extends (getTmpVariable self).
Proof. pose proof respects_getVariable. unfold getTmpVariable. respects_steps. Qed.

Lemma respects_getFunction name : respects extends (getFunction self name).
Proof. unfold getFunction. respects_steps. Qed.

Lemma respects_var_name var : respects extends (var_name var).
Proof. unfold var_name. respects_steps. Qed.

Lemma respects_setBind var val cond : respects extends (setBind var val cond).
Proof. pose proof respects_var_name. unfold setBind. respects_steps. Qed.

Lemma respects_setArgBind name val : respects extends (setArgBind self name val).
Proof.
  pose proof respects_getVariable. pose proof respects_setBind.
  unfold setArgBind. respects_steps.
Qed.

Lemma respects_setAssignBind dst var val :
  respects extends (setAssignBind dst var val).
Proof. pose proof respects_setBind. unfold setAssignBind. respects_steps. Qed.

(** *** The methods, over visits that only add *)

Section Methods.

Variable visit : ast.expr → M value.
Variable visit_stmt : ast.stmt → M unit.
Hypothesis Hvisit : ∀ e, respects extends (visit e).
Hypothesis Hvisit_stmt : ∀ s, respects extends (visit_stmt s).
Hypothesis Hintrinsics : intrinsics_extend self.

Lemma extends__assign right raw_left left :
  respects extends (_assign right raw_left left).
Proof. apply respects__assign; [apply _|]. apply respects_setAssignBind. Qed.

Lemma extends_print_display args : respects extends (print_display visit args).
Proof.
  pose proof respects_setBind.
  assert (∀ arg, respects extends (print_arg visit arg)).
  { intros arg. unfold print_arg. respects_steps. }
  unfold print_display. respects_steps.
Qed.

Lemma extends_visit_Assign targets value :
  respects extends (visit_Assign visit targets value).
Proof. pose proof extends__assign. unfold visit_Assign. respects_steps. Qed.

Lemma extends_visit_AugAssign target o value :
  respects extends (visit_AugAssign visit target o value).
Proof. pose proof respects_setBind. unfold visit_AugAssign. respects_steps. Qed.

Lemma extends_visit_If test body orelse :
  respects extends (visit_If visit visit_stmt test body orelse).
Proof. unfold visit_If, pushScope, popScope. respects_steps. Qed.

Lemma extends_visit_While test body :
  respects extends (visit_While visit visit_stmt test body).
Proof.
  unfold visit_While, pushScope, popScope, getUnresolvedBreak,
    getUnresolvedContinue, clearBreak, clearContinue.
  respects_steps.
Qed.

Lemma extends_visit_For target iter body :
  respects extends (visit_For visit visit_stmt target iter body).
Proof.
  pose proof respects_setBind.
  unfold visit_For, range_nodes, pushScope, popScope, getUnresolvedBreak,
    getUnresolvedContinue, clearBreak, clearContinue.
  respects_steps.
Qed.

Lemma extends__call_Name_intrinsic_function name f args keywords :
  intrinsic_functions self !! name = Some f →
  respects extends (_call_Name_intrinsic_function visit f args keywords).
Proof.
  intros Hf. unfold _call_Name_intrinsic_function. respects_steps.
  intros st v st' H.
  destruct (f a a0 (fsm st)) as [[v' f']| |] eqn:E; try done.
  injection H as <- <-.
  split; [by eapply Hintrinsics|done].
Qed.

Lemma extends__call_Name_function args keywords name :
  respects extends (_call_Name_function self visit visit_stmt args keywords name).
Proof.
  pose proof respects_getFunction. pose proof respects_setArgBind.
  assert (Hpos : ∀ params pos argvalues,
    respects extends (bind_positional self params pos argvalues)).
  { intros params pos argvalues. revert pos.
    induction argvalues as [|a l IH]; intros pos; cbn [bind_positional];
      respects_steps. }
  unfold _call_Name_function, _visit_next_function, close_call, bind_default,
    pushScope, popScope, getReturnVariable, getUnresolvedReturn, clearBreak,
    clearContinue, clearReturn, clearReturnVariable.
  respects_steps.
Qed.

Lemma extends_visit_Call func args keywords :
  respects extends (visit_Call self visit visit_stmt func args keywords).
Proof.
  pose proof extends_print_display. pose proof extends__call_Name_function.
  unfold visit_Call, _call_Name, _call_Name_print, _call_Name_int.
  apply (respects_bind extends); [apply (respects_skip extends)|].
  intros [|]; [apply (respects_ret extends)|].
  destruct (String.eqb func "print"); [done|].
  destruct (String.eqb func "int"); [respects_steps|].
  destruct (intrinsic_functions self !! func) eqn:E; [|done].
  by eapply extends__call_Name_intrinsic_function.
Qed.

Lemma extends_visit_Return value :
  respects extends (visit_Return self visit value).
Proof.
  pose proof respects_getTmpVariable. pose proof respects_setBind.
  unfold visit_Return, addReturn, getReturnVariable, setReturnVariable.
  respects_steps.
Qed.

Lemma extends_visit_BoolOp o values :
  respects extends (visit_BoolOp visit o values).
Proof.
  unfold visit_BoolOp. respects_steps.
  generalize (tail values) a0. intros vs. induction vs; respects_steps.
Qed.

End Methods.

(** Every visit only adds to what was emitted before it, when the
    intrinsics do. *)
Lemma visit_extends n :
  intrinsics_extend self →
  (∀ e, respects extends (visit self n e))
  ∧ (∀ s, respects extends (visit_stmt self n s)).
Proof.
  intros Hintr. induction n as [|n [IHe IHs]]; [by split|].
  pose proof respects_getVariable. pose proof respects_setBind.
  split.
  - intros e. destruct e; cbn [visit].
    + unfold visit_Num. respects_steps.
    + respects_steps.
    + unfold visit_NameConstant. respects_steps.
    + unfold visit_Name. respects_steps.
    + unfold visit_Attribute. respects_steps.
    + unfold visit_UnaryOp. respects_steps.
    + unfold visit_BinOp. respects_steps.
    + by apply extends_visit_BoolOp.
    + unfold visit_Compare. respects_steps.
    + respects_steps.
    + respects_steps.
    + respects_steps.
    + by apply extends_visit_Call.
  - intros s. destruct s; cbn [visit_stmt].
    + respects_steps.
    + respects_steps.
    + respects_steps.
    + respects_steps.
    + by apply extends_visit_Assign.
    + by apply extends_visit_AugAssign.
    + by apply extends_visit_If.
    + by apply extends_visit_While.
    + by apply extends_visit_For.
    + respects_steps.
    + respects_steps.
    + unfold visit_Break, addBreak. respects_steps.
    + unfold visit_Continue, addContinue. respects_steps.
    + by apply extends_visit_Return.
    + respects_steps.
    + respects_steps.
    + unfold visit_Print. pose proof (extends_print_display _ IHe).
      respects_steps.
Qed.

End Extends.

(** ** Expressions without calls *)

(** The visit of an expression respects [R] when the visit of each name in
    it does, as long as no call is involved: [ok] holds of no call, and of
    the operands of an expression it holds of. *)
Section Expressions.

Context (R : CompileVisitor → CompileVisitor → Prop) `{!PreOrder R}.
Variable self : Config.
Variable ok : ast.expr → bool.

Hypothesis ok_Call : ∀ func args keywords, ok (ast.Call func args keywords) = false.
Hypothesis ok_Name : ∀ id ctx,
  ok (ast.Name id ctx) = true → respects R (visit_Name self id ctx).
Hypothesis ok_Attribute : ∀ v attr, ok (ast.Attribute v attr) = true → ok v = true.
Hypothesis ok_UnaryOp : ∀ o v, ok (ast.UnaryOp o v) = true → ok v = true.
Hypothesis ok_BinOp : ∀ l o r,
  ok (ast.BinOp l o r) = true → ok l = true ∧ ok r = true.
Hypothesis ok_BoolOp : ∀ o values,
  ok (ast.BoolOp o values) = true → ∀ v, v ∈ values → ok v = true.
Hypothesis ok_Compare : ∀ l ops comparators,
  ok (ast.Compare l ops comparators) = true →
  ok l = true ∧ ∀ c, c ∈ comparators → ok c = true.
Hypothesis ok_IfExp : ∀ test body orelse,
  ok (ast.IfExp test body orelse) = true →
  ok test = true ∧ ok body = true ∧ ok orelse = true.
Hypothesis ok_Tuple : ∀ elts, ok (ast.Tuple elts) = true → ∀ e, e ∈ elts → ok e = true.
Hypothesis ok_List : ∀ elts, ok (ast.List elts) = true → ∀ e, e ∈ elts → ok e = true.

Lemma visit_ok n e : ok e = true → respects R (visit self n e).
Proof.
  revert e. induction n as [|n IH]; [done|].
  intros e He. destruct e; cbn [visit].
  - unfold visit_Num. respects_steps.
  - respects_steps.
  - unfold visit_NameConstant. respects_steps.
  - by apply ok_Name.
  - apply ok_Attribute in He. unfold visit_Attribute. respects_steps.
  - apply ok_UnaryOp in He. unfold visit_UnaryOp. respects_steps.
  - apply ok_BinOp in He as [Hl Hr]. unfold visit_BinOp. respects_steps.
  - pose proof (ok_BoolOp _ _ He) as Hvs. unfold visit_BoolOp.
    destruct (getVeriloggenOp_boolop _) as [o|]; [|respects_steps].
    destruct values as [|v0 vs]; [by intros st a st' H|].
    cbn [first tail]. apply respects_bind_ret.
    apply (respects_bind R); [apply IH, Hvs; by left|].
    intros rslt.
    assert (Hvs' : ∀ v', v' ∈ vs → ok v' = true)
      by (intros v' Hv'; apply Hvs; by right).
    clear Hvs He. revert rslt.
    induction vs as [|v' vs IHvs]; intros rslt; [respects_steps|].
    apply (respects_bind R); [apply IH, Hvs'; by left|].
    intros r. apply IHvs. intros v'' Hv''. apply Hvs'. by right.
  - apply ok_Compare in He as [Hl Hcs]. unfold visit_Compare. respects_steps.
  - apply ok_IfExp in He as (Ht & Hb & Ho). respects_steps.
  - pose proof (ok_Tuple _ He). respects_steps.
  - pose proof (ok_List _ He). respects_steps.
  - by rewrite ok_Call in He.
Qed.

End Expressions.

#[local] Instance same_flow_preorder : PreOrder same_flow.
Proof.
  split.
  - by intros st.
  - intros st1 st2 st3 (H1 & H2 & H3 & H4 & H5) (G1 & G2 & G3 & G4 & G5).
    repeat split; congruence.
Qed.

Lemma forallb_elem_of {A} (f : A → bool) (l : list A) :
  forallb f l = true → ∀ x, x ∈ l → f x = true.
Proof.
  induction l as [|a l IH]; cbn [forallb]; intros H x Hx.
  - by apply elem_of_nil in Hx.
  - apply andb_true_iff in H as [Ha Hl].
    apply elem_of_cons in Hx as [->|Hx]; [done|by apply IH].
Qed.

Lemma same_flow_getVariable self name store :
  respects same_flow (getVariable self name store).
Proof.
  assert (respects same_flow (makeVariable self name)).
  { intros st a st' H. rewrite makeVariable_eq in H. by injection H as <- <-. }
  assert (∀ v, respects same_flow (on_scope (addVariable name v))).
  { intros v st [] st' [= <-]. repeat split. cbn. apply binds_addVariable. }
  unfold getVariable. respects_steps.
Qed.

Lemma unchanged_getVariable self name :
  respects eq (getVariable self name false).
Proof. unfold getVariable. cbn [negb]. respects_steps. Qed.

Ltac ok_closure :=
  intros *; cbn [call_free store_free]; rewrite ?andb_true_iff; intros ?;
  repeat (first [split | progress intros | rewrite andb_true_iff]);
  intuition eauto using forallb_elem_of.

(** A call-free expression costs no state.  The visit of an expression in
    which no call occurs leaves the control flow emitted so far as it is:
    the state counter, the transitions, the statements, the bind log and
    the loop descriptors (it may declare the register of a name it
    stores to).  When no name is stored to either, the visit leaves the
    whole compiler state as it is. *)
Theorem call_free_expression self n e st v st' :
  call_free e = true →
  visit self n e st = Ok (v, st') →
  same_flow st st' ∧ (store_free e = true → st' = st).
Proof.
  intros Hcf H. split.
  - revert H. apply (visit_ok same_flow self call_free); try done;
      try solve [ok_closure].
    intros id ctx _. pose proof (same_flow_getVariable self).
    unfold visit_Name. respects_steps.
  - intros Hsf. symmetry. revert H.
    apply (visit_ok eq self (fun e => call_free e && store_free e));
      try done; try solve [ok_closure]; try solve [by rewrite Hcf, Hsf].
    intros id [] Hid; [|done].
    pose proof (unchanged_getVariable self).
    unfold visit_Name. respects_steps.
Qed.

(** Lowering only ever adds.  When every registered intrinsic continues
    the FSM it is handed, so does every visit that succeeds: the state
    counter does not go back, and the transitions, the statements attached
    to states, the registers of the module and the bind log are the ones
    there were before, in place, followed by the new ones. *)
Theorem lowering_only_adds self n st st' :
  intrinsics_extend self →
  (∀ e v, visit self n e st = Ok (v, st') → extends st st')
  ∧ (∀ s, visit_stmt self n s st = Ok (tt, st') → extends st st').
Proof.
  intros Hintr. destruct (visit_extends self n Hintr) as [He Hs].
  split.
  - intros e v H. by eapply He.
  - intros s H. by eapply Hs.
Qed.

(** ** If-statements *)

(** An if-statement that is not skipped.  The condition is lowered first;
    with [cur] the state current after that, the then-branch is lowered
    from [cur + 1] in a frame of its own, and [mid] is the state it ends
    in.  Without an else-branch the one transition emitted after the
    branch is [goto_from(cur, cur + 1, test, mid)], and the lowering ends at
    [mid]: no state is spent on the join.  With an else-branch it is lowered
    from [mid + 1] in a frame of its own, ends in [end], and the transitions
    emitted after it are [goto_from(cur, cur + 1, test, mid + 1)] and the
    jump over the else-branch, [goto_from(mid, end)]. *)
Theorem visit_If_lowering self n cond body orelse st test st1 st2 :
  skipping st = false →
  visit self n cond st = Ok (test, st1) →
  forM body (visit_stmt self n) (enter_branch st1) = Ok (tt, st2) →
  let cur := current (fsm st1) in
  let mid := current (fsm st2) in
  (orelse = [] →
   visit_stmt self (S n) (ast.If cond body orelse) st
   = Ok (tt, upd_fsm (FSM_goto_from cur (S cur) (guard test) (Some mid))
               (upd_scope popScopeFrame st2)))
  ∧ (∀ st3,
       orelse ≠ [] →
       forM orelse (visit_stmt self n) (enter_branch (upd_scope popScopeFrame st2))
         = Ok (tt, st3) →
       let end_ := current (fsm st3) in
       visit_stmt self (S n) (ast.If cond body orelse) st
       = Ok (tt, upd_fsm (FSM_goto_from mid end_ None None)
                   (upd_fsm (FSM_goto_from cur (S cur) (guard test) (Some (S mid)))
                      (upd_scope popScopeFrame st3)))).
Proof.
  intros Hskip Hcond Hbody cur mid. split.
  - intros ->. cbn [visit_stmt]. unfold visit_If.
    rewrite (bind_Ok _ _ _ _ _ (skip_eq st)), Hskip.
    rewrite (bind_Ok _ _ _ _ _ Hcond).
    repeat run_step Hbody.
    cbn [length Nat.eqb]. apply setFsm_eq.
  - intros st3 Helse Horelse end_. cbn [visit_stmt]. unfold visit_If.
    rewrite (bind_Ok _ _ _ _ _ (skip_eq st)), Hskip.
    rewrite (bind_Ok _ _ _ _ _ Hcond).
    repeat run_step Hbody.
    destruct orelse as [|s orelse]; [done|]. cbn [length Nat.eqb].
    repeat run_step Horelse.
    apply setFsm_eq.
Qed.

(** ** Assignments *)

#[local] Instance attached_here_preorder : PreOrder attached_here.
Proof.
  split.
  - intros st. repeat split. exists []. by rewrite app_nil_r.
  - intros st1 st2 st3 (H1 & H2 & H3 & a & Ha & Hf) (G1 & G2 & G3 & b & Hb & Hg).
    split; [congruence|]. split; [congruence|]. split; [congruence|].
    exists (a ++ b). split.
    + by rewrite Hb, Ha, app_assoc.
    + apply Forall_app. split; [done|]. by rewrite H1 in Hg.
Qed.

Lemma attached_setBind var val : respects attached_here (setBind var val PyNone).
Proof.
  intros st [] st' H. unfold setBind in H.
  rewrite (bind_Ok _ _ _ _ _ (on_fsm_eq _ _)) in H.
  rewrite (bind_Ok _ _ _ _ _ (getFsmCount_eq _)) in H.
  apply bind_Ok_inv in H as (vname & s1 & Hname & H).
  assert (s1 = upd_fsm
                 (FSM_add_statement
                    [if is_None var then SingleStatement val else Subst var val]
                    (if is_None (if is_None var then PyNone else PyNone)
                     then None else Some (if is_None var then PyNone else PyNone)))
                 st) as ->.
  { destruct var; cbn in Hname; by try injection Hname as <- <-. }
  rewrite on_scope_eq in H. injection H as <-.
  repeat split. eexists. split; [reflexivity|].
  apply Forall_singleton. split; [done|]. by destruct (is_None var).
Qed.

Lemma attached_setAssignBind dst var val :
  respects attached_here (setAssignBind dst var val).
Proof.
  unfold setAssignBind. destruct (negb (is_numerical val)).
  - destruct (if is_None var then RawNone else dst); try done.
    intros st [] st' [= <-]. repeat split. exists []. by rewrite app_nil_r.
  - apply attached_setBind.
Qed.

(** An assignment takes one state.  When an assignment that is not skipped
    lowers, its value is lowered first and its targets after it, from left
    to right; every statement it emits is attached, without guard, to the
    state current once they have been lowered, however many targets there
    are and however they nest; no register is declared by the bindings;
    then comes the one transition to the next state, where the lowering
    ends. *)
Theorem visit_Assign_one_state self n targets value st st' :
  skipping st = false →
  visit_stmt self (S n) (ast.Assign targets value) st = Ok (tt, st') →
  ∃ right st1 lefts st2 added,
    visit self n value st = Ok (right, st1)
    ∧ mapM (visit self n) targets st1 = Ok (lefts, st2)
    ∧ bodies (fsm st') = bodies (fsm st2) ++ added
    ∧ Forall (fun b => b.1.1 = current (fsm st2) ∧ b.2 = None) added
    ∧ jumps (fsm st')
      = jumps (fsm st2) ++ [goto (current (fsm st2)) (S (current (fsm st2)))]
    ∧ current (fsm st') = S (current (fsm st2))
    ∧ fsm_m (fsm st') = fsm_m (fsm st2).
Proof.
  intros Hskip H. cbn [visit_stmt] in H. unfold visit_Assign in H.
  rewrite (bind_Ok _ _ _ _ _ (skip_eq st)), Hskip in H.
  apply bind_Ok_inv in H as (right & st1 & Hvalue & H).
  apply bind_Ok_inv in H as (lefts & st2 & Htargets & H).
  apply bind_Ok_inv in H as ([] & st3 & Hassign & H).
  rewrite (bind_Ok _ _ _ _ _ (setFsm_next_eq _)) in H.
  unfold incFsmCount in H. rewrite on_fsm_eq in H. injection H as <-.
  assert (Hatt : attached_here st2 st3).
  { revert Hassign. apply (respects_forM attached_here).
    intros p _. apply (respects__assign attached_here), attached_setAssignBind. }
  destruct Hatt as (Hc & Hj & Hm & added & Hb & Hf).
  exists right, st1, lefts, st2, added. cbn.
  rewrite Hc, Hj, Hm. by repeat split.
Qed.

(** An assignment of a numerical value to one register: the statement
    [target = right] is attached to the state current once the value and
    then the target have been lowered, a transition to the next state is
    emitted, and the lowering ends there. *)
Theorem visit_Assign_register self n target value st right st1 name width initval st2 :
  skipping st = false →
  visit self n value st = Ok (right, st1) →
  visit self n target st1 = Ok (Reg name width initval, st2) →
  is_numerical right = true →
  visit_stmt self (S n) (ast.Assign [target] value) st
  = Ok (tt, state_boundary (bound name (Reg name width initval) right st2)).
Proof.
  intros Hskip Hvalue Htarget Hnum. cbn [visit_stmt]. unfold visit_Assign.
  rewrite (bind_Ok _ _ _ _ _ (skip_eq st)), Hskip.
  rewrite (bind_Ok _ _ _ _ _ Hvalue).
  assert (Hmap : mapM (visit self n) [target] st1
                 = Ok ([Reg name width initval], st2)).
  { cbn [mapM]. by rewrite (bind_Ok _ _ _ _ _ Htarget). }
  rewrite (bind_Ok _ _ _ _ _ Hmap).
  cbn [map zip zip_with forM fst snd].
  assert (Hassign : ∀ raw_left,
    (∃ raw rest, raw_as_tuple raw_left = raw :: rest) →
    _assign right raw_left (Reg name width initval) st2
    = Ok (tt, bound name (Reg name width initval) right st2)).
  { intros raw_left (raw & rest & Hr).
    destruct right; try done; cbn [_assign as_tuple length Nat.ltb Nat.leb];
      rewrite Hr; cbn [first]; unfold setAssignBind; cbn [is_numerical negb];
      apply setBind_Reg_eq. }
  assert (Hnonempty : ∃ raw rest,
    raw_as_tuple (TargetVisitor_visit target) = raw :: rest).
  { destruct target; cbn [TargetVisitor_visit raw_as_tuple]; eauto.
    all: destruct n as [|n]; [done|]; cbn [visit] in Htarget.
    all: apply bind_Ok_inv in Htarget as (vs & s & _ & Htarget); done. }
  erewrite bind_Ok; [|erewrite bind_Ok; [reflexivity|by apply Hassign]].
  rewrite (bind_Ok _ _ _ _ _ (setFsm_next_eq _)).
  reflexivity.
Qed.

(** An augmented assignment to a register that is not skipped.  The value
    is lowered first and the target after it; [target = op(target, right)]
    is attached to the state current then, a transition to the next state
    is emitted and the lowering ends there.  The operand is not looked at:
    a string literal on the right is combined like any other value.  An
    operator without a constructor ends in a [TypeError], after both
    operands were lowered. *)
Theorem visit_AugAssign_lowering self n target o value st right st1
    name width initval st2 :
  skipping st = false →
  visit self n value st = Ok (right, st1) →
  visit self n target st1 = Ok (Reg name width initval, st2) →
  let left := Reg name width initval in
  visit_stmt self (S n) (ast.AugAssign target o value) st
  = match getVeriloggenOp_operator o with
    | Some op =>
        Ok (tt, state_boundary (bound name left (Binary op left right) st2))
    | None => Raise (TypeError "Unsupported BinOp")
    end.
Proof.
  intros Hskip Hvalue Htarget left. cbn [visit_stmt]. unfold visit_AugAssign.
  rewrite (bind_Ok _ _ _ _ _ (skip_eq st)), Hskip.
  rewrite (bind_Ok _ _ _ _ _ Hvalue).
  rewrite (bind_Ok _ _ _ _ _ Htarget).
  destruct (getVeriloggenOp_operator o) as [op|]; [|done].
  rewrite (bind_Ok _ _ _ _ _ (setBind_Reg_eq _ _ _ _ _)).
  rewrite (bind_Ok _ _ _ _ _ (setFsm_next_eq _)).
  reflexivity.
Qed.

(** ** Names *)

(** Store, then load.  Once the visit of a name in store context has
    returned a value, the visit of the name in load context returns the
    same value and leaves the compiler state as it is, and so does another
    visit in store context: the register of a variable is declared once. *)
Theorem visit_Name_store_load self n m id st v st1 :
  visit self (S n) (ast.Name id ast.Store) st = Ok (v, st1) →
  v ≠ PyNone →
  visit self (S m) (ast.Name id ast.Load) st1 = Ok (v, st1)
  ∧ visit self (S m) (ast.Name id ast.Store) st1 = Ok (v, st1).
Proof.
  cbn [visit]. unfold visit_Name.
  destruct (String.eqb id "True"); [by intros [= <- <-]|].
  destruct (String.eqb id "False"); [by intros [= <- <-]|].
  destruct (String.eqb id "None"); [by intros [= <- <-]|].
  intros H Hv.
  assert (Hfound : searchVariable id false (scope st1) = v).
  { unfold getVariable in H.
    rewrite (bind_Ok _ _ _ _ _ (ask_scope_eq _ _)) in H.
    destruct (is_None (searchVariable id true (scope st))) eqn:E.
    - cbn [negb] in H.
      apply bind_Ok_inv in H as (var & s1 & _ & H).
      apply bind_Ok_inv in H as ([] & s2 & _ & H).
      rewrite ask_scope_eq in H. by injection H as <- <-.
    - by injection H as <- <-. }
  assert (Hnn : is_None v = false) by by destruct v.
  unfold getVariable.
  rewrite !(bind_Ok _ _ _ _ _ (ask_scope_eq _ _)).
  change (searchVariable id true (scope st1)) with (searchVariable id false (scope st1)).
  by rewrite Hfound, Hnn.
Qed.

(** ** Calls that cannot be inlined *)

(** A call of a name that is no builtin, no intrinsic, no function of the
    scope and no function among the local objects ends in a [NameError],
    raised before any argument is lowered. *)
Theorem call_undefined_function self n name args keywords st :
  skipping st = false →
  name ≠ "print" → name ≠ "int" →
  intrinsic_functions self !! name = None →
  searchFunction name (scope st) = None →
  (∀ fd, local_objects self !! name ≠ Some (HFunction fd)) →
  visit self (S n) (ast.Call name args keywords) st
  = Raise (NameError ("function '" +:+ name +:+ "' is not defined")).
Proof.
  intros Hskip Hprint Hint Hintr Hfun Hloc.
  cbn [visit]. unfold visit_Call.
  rewrite (bind_Ok _ _ _ _ _ (skip_eq st)), Hskip.
  unfold _call_Name.
  rewrite (proj2 (String.eqb_neq _ _) Hprint), (proj2 (String.eqb_neq _ _) Hint).
  rewrite Hintr. unfold _call_Name_function.
  apply bind_Raise. unfold getFunction.
  rewrite (bind_Ok _ _ _ _ _ (ask_scope_eq _ _)), Hfun.
  destruct (local_objects self !! name) as [[v|fd]|] eqn:E; try done.
  by destruct (Hloc fd).
Qed.

(** Binding more arguments than there are parameters left raises. *)
Lemma bind_positional_overflow self params pos args st :
  (pos ≤ length params)%nat →
  (length params < pos + length args)%nat →
  ∃ e, bind_positional self params pos args st = Raise e.
Proof.
  revert pos st. induction args as [|a args IH]; intros pos st Hpos Hlen.
  - cbn in Hlen. lia.
  - cbn [bind_positional].
    destruct (params !! pos) as [argname|] eqn:E; [|eexists; reflexivity].
    apply lookup_lt_Some in E.
    unfold bind at 1.
    destruct (setArgBind self argname a st) as [[[] s1]|e|] eqn:Eb.
    + apply IH; [lia|]. cbn in Hlen. lia.
    + eexists; reflexivity.
    + exfalso. revert Eb. unfold setArgBind, getVariable, setBind, var_name,
        makeVariable, bind, ask_scope, on_scope, on_fsm, _tmp_name, getFsmCount.
      cbn. repeat case_match; done.
Qed.

(** Too many positional arguments.  A call with more positional arguments
    than the function has parameters is never inlined: once the arguments
    and the keyword values have been lowered the call raises, with the
    [IndexError] of indexing the parameter list when the function has no
    parameter at all. *)
Theorem call_too_many_arguments self n name args keywords st tree
    argvalues st1 kwvalues st2 :
  skipping st = false →
  name ≠ "print" → name ≠ "int" →
  intrinsic_functions self !! name = None →
  searchFunction name (scope st) = Some tree →
  (length (ast.fd_args tree) < length args)%nat →
  mapM (visit self n) args st = Ok (argvalues, st1) →
  mapM (fun key => visit self n key.2) keywords st1 = Ok (kwvalues, st2) →
  (∃ e, visit self (S n) (ast.Call name args keywords) st = Raise e)
  ∧ (ast.fd_args tree = [] →
     visit self (S n) (ast.Call name args keywords) st
     = Raise (IndexError "list index out of range")).
Proof.
  intros Hskip Hprint Hint Hintr Hfun Hlen Hargs Hkws.
  assert (Hcall : visit self (S n) (ast.Call name args keywords) st
    = bind (bind_positional self (ast.fd_args tree) 0 argvalues)
        (fun _ =>
           forM (zip (map fst keywords) kwvalues) (fun p => setArgBind self p.1 p.2) >>
           (if (0 <? length (ast.fd_defaults tree))%nat then
              forM (zip (drop (length (ast.fd_args tree) - length (ast.fd_defaults tree))
                              (ast.fd_args tree))
                        (ast.fd_defaults tree))
                   (bind_default self (visit self n))
            else ret tt) >>
           setFsm None None PyNone None >>
           incFsmCount >>
           let! r := _visit_next_function (visit self n) (visit_stmt self n) tree in
           close_call >> ret r)
        (upd_scope (pushScopeFrame (Some "call")) st2)).
  { cbn [visit]. unfold visit_Call.
    rewrite (bind_Ok _ _ _ _ _ (skip_eq st)), Hskip.
    unfold _call_Name.
    rewrite (proj2 (String.eqb_neq _ _) Hprint), (proj2 (String.eqb_neq _ _) Hint).
    rewrite Hintr. unfold _call_Name_function.
    assert (Hget : getFunction self name st = Ok (tree, st)).
    { unfold getFunction. by rewrite (bind_Ok _ _ _ _ _ (ask_scope_eq _ _)), Hfun. }
    rewrite (bind_Ok _ _ _ _ _ Hget).
    rewrite (bind_Ok _ _ _ _ _ Hargs).
    rewrite (bind_Ok _ _ _ _ _ Hkws).
    unfold pushScope. rewrite (bind_Ok _ _ _ _ _ (on_scope_eq _ _)).
    reflexivity. }
  rewrite Hcall.
  apply mapM_length in Hargs.
  split.
  - destruct (bind_positional_overflow self (ast.fd_args tree) 0 argvalues
                (upd_scope (pushScopeFrame (Some "call")) st2)) as [e He];
      [lia|cbn; lia|].
    exists e. by apply bind_Raise.
  - intros Hnil. apply bind_Raise. rewrite Hnil.
    destruct argvalues as [|a l]; [|done].
    rewrite Hnil in Hlen. cbn in Hargs, Hlen. lia.
Qed.

(** ** Comparisons and boolean operations *)

Lemma compare_chain_comparisons prev os vals st :
  (length os ≤ length vals)%nat →
  compare_chain prev (map Some os) vals st = Ok (comparisons prev os vals, st).
Proof.
  revert prev vals.
  induction os as [|o os IH]; intros prev vals Hlen; [reflexivity|].
  destruct vals as [|c vals]; [cbn in Hlen; lia|].
  cbn [map compare_chain comparisons].
  assert (Hle : (length os ≤ length vals)%nat) by (cbn in Hlen; lia).
  rewrite (bind_Ok _ _ _ _ _ (IH c vals Hle)).
  reflexivity.
Qed.

(** A chain of comparisons [l op1 c1 op2 c2 ...] whose operators all have
    a constructor: the left operand is lowered, then the comparators from
    left to right, each once; the result is the conjunction, nested to the
    left, of the comparisons of neighbouring operands, and the one
    comparison itself when there is one operator. *)
Theorem visit_Compare_chain self n l ops comparators st left st1 vals st2 os :
  visit self n l st = Ok (left, st1) →
  mapM (visit self n) comparators st1 = Ok (vals, st2) →
  map getVeriloggenOp_cmpop ops = map Some os →
  length ops = length comparators →
  ops ≠ [] →
  ∃ r rs,
    comparisons left os vals = r :: rs
    ∧ visit self (S n) (ast.Compare l ops comparators) st
      = Ok (fold_left (Binary Land) rs r, st2).
Proof.
  intros Hl Hcs Hops Hlen Hne. cbn [visit]. unfold visit_Compare.
  rewrite (bind_Ok _ _ _ _ _ Hl), (bind_Ok _ _ _ _ _ Hcs), Hops.
  assert (Hos : length os = length vals).
  { apply mapM_length in Hcs. apply (f_equal length) in Hops.
    rewrite !length_map in Hops. lia. }
  assert (Hle : (length os ≤ length vals)%nat) by lia.
  rewrite (bind_Ok _ _ _ _ _ (compare_chain_comparisons left os vals st2 Hle)).
  destruct os as [|o os]; [by destruct ops|].
  destruct vals as [|c vals]; [done|].
  cbn [comparisons]. eauto.
Qed.

(** A boolean operation over [values]: the operands are lowered from left
    to right, each once, and combined by the constructor of the operator,
    nested to the left. *)
Theorem visit_BoolOp_fold self n o values st vs st' op :
  getVeriloggenOp_boolop o = Some op →
  mapM (visit self n) values st = Ok (vs, st') →
  values ≠ [] →
  ∃ v0 rest,
    vs = v0 :: rest
    ∧ visit self (S n) (ast.BoolOp o values) st
      = Ok (fold_left (Binary op) rest v0, st').
Proof.
  intros Hop Hvs Hne. cbn [visit]. unfold visit_BoolOp. rewrite Hop.
  destruct values as [|e0 es]; [done|]. cbn [first tail].
  cbn [mapM] in Hvs.
  apply bind_Ok_inv in Hvs as (v0 & s0 & Hv0 & Hvs).
  apply bind_Ok_inv in Hvs as (rest & s1 & Hrest & Hvs).
  injection Hvs as <- <-.
  exists v0, rest. split; [done|].
  unfold ret at 1. unfold bind at 1. rewrite (bind_Ok _ _ _ _ _ Hv0).
  clear Hv0 Hne. revert v0 s0 rest Hrest.
  induction es as [|e es IH]; intros acc s0 rest Hrest.
  - by injection Hrest as <- <-.
  - cbn [mapM] in Hrest.
    apply bind_Ok_inv in Hrest as (v & s2 & Hv & Hrest).
    apply bind_Ok_inv in Hrest as (rest' & s3 & Hrest' & Hrest).
    injection Hrest as <- <-.
    rewrite (bind_Ok _ _ _ _ _ Hv). cbn [fold_left]. by apply IH.
Qed.

(** ** Printing *)

Lemma print_arg_plain (v : ast.expr → M value) arg :
  plain_print_arg arg = true →
  print_arg v arg = (let! x := v arg in ret (print_value x)).
Proof.
  intros H. destruct arg; try done.
  cbn [print_arg].
  match goal with |- context [match ?l with ast.Str _ => _ | _ => _ end] =>
    destruct l end; try done.
  match goal with |- context [match ?o with ast.Mod => _ | _ => _ end] =>
    destruct o end; done.
Qed.

Lemma mapM_print_arg_plain (v : ast.expr → M value) args st :
  forallb plain_print_arg args = true →
  mapM (print_arg v) args st
  = match mapM v args st with
    | Ok (vs, st') => Ok (map print_value vs, st')
    | Raise e => Raise e
    | OutOfFuel => OutOfFuel
    end.
Proof.
  revert st. induction args as [|a args IH]; intros st H; [done|].
  cbn [forallb] in H. apply andb_true_iff in H as [Ha Hargs].
  cbn [mapM]. rewrite (print_arg_plain _ _ Ha). unfold bind at 1 2 4.
  destruct (v a st) as [[x s1]| |]; [|done..].
  unfold ret at 1 2. unfold bind at 1 2. rewrite (IH _ Hargs).
  by destruct (mapM v args s1) as [[vs s2]| |].
Qed.

Lemma print_values_fst vs :
  concat (map fst (map print_value vs)) = display_values vs.
Proof.
  unfold display_values. induction vs as [|v vs IH]; [done|].
  cbn [map concat]. rewrite IH. by destruct v.
Qed.

Lemma print_values_snd vs :
  concat (map snd (map print_value vs))
  = concat (map (fun v => [format_piece v; " "]) vs).
Proof.
  induction vs as [|v vs IH]; [done|].
  cbn [map concat]. rewrite IH. by destruct v.
Qed.

(** Joining pieces that are each followed by a blank, the last blank
    dropped, is joining the pieces with blanks. *)
Lemma join_pieces ps :
  String.concat EmptyString (removelast (concat (map (fun p => [p; " "]) ps)))
  = String.concat " " ps.
Proof.
  induction ps as [|p [|q ps] IH]; [done|done|].
  change (concat (map (fun p => [p; " "]) (p :: q :: ps)))
    with (p :: " " :: concat (map (fun p => [p; " "]) (q :: ps))).
  change (concat (map (fun p => [p; " "]) (q :: ps)))
    with (q :: " " :: concat (map (fun p => [p; " "]) ps)) in *.
  cbn [removelast] in *.
  set (tl := match concat (map (fun p => [p; " "]) ps) with
             | [] => [] | _ :: _ => _ end) in *.
  cbn [String.concat] in *. rewrite IH. done.
Qed.

Lemma print_display_plain (v : ast.expr → M value) args st vs st1 :
  forallb plain_print_arg args = true →
  mapM v args st = Ok (vs, st1) →
  let task := SystemTask "display"
                (Str (String.concat " " (map format_piece vs)) :: display_values vs) in
  print_display v args st = Ok (task, displayed task st1).
Proof.
  intros Hplain Hvs task. unfold print_display.
  pose proof (mapM_print_arg_plain v args st Hplain) as Hparts.
  rewrite Hvs in Hparts. rewrite (bind_Ok _ _ _ _ _ Hparts).
  rewrite print_values_fst, print_values_snd.
  rewrite <- (map_map format_piece (fun p => [p; " "])), join_pieces.
  rewrite (bind_Ok _ _ _ _ _ (setBind_task_eq _ _)).
  rewrite (bind_Ok _ _ _ _ _ (setFsm_next_eq _)).
  reflexivity.
Qed.

(** Printing plain arguments (no format string applied with [%], no
    tuple).  The arguments are lowered from left to right; the format
    string is the pieces joined by blanks, a string literal standing for
    itself and any other value for ["%d"]; the values displayed are the
    arguments that are no string literals, in order.  The [display] task is
    attached to the state current after the arguments, a transition to the
    next state is emitted, and the lowering ends there.  The print
    statement and a call of [print] that is not skipped lower alike; the
    call ignores its keywords. *)
Theorem visit_Print_format self n values keywords st vs st1 :
  forallb plain_print_arg values = true →
  mapM (visit self n) values st = Ok (vs, st1) →
  let task := SystemTask "display"
                (Str (String.concat " " (map format_piece vs)) :: display_values vs) in
  visit_stmt self (S n) (ast.Print values) st = Ok (tt, displayed task st1)
  ∧ (skipping st = false →
     visit self (S n) (ast.Call "print" values keywords) st
     = Ok (task, displayed task st1)).
Proof.
  intros Hplain Hvs task.
  pose proof (print_display_plain _ _ _ _ _ Hplain Hvs) as Hd. cbv zeta in Hd.
  split.
  - cbn [visit_stmt]. unfold visit_Print. by rewrite (bind_Ok _ _ _ _ _ Hd).
  - intros Hskip. cbn [visit]. unfold visit_Call.
    by rewrite (bind_Ok _ _ _ _ _ (skip_eq st)), Hskip.
Qed.

Lemma mapM_app {A B} (f : A → M B) l k st :
  mapM f (l ++ k) st
  = match mapM f l st with
    | Ok (bs, s1) =>
        match mapM f k s1 with
        | Ok (cs, s2) => Ok (bs ++ cs, s2)
        | Raise e => Raise e
        | OutOfFuel => OutOfFuel
        end
    | Raise e => Raise e
    | OutOfFuel => OutOfFuel
    end.
Proof.
  revert st. induction l as [|a l IH]; intros st.
  - cbn. by destruct (mapM f k st) as [[cs s2]| |].
  - cbn [app mapM]. unfold bind, ret.
    destruct (f a st) as [[b s0]| |]; cbv beta iota; [|done..].
    rewrite IH.
    destruct (mapM f l s0) as [[bs s1]| |]; cbv beta iota; [|done..].
    destruct (mapM f k s1) as [[cs s2]| |]; reflexivity.
Qed.

Lemma print_display_eq (v : ast.expr → M value) args st :
  print_display v args st
  = match mapM (print_arg v) args st with
    | Ok (parts, s) => emit_display (concat (map fst parts)) (concat (map snd parts)) s
    | Raise e => Raise e
    | OutOfFuel => OutOfFuel
    end.
Proof. reflexivity. Qed.

(** A tuple among the arguments of [print] is flattened: when its elements
    are plain arguments, printing the tuple is printing its elements as
    arguments of their own, whatever the outcome. *)
Theorem print_tuple_flattened self n elts rest st :
  forallb plain_print_arg elts = true →
  visit_stmt self (S n) (ast.Print (ast.Tuple elts :: rest)) st
  = visit_stmt self (S n) (ast.Print (elts ++ rest)) st.
Proof.
  intros Hplain. cbn [visit_stmt]. unfold visit_Print.
  assert (Hd : print_display (visit self n) (ast.Tuple elts :: rest) st
               = print_display (visit self n) (elts ++ rest) st);
    [|unfold bind; by rewrite Hd].
  rewrite !print_display_eq.
  rewrite mapM_app, (mapM_print_arg_plain _ _ _ Hplain).
  cbn [mapM print_arg]. unfold bind, ret.
  destruct (mapM (visit self n) elts st) as [[vs s1]| |]; cbv beta iota; [|done..].
  destruct (mapM (print_arg (visit self n)) rest s1) as [[ps s2]| |];
    cbv beta iota; [|done..].
  cbn [map concat fst snd].
  by rewrite !map_app, !concat_app, !map_map.
Qed.
